(** * qonnx.util.basic: range analysis, sanitisation, tensor generation
      and layout helpers

    A shallow embedding of [src/qonnx/util/basic.py].  Python numbers are
    rationals ([Q]); a NumPy array is a shape, a storage dtype and its
    elements in row-major order; a raised exception is the [Raise] branch
    of [result].  Arithmetic on arrays gives numbers of the dtype of the
    result: rounded for a floating-point type, wrapped around for an
    integer type.  Infinities and NaN are not represented: what is stated
    of floating-point results is stated for values within the finite range
    of their type.  The datatype catalogue ([qonnx.core.datatype]), the
    rounding to the floating-point formats and NumPy's pseudo-random
    generator are interfaces the functions are parameterised over. *)

From Stdlib Require Import QArith Qround Qabs Qpower Lqa ZArith Lia List Ascii String.
From stdpp Require Import gmap strings list fin_maps pretty.
Import ListNotations.

Local Open Scope Z_scope.

(** ** Python exceptions and results *)

Inductive exn : Type :=
  | AssertionError (msg : string)
  | ValueError (msg : string)
  | TypeError (msg : string)
  | KeyError (key : string)
  | IndexError
  | ZeroDivisionError
  | OverflowError
  | RoundingErrorTooHigh (dtype_name tensor_name : string)
  | ValuesNotRepresentable (dtype_name tensor_name : string).

Inductive result (A : Type) : Type :=
  | Ok (a : A)
  | Raise (e : exn).
Arguments Ok {A} a.
Arguments Raise {A} e.

#[global] Instance result_ret : MRet result := fun A a => Ok a.
#[global] Instance result_bind : MBind result := fun A B f m =>
  match m with
  | Ok a => f a
  | Raise e => Raise e
  end.

Definition py_assert (b : bool) (msg : string) : result unit :=
  if b then Ok tt else Raise (AssertionError msg).

Definition is_ok {A} (r : result A) : bool :=
  match r with Ok _ => true | Raise _ => false end.

(** ** Rational helpers *)

Definition Qltb (x y : Q) : bool := negb (Qle_bool y x).

Definition Q_is_int (x : Q) : bool := Qeq_bool x (inject_Z (Qfloor x)).

(** ** NumPy arrays *)

Inductive np_dtype : Type :=
  | np_int8 | np_int16 | np_int32 | np_int64
  | np_uint8 | np_uint16 | np_uint32 | np_uint64
  | np_float16 | np_float32 | np_float64.

Definition np_dtype_eqb (a b : np_dtype) : bool :=
  match a, b with
  | np_int8, np_int8 | np_int16, np_int16 | np_int32, np_int32
  | np_int64, np_int64 | np_uint8, np_uint8 | np_uint16, np_uint16
  | np_uint32, np_uint32 | np_uint64, np_uint64 | np_float16, np_float16
  | np_float32, np_float32 | np_float64, np_float64 => true
  | _, _ => false
  end.

(** [np.iinfo]: inclusive bounds of an integer storage type. *)
Definition iinfo (t : np_dtype) : option (Z * Z) :=
  match t with
  | np_int8 => Some (- 2 ^ 7, 2 ^ 7 - 1)
  | np_int16 => Some (- 2 ^ 15, 2 ^ 15 - 1)
  | np_int32 => Some (- 2 ^ 31, 2 ^ 31 - 1)
  | np_int64 => Some (- 2 ^ 63, 2 ^ 63 - 1)
  | np_uint8 => Some (0, 2 ^ 8 - 1)
  | np_uint16 => Some (0, 2 ^ 16 - 1)
  | np_uint32 => Some (0, 2 ^ 32 - 1)
  | np_uint64 => Some (0, 2 ^ 64 - 1)
  | _ => None
  end.

Definition is_float_dtype (t : np_dtype) : bool :=
  match t with
  | np_float16 | np_float32 | np_float64 => true
  | _ => false
  end.

Record ndarray : Type := mk_ndarray {
  shape : list Z;
  dtype : np_dtype;
  data : list Q
}.

Definition prod_list (l : list Z) : Z := fold_right Z.mul 1 l.

Definition ndim (a : ndarray) : nat := length (shape a).

(** Elementwise application, shape and storage type kept. *)
Definition np_map (f : Q -> Q) (a : ndarray) : ndarray :=
  mk_ndarray (shape a) (dtype a) (map f (data a)).

(** ** The datatype capability

    The catalogue itself is not part of this module; a datatype is the
    record of the operations [basic.py] calls on it. *)

Inductive allowed_result : Type :=
  | AllowedScalar (b : bool)
  | AllowedArray (bs : list bool).

Module DataType.
Record t : Type := mk {
  name : string;
  min : Q;
  max : Q;
  is_integer : bool;
  signed : bool;
  bitwidth : Z;
  scale_factor : Q;
  allowed : ndarray -> allowed_result;
  to_numpy_dt : result np_dtype
}.
End DataType.

(** ** [calculate_signed_dot_prod_range] *)

(** Body of the inner [for b_val] loop: the state is (min_prod, max_prod). *)
Definition dot_prod_inner (a_val : Q) (len : Z) (st : Q * Q) (b_val : Q) : Q * Q :=
  let prod := (a_val * b_val * inject_Z len)%Q in
  let min_prod := if Qltb prod (fst st) then prod else fst st in
  let max_prod := if Qltb (snd st) prod then prod else snd st in
  (min_prod, max_prod).

Definition dot_prod_outer (dt_b : DataType.t) (len : Z) (st : Q * Q) (a_val : Q) : Q * Q :=
  fold_left (dot_prod_inner a_val len) [DataType.min dt_b; DataType.max dt_b] st.

Definition calculate_signed_dot_prod_range (dt_a dt_b : DataType.t) (len : Z)
  : result (Q * Q) :=
  _ ← py_assert (DataType.signed dt_a && DataType.signed dt_b)
        "The input values are not both signed vectors.";
  let min_prod := inject_Z (2 ^ 30) in
  let max_prod := inject_Z (- 2 ^ 30) in
  Ok (fold_left (dot_prod_outer dt_b len) [DataType.min dt_a; DataType.max dt_a]
        (min_prod, max_prod)).

(** The four corner products, as the specification lists them. *)
Definition corner_products (dt_a dt_b : DataType.t) : list Q :=
  [ (DataType.min dt_a * DataType.min dt_b)%Q;
    (DataType.min dt_a * DataType.max dt_b)%Q;
    (DataType.max dt_a * DataType.min dt_b)%Q;
    (DataType.max dt_a * DataType.max dt_b)%Q ].

(** [m] is the least element of [l], up to equality of rationals. *)
Definition is_min_of (l : list Q) (m : Q) : Prop :=
  Exists (fun x => x == m)%Q l /\ Forall (fun x => m <= x)%Q l.

Definition is_max_of (l : list Q) (m : Q) : Prop :=
  Exists (fun x => x == m)%Q l /\ Forall (fun x => x <= m)%Q l.

(** ** Storage conversions

    Rounding a non-integral value to the nearest binary16, binary32 or
    binary64 number is a parameter of the development; the conversion of
    an integer to binary32 is written out below. *)

Class FloatRounding : Type := {
  fl16 : Q -> Q;
  fl32 : Q -> Q;
  fl64 : Q -> Q
}.

(** Nearest binary32 value of an integer (24 significant bits, ties to
    even); integers handled by NumPy stay far below the overflow threshold
    of binary32. *)
Definition float32_of_Z (z : Z) : Z :=
  let a := Z.abs z in
  if a <? 2 ^ 24 then z
  else
    let e := Z.log2 a - 23 in
    let q := Z.shiftr a e in
    let r := a - Z.shiftl q e in
    let half := 2 ^ (e - 1) in
    let q' := if (half <? r) || ((r =? half) && Z.odd q) then q + 1 else q in
    Z.sgn z * Z.shiftl q' e.

(** A nested Python list of numbers. *)
#[warnings="-register-all"] Inductive nested : Type :=
  | Num (q : Q)
  | Lst (l : list nested).

(** What the callers may pass where an array is expected. *)
Inductive array_like : Type :=
  | PyNdarray (a : ndarray)
  | PyList (l : nested).

Definition shape_eqb (s1 s2 : list Z) : bool :=
  bool_decide (s1 = s2).

(** ** Types of arithmetic results *)

Inductive np_kind : Type :=
  | SignedInt (bits : Z)
  | UnsignedInt (bits : Z)
  | Floating (bits : Z).

Definition np_kind_of (t : np_dtype) : np_kind :=
  match t with
  | np_int8 => SignedInt 8 | np_int16 => SignedInt 16
  | np_int32 => SignedInt 32 | np_int64 => SignedInt 64
  | np_uint8 => UnsignedInt 8 | np_uint16 => UnsignedInt 16
  | np_uint32 => UnsignedInt 32 | np_uint64 => UnsignedInt 64
  | np_float16 => Floating 16 | np_float32 => Floating 32
  | np_float64 => Floating 64
  end.

Definition signed_of_bits (b : Z) : np_dtype :=
  if b <=? 8 then np_int8 else if b <=? 16 then np_int16
  else if b <=? 32 then np_int32 else np_int64.

Definition unsigned_of_bits (b : Z) : np_dtype :=
  if b <=? 8 then np_uint8 else if b <=? 16 then np_uint16
  else if b <=? 32 then np_uint32 else np_uint64.

Definition float_of_bits (b : Z) : np_dtype :=
  if b <=? 16 then np_float16 else if b <=? 32 then np_float32 else np_float64.

(** The least floating-point type that holds every integer of [b] bits. *)
Definition float_bits_for_int (b : Z) : Z :=
  if b <=? 8 then 16 else if b <=? 16 then 32 else 64.

(** [np.result_type] of the element types of two arrays. *)
Definition np_result_type (a b : np_dtype) : np_dtype :=
  match np_kind_of a, np_kind_of b with
  | Floating x, Floating y => float_of_bits (Z.max x y)
  | SignedInt x, SignedInt y => signed_of_bits (Z.max x y)
  | UnsignedInt x, UnsignedInt y => unsigned_of_bits (Z.max x y)
  | SignedInt s, UnsignedInt u | UnsignedInt u, SignedInt s =>
      if u <? s then signed_of_bits s
      else if u <? 64 then signed_of_bits (2 * u)
      else np_float64
  | Floating f, SignedInt i | SignedInt i, Floating f
  | Floating f, UnsignedInt i | UnsignedInt i, Floating f =>
      float_of_bits (Z.max f (float_bits_for_int i))
  end.

(** The type in which [sum] adds: integers are added as int64 or uint64. *)
Definition sum_dtype (t : np_dtype) : np_dtype :=
  match np_kind_of t with
  | SignedInt _ => np_int64
  | UnsignedInt _ => np_uint64
  | Floating _ => t
  end.

(** The largest finite number of a floating-point type. *)
Definition max_finite (t : np_dtype) : option Q :=
  match t with
  | np_float16 => Some (inject_Z (2 ^ 11 - 1) * 2 ^ 5)%Q
  | np_float32 => Some (inject_Z (2 ^ 24 - 1) * 2 ^ 104)%Q
  | np_float64 => Some (inject_Z (2 ^ 53 - 1) * 2 ^ 971)%Q
  | _ => None
  end.

(** [q] does not overflow when it is rounded to the type [t]. *)
Definition finite_in (t : np_dtype) (q : Q) : Prop :=
  match max_finite t with
  | Some m => (Qabs q <= m)%Q
  | None => True
  end.

(** Reduction of an integer into the range [lo, hi] of a storage type. *)
Definition wrap_to (lo hi z : Z) : Z := (z - lo) mod (hi - lo + 1) + lo.

(** The integer part of a rational, toward zero. *)
Definition Qtrunc (q : Q) : Z := Z.quot (Qnum q) (Zpos (Qden q)).

Section Storage.
Context {FR : FloatRounding}.

(** A number as an array of type [t] stores it: rounded to the nearest
    number of a floating-point type; for an integer type cut toward zero
    and wrapped around into the range of the type. *)
Definition np_store (t : np_dtype) (q : Q) : Q :=
  match t with
  | np_float16 => fl16 q
  | np_float32 => fl32 q
  | np_float64 => fl64 q
  | _ =>
      match iinfo t with
      | Some (lo, hi) => inject_Z (wrap_to lo hi (Qtrunc q))
      | None => q
      end
  end.

(** [a.astype(np.float32)] *)
Definition astype_float32 (a : ndarray) : ndarray :=
  let cast q :=
    if is_float_dtype (dtype a) then fl32 q
    else inject_Z (float32_of_Z (Qfloor q)) in
  mk_ndarray (shape a) np_float32 (map cast (data a)).

(** [a.astype(np.float16)] *)
Definition astype_float16 (a : ndarray) : ndarray :=
  mk_ndarray (shape a) np_float16 (map fl16 (data a)).

(** Shape and row-major elements of a nested list; a ragged list has no
    shape. *)
Fixpoint nested_to_array (n : nested) : result (list Z * list Q) :=
  match n with
  | Num q => Ok ([], [q])
  | Lst l =>
      let fix go (l : list nested) : result (list (list Z * list Q)) :=
        match l with
        | [] => Ok []
        | x :: xs =>
            a ← nested_to_array x;
            r ← go xs;
            Ok (a :: r)
        end in
      subs ← go l;
      match subs with
      | [] => Ok ([0], [])
      | (s, _) :: _ =>
          if forallb (fun p => shape_eqb (fst p) s) subs
          then Ok (Z.of_nat (length subs) :: s, concat (map snd subs))
          else Raise (ValueError "inhomogeneous shape")
      end
  end.

(** [np.asarray(x, dtype=np.float32)] *)
Definition np_asarray_float32 (x : array_like) : result ndarray :=
  match x with
  | PyNdarray a => Ok (astype_float32 a)
  | PyList l =>
      '(s, d) ← nested_to_array l;
      Ok (mk_ndarray s np_float32 (map fl32 d))
  end.

(** Lines 133-135 and 182-184: anything that is not already a float32 or
    float16 NumPy array is converted to a float32 array. *)
Definition to_float_container (x : array_like) : result ndarray :=
  match x with
  | PyNdarray a =>
      if np_dtype_eqb (dtype a) np_float32 || np_dtype_eqb (dtype a) np_float16
      then Ok a
      else np_asarray_float32 x
  | PyList _ => np_asarray_float32 x
  end.
End Storage.

(** ** Array operations used by the layout helpers *)

Fixpoint chunks (size count : nat) (l : list Q) : list (list Q) :=
  match count with
  | O => []
  | S c => take size l :: chunks size c (drop size l)
  end.

Definition count_unknown (s : list Z) : nat :=
  length (List.filter (fun d => d =? -1) s).

(** [a.reshape(newshape)], one dimension may be given as -1. *)
Definition reshape (a : ndarray) (newshape : list Z) : result ndarray :=
  let size := Z.of_nat (length (data a)) in
  if existsb (fun d => d <? -1) newshape
  then Raise (ValueError "negative dimensions not allowed")
  else
    match count_unknown newshape with
    | O =>
        if prod_list newshape =? size
        then Ok (mk_ndarray newshape (dtype a) (data a))
        else Raise (ValueError "cannot reshape array")
    | S O =>
        let known := prod_list (List.filter (fun d => negb (d =? -1)) newshape) in
        if (known =? 0) || negb (size mod known =? 0)
        then Raise (ValueError "cannot reshape array")
        else Ok (mk_ndarray (map (fun d => if d =? -1 then size / known else d) newshape)
                   (dtype a) (data a))
    | _ => Raise (ValueError "can only specify one unknown dimension")
    end.

(** The slice [data[start*len : (start+1)*len]]. *)
Definition block (len : nat) (d : list Q) (start : nat) : list Q :=
  take len (drop (start * len) d).

(** [a.transpose((1, 0, 2))] of a three-dimensional array: element
    [j, i, k] of the result is element [i, j, k] of [a]. *)
Definition transpose_102 (a : ndarray) : result ndarray :=
  match shape a with
  | [d0; d1; d2] =>
      let n0 := Z.to_nat d0 in
      let n1 := Z.to_nat d1 in
      let n2 := Z.to_nat d2 in
      Ok (mk_ndarray [d1; d0; d2] (dtype a)
            (flat_map (fun j =>
               flat_map (fun i => block n2 (data a) (i * n1 + j)) (seq 0 n0))
               (seq 0 n1)))
  | _ => Raise (ValueError "axes don't match array")
  end.

Definition py_index (l : list Z) (i : nat) : result Z :=
  match l !! i with
  | Some x => Ok x
  | None => Raise IndexError
  end.

(** Python's [%] on integers. *)
Definition py_mod (a b : Z) : result Z :=
  if b =? 0 then Raise ZeroDivisionError else Ok (a mod b).

(** ** [interleave_matrix_outer_dim_from_partitions] *)

Section Layout.
Context {FR : FloatRounding}.

Definition interleave_matrix_outer_dim_from_partitions
    (matrix : array_like) (n_partitions : Z) : result ndarray :=
  matrix ← to_float_container matrix;
  let shp := shape matrix in
  let ndim := ndim matrix in
  shp0 ← py_index shp 0;
  r ← py_mod shp0 n_partitions;
  _ ← py_assert (r =? 0)
        "The outermost dimension is not divisable by the number of partitions.";
  _ ← py_assert (Nat.eqb ndim 2)
        "The dimension of the matrix is not 2.";
  shp1 ← py_index shp 1;
  matrix_r ← reshape matrix [-1; n_partitions; shp1];
  matrix_r ← transpose_102 matrix_r;
  matrix_r ← reshape matrix_r [n_partitions; -1; shp1];
  Ok matrix_r.

(** ** [roundup_to_integer_multiple]

    [x] and [factor] are integers, so the two integrality assertions
    hold. *)
Definition roundup_to_integer_multiple (x factor : Z) : result Z :=
  if factor =? -1 then Ok x
  else
    _ ← py_assert ((0 <? factor) && (0 <? x)) "Factor and x are <= 0.";
    if x <? factor then Ok factor
    else if x mod factor =? 0 then Ok x
    else Ok (x + (factor - x mod factor)).

(** ** [pad_tensor_to_multiple_of] *)

Fixpoint result_mapM {A B} (f : A -> result B) (l : list A) : result (list B) :=
  match l with
  | [] => Ok []
  | x :: xs =>
      y ← f x;
      ys ← result_mapM f xs;
      Ok (y :: ys)
  end.

(** [np.asarray(l, dtype=np.int32)] on Python integers. *)
Definition to_int32 (z : Z) : result Z :=
  if (- 2 ^ 31 <=? z) && (z <? 2 ^ 31) then Ok z else Raise OverflowError.

Definition padded_shape (shp : list Z) (pads : list (Z * Z)) : list Z :=
  zip_with (fun n p => fst p + n + snd p) shp pads.

(** Elements of [np.pad(a, pads, mode="constant", constant_values=val)]
    for the stored fill value [val], one axis at a time from the
    outermost. *)
Fixpoint np_pad_data (shp : list Z) (pads : list (Z * Z)) (val : Q) (d : list Q)
  : list Q :=
  match shp, pads with
  | n :: shp', (b, a) :: pads' =>
      let inner := Z.to_nat (prod_list shp') in
      let inner' := Z.to_nat (prod_list (padded_shape shp' pads')) in
      repeat val (Z.to_nat b * inner')
      ++ flat_map (np_pad_data shp' pads' val) (chunks inner (Z.to_nat n) d)
      ++ repeat val (Z.to_nat a * inner')
  | _, _ => d
  end.

(** [np.pad]: an empty list of widths is a float64 array to NumPy and is
    refused; widths must not be negative; a single pair stands for every
    axis, otherwise there is one pair for each axis.  The result has the
    storage type of the array, so the fill value is stored in that
    type. *)
Definition np_pad (a : ndarray) (pads : list (Z * Z)) (val : Q) : result ndarray :=
  match pads with
  | [] => Raise (TypeError "`pad_width` must be of integral type.")
  | p :: _ =>
      if existsb (fun p => (fst p <? 0) || (snd p <? 0)) pads
      then Raise (ValueError "index can't contain negative values")
      else
        pads ← (if Nat.eqb (length pads) (ndim a) then Ok pads
                else if Nat.eqb (length pads) 1 then Ok (repeat p (ndim a))
                else Raise (ValueError "pad_width could not be broadcast to the axes"));
        Ok (mk_ndarray (padded_shape (shape a) pads) (dtype a)
              (np_pad_data (shape a) pads (np_store (dtype a) val) (data a)))
  end.

(** Arithmetic on [np.int32] arrays wraps around. *)
Definition wrap_int32 (z : Z) : Z := (z + 2 ^ 31) mod 2 ^ 32 - 2 ^ 31.

Definition pad_tensor_to_multiple_of
    (arr : array_like) (pad_to_dims : list Z) (val : Q) (distr_pad : bool)
  : result ndarray :=
  arr ← to_float_container arr;
  _ ← py_assert (Nat.eqb (ndim arr) (length pad_to_dims))
        "The dimensions of the input array don't match the length of the pad_to_dims value.";
  (* compute the desired shape *)
  desired ← result_mapM (fun x => roundup_to_integer_multiple (fst x) (snd x))
              (zip (shape arr) pad_to_dims);
  desired ← result_mapM to_int32 desired;
  current ← result_mapM to_int32 (shape arr);
  let pad_amt := zip_with (fun d c => wrap_int32 (d - c)) desired current in
  (* add padding to get to the desired shape *)
  let pad_amt :=
    if distr_pad
    then map (fun x => let pad_before := x / 2 in
                       (pad_before, wrap_int32 (x - pad_before))) pad_amt
    else map (fun x => (0, x)) pad_amt in
  ret ← np_pad arr pad_amt val;
  _ ← py_assert (shape_eqb (shape ret) desired)
        "The calculated output array doesn't match the desired/expected one.";
  Ok ret.
End Layout.

(** ** [calculate_matvec_accumulator_range] *)

(** [matrix > 0] *)
Definition np_gt0 (matrix : ndarray) : list bool :=
  map (fun m => Qltb 0 m) (data matrix).

Definition Qmax_step (m y : Q) : Q := if Qltb m y then y else m.
Definition Qmin_step (m y : Q) : Q := if Qltb y m then y else m.

(** [a.max()] and [a.min()]: no value for an array without elements. *)
Definition np_amax (a : ndarray) : result Q :=
  match data a with
  | [] => Raise (ValueError "zero-size array to reduction operation maximum")
  | x :: xs => Ok (fold_left Qmax_step xs x)
  end.

Definition np_amin (a : ndarray) : result Q :=
  match data a with
  | [] => Raise (ValueError "zero-size array to reduction operation minimum")
  | x :: xs => Ok (fold_left Qmin_step xs x)
  end.

(** The order in which a reduction adds its operands: a single operand,
    or the sum of two partial sums. *)
Inductive sum_order : Type :=
  | Operand (i : nat)
  | Added (l r : sum_order).

Fixpoint operands (o : sum_order) : list nat :=
  match o with
  | Operand i => [i]
  | Added l r => operands l ++ operands r
  end.

Section MatVecRange.
Context {FR : FloatRounding}.

(** NumPy does not fix the order in which [sum] adds the sub-arrays along
    an axis: it depends on their number and on the memory layout of the
    array (one after the other when the sub-arrays are contiguous rows, in
    blocks of eight and in halves along a contiguous axis).
    [reduction_order n] is the order for [n] sub-arrays. *)
Variable reduction_order : nat -> sum_order.

(** [vec_dt.min()] and [vec_dt.max()] are Python integers for some kinds
    of the catalogue and floating-point numbers for others; the
    catalogue is not part of this module.  [bounds_dtype vec_dt] is the
    element type NumPy gives the array [np.where] builds from the two
    bounds (int64 for two Python integers, float64 for Python floats, the
    type of the scalars for NumPy scalars); both bounds are numbers of
    that type. *)
Variable bounds_dtype : DataType.t -> np_dtype.

(** [np.where(cond, x, y)] for scalars [x] and [y] of type [t] and a
    condition of shape [shp]. *)
Definition np_where (shp : list Z) (t : np_dtype) (cond : list bool) (x y : Q)
  : ndarray :=
  mk_ndarray shp t (map (fun c : bool => if c then x else y) cond).

(** [a * b], elementwise, for arrays of one shape: the operands are
    converted to the common type and the product is a number of that
    type, rounded when it is a floating-point type and wrapped around
    when it is an integer type. *)
Definition np_mul (a b : ndarray) : ndarray :=
  let t := np_result_type (dtype a) (dtype b) in
  mk_ndarray (shape a) t
    (zip_with (fun x y => np_store t (np_store t x * np_store t y)%Q)
       (data a) (data b)).

(** The sub-arrays [rows] added elementwise in the order [o], every
    addition giving a number of the type [t].  (Within a block of float16
    numbers NumPy keeps the partial sums in float32; they are taken here as
    float16 numbers like the others.) *)
Fixpoint add_in_order (t : np_dtype) (rows : list (list Q)) (o : sum_order)
  : list Q :=
  match o with
  | Operand i => map (np_store t) (nth i rows [])
  | Added l r =>
      zip_with (fun x y => np_store t (x + y)%Q)
        (add_in_order t rows l) (add_in_order t rows r)
  end.

(** [a.sum(axis=0)]: the sub-arrays along the first axis are added in the
    type of the sum; without any, the sum is zero; a 0-dimensional array
    is its own sum. *)
Definition np_sum_axis0 (a : ndarray) : ndarray :=
  let t := sum_dtype (dtype a) in
  match shape a with
  | [] => mk_ndarray [] t (map (np_store t) (data a))
  | n :: rest =>
      let inner := Z.to_nat (prod_list rest) in
      let rows := chunks inner (Z.to_nat n) (data a) in
      mk_ndarray rest t
        match rows with
        | [] => repeat 0%Q inner
        | _ :: _ => add_in_order t rows (reduction_order (length rows))
        end
  end.

Definition calculate_matvec_accumulator_range (matrix : ndarray) (vec_dt : DataType.t)
  : result (Q * Q) :=
  let t := bounds_dtype vec_dt in
  let max_vectors :=
    np_where (shape matrix) t (np_gt0 matrix) (DataType.max vec_dt) (DataType.min vec_dt) in
  let min_vectors :=
    np_where (shape matrix) t (np_gt0 matrix) (DataType.min vec_dt) (DataType.max vec_dt) in
  max_value ← np_amax (np_sum_axis0 (np_mul matrix max_vectors));
  min_value ← np_amin (np_sum_axis0 (np_mul matrix min_vectors));
  Ok (min_value, max_value).
End MatVecRange.

(** ** Pseudo-random generators

    [np.random.RandomState] with the three sampling methods
    [gen_finn_dt_tensor] calls; every method returns the samples and the
    advanced generator. *)

Class NumpyRandom : Type := {
  RandomState : Type;
  (** [np.random.RandomState(seed)] *)
  RandomState_seed : Z -> result RandomState;
  (** [rng.randint(low, high=high, size=size, dtype=dtype)] *)
  randint : Q -> Q -> list Z -> np_dtype -> RandomState -> result (list Z) * RandomState;
  (** [rng.randn( *size )] *)
  randn : list Z -> RandomState -> result (list Q) * RandomState;
  (** [rng.uniform(low, high, size=size)] *)
  uniform : Q -> Q -> list Z -> RandomState -> result (list Q) * RandomState
}.

(** What NumPy documents for [randint]: it samples integer storage types
    only; with integral bounds every sample lies in the half-open interval;
    and a call with a non-empty interval inside the bounds of [dtype] and a
    non-negative size returns one sample per element. *)
Class NumpyRandomLaws (R : NumpyRandom) : Prop := {
  randint_integer_dtype :
    forall low high size dt s vs s',
      randint low high size dt s = (Ok vs, s') -> is_float_dtype dt = false;
  randint_range :
    forall low high size dt s vs s' (lo hi : Z),
      randint low high size dt s = (Ok vs, s') ->
      (low == inject_Z lo)%Q -> (high == inject_Z hi)%Q ->
      Forall (fun v => lo <= v < hi) vs;
  randint_returns :
    forall low high size dt s (lo hi tmin tmax : Z),
      (low == inject_Z lo)%Q -> (high == inject_Z hi)%Q ->
      iinfo dt = Some (tmin, tmax) ->
      tmin <= lo -> lo < hi -> hi <= tmax + 1 ->
      Forall (fun d => 0 <= d) size ->
      exists vs s', randint low high size dt s = (Ok vs, s')
                    /\ Z.of_nat (length vs) = prod_list size
}.

(** Python's [random] module: one generator shared by the whole process. *)
Class PyRandom : Type := {
  py_random_state : Type;
  (** [random.choice(seq)]: the index chosen among [n] items. *)
  py_random_choice : nat -> py_random_state -> nat * py_random_state
}.

(** The generators every function of the process shares. *)
Record process_state `{NumpyRandom} `{PyRandom} : Type := mk_process {
  np_random_global : RandomState;
  random_global : py_random_state
}.

(** ** [random_string] *)

Section RandomString.
Context {NR : NumpyRandom} {PR : PyRandom}.

Definition ascii_letters_digits : list ascii :=
  list_ascii_of_string
    "abcdefghijklmnopqrstuvwxyzABCDEFGHIJKLMNOPQRSTUVWXYZ0123456789".

Fixpoint random_chars (n : nat) (g : py_random_state) : list ascii * py_random_state :=
  match n with
  | O => ([], g)
  | S n' =>
      let '(i, g) := py_random_choice (length ascii_letters_digits) g in
      let '(cs, g) := random_chars n' g in
      (nth i ascii_letters_digits "a"%char :: cs, g)
  end.

Definition random_string (stringLength : nat) (w : process_state)
  : string * process_state :=
  let '(cs, g) := random_chars stringLength (random_global w) in
  (string_of_list_ascii cs, mk_process _ _ (np_random_global w) g).
End RandomString.

(** ** [gen_finn_dt_tensor] *)

(** [needle in hay] on strings. *)
Fixpoint str_in (needle hay : string) : bool :=
  String.prefix needle hay
  || match hay with
     | EmptyString => false
     | String _ rest => str_in needle rest
     end.

(** [finn_dt == DataType[key]]: a datatype is identified by its name. *)
Definition dt_is (finn_dt : DataType.t) (key : string) : bool :=
  String.eqb (DataType.name finn_dt) key.

Definition from_option {A} (o : option A) (d : A) : A :=
  match o with Some x => x | None => d end.

Section Generator.
Context {FR : FloatRounding} {NR : NumpyRandom} {PR : PyRandom}.
(** [DataType[key]]: the catalogue's lookup by name. *)
Variable DataType_getitem : string -> result DataType.t.

Definition int_array (size : list Z) (dt : np_dtype) (vs : list Z) : ndarray :=
  mk_ndarray size dt (map inject_Z vs).

(** Lines 227-256: the samples before the conversion to the container
    type. *)
Definition draw_tensor_values (finn_dt : DataType.t) (tensor_shape : list Z)
    (rmin rmax : option Q) (rng : RandomState) : result ndarray :=
  if dt_is finn_dt "BIPOLAR" then
    (* rng.randint(2, size=tensor_shape): samples of [0, 2), default dtype *)
    vs ← fst (randint 0 2 tensor_shape np_int64 rng);
    Ok (np_map (fun v => 2 * v - 1)%Q (int_array tensor_shape np_int64 vs))
  else if dt_is finn_dt "BINARY" then
    vs ← fst (randint 0 2 tensor_shape np_int64 rng);
    Ok (int_array tensor_shape np_int64 vs)
  else if str_in "INT" (DataType.name finn_dt) || dt_is finn_dt "TERNARY" then
    let rmin := from_option rmin (DataType.min finn_dt) in
    let rmax := from_option rmax (DataType.max finn_dt + 1)%Q in
    np_dt ← DataType.to_numpy_dt finn_dt;
    vs ← fst (randint rmin rmax tensor_shape np_dt rng);
    Ok (int_array tensor_shape np_dt vs)
  else if str_in "FIXED" (DataType.name finn_dt) then
    int_dt ← DataType_getitem ("INT" +:+ pretty (DataType.bitwidth finn_dt));
    let rmin := from_option rmin (DataType.min int_dt) in
    let rmax := from_option rmax (DataType.max int_dt + 1)%Q in
    np_dt ← DataType.to_numpy_dt int_dt;
    vs ← fst (randint rmin rmax tensor_shape np_dt rng);
    Ok (mk_ndarray tensor_shape np_float64
          (map (fun v => fl64 (inject_Z v * DataType.scale_factor finn_dt)%Q) vs))
  else if dt_is finn_dt "FLOAT32" || dt_is finn_dt "FLOAT16" then
    match rmin, rmax with
    | None, None =>
        vs ← fst (randn tensor_shape rng);
        Ok (mk_ndarray tensor_shape np_float64 vs)
    | _, _ =>
        let rmin := from_option rmin (- 1)%Q in
        let rmax := from_option rmax 1%Q in
        vs ← fst (uniform rmin rmax tensor_shape rng);
        Ok (mk_ndarray tensor_shape np_float64 vs)
    end
  else
    Raise (ValueError "Datatype is not supported, no tensor could be generated").

Definition gen_finn_dt_tensor (finn_dt : DataType.t) (tensor_shape : list Z)
    (rmin rmax : option Q) (seed : Z) (w : process_state)
  : result ndarray * process_state :=
  (rng ← RandomState_seed seed;
   tensor_values ← draw_tensor_values finn_dt tensor_shape rmin rmax rng;
   (* always use float type as container *)
   if dt_is finn_dt "FLOAT16"
   then Ok (astype_float16 tensor_values)
   else Ok (astype_float32 tensor_values),
   w).
End Generator.

(** ** [get_execution_error_thresh] *)

Section Sanitize.
(** Python's [float] applied to a string. *)
Variable float_of_string : string -> result Q.

(** The Python literal [1e-2]: the binary64 number nearest to 1/100,
    which is 5764607523034235 / 2^59. *)
Definition default_error_thresh : Q :=
  (5764607523034235 # 576460752303423488)%Q.

(** [os.environ] is a map from names to strings; only a missing name is
    caught. *)
Definition get_execution_error_thresh (environ : gmap string string) : result Q :=
  match environ !! "ERROR_THRESH" with
  | Some s => float_of_string s
  | None => Ok default_error_thresh
  end.

(** ** [sanitize_quant_values] *)

(** The part of [ModelWrapper] the function uses. *)
Record ModelWrapper : Type := mk_model {
  get_tensor_datatype : string -> DataType.t
}.

(** The caller's value store and the warnings issued so far, as
    (tensor name, datatype name) pairs. *)
Record exec_state : Type := mk_state {
  execution_context : gmap string ndarray;
  warnings : list (string * string)
}.

(** [np.round]: to the nearest integer, halves to the even one. *)
Definition np_round (q : Q) : Q :=
  let f := Qfloor q in
  match (q - inject_Z f ?= 1 # 2)%Q with
  | Lt => inject_Z f
  | Gt => inject_Z (f + 1)
  | Eq => if Z.even f then inject_Z f else inject_Z (f + 1)
  end.

(** Python's builtin [max] over a sequence. *)
Definition py_max (l : list Q) : result Q :=
  match l with
  | [] => Raise (ValueError "max() arg is an empty sequence")
  | x :: xs => Ok (fold_left Qmax_step xs x)
  end.

(** Lines 308-309 and 322-323: [dtype.allowed(values)], reduced with
    [.all()] when it is an array. *)
Definition all_allowed (dtype : DataType.t) (values : ndarray) : bool :=
  match DataType.allowed dtype values with
  | AllowedArray bs => forallb (fun b : bool => b) bs
  | AllowedScalar b => b
  end.

(** [np.abs(current_values - updated_values).flatten()] *)
Definition abs_differences (current_values updated_values : ndarray) : list Q :=
  map Qabs (zip_with Qminus (data current_values) (data updated_values)).

(** One iteration of the loop over [node_tensors]. *)
Definition sanitize_tensor (environ : gmap string string) (model : ModelWrapper)
    (check_values : bool) (tensor_name : string) (st : exec_state)
  : result unit * exec_state :=
  let dtype := get_tensor_datatype model tensor_name in
  (* non-integers don't need sanitization, skip to next *)
  if negb (DataType.is_integer dtype) then (Ok tt, st)
  else
    match execution_context st !! tensor_name with
    | None => (Raise (KeyError tensor_name), st)
    | Some current_values =>
        let is_allowed := all_allowed dtype current_values in
        let updated_values :=
          if is_allowed then current_values else np_map np_round current_values in
        let st :=
          if is_allowed then st
          else mk_state (execution_context st)
                 (warnings st ++ [(tensor_name, DataType.name dtype)]) in
        (* check if rounded values are not too far from original values *)
        match py_max (abs_differences current_values updated_values) with
        | Raise e => (Raise e, st)
        | Ok max_error =>
            match get_execution_error_thresh environ with
            | Raise e => (Raise e, st)
            | Ok thresh =>
                if Qle_bool max_error thresh then
                  if check_values && negb (all_allowed dtype updated_values)
                  then (Raise (ValuesNotRepresentable (DataType.name dtype) tensor_name), st)
                  else (Ok tt,
                        mk_state (<[tensor_name := updated_values]> (execution_context st))
                          (warnings st))
                else (Raise (RoundingErrorTooHigh (DataType.name dtype) tensor_name), st)
            end
        end
    end.

Fixpoint sanitize_loop (environ : gmap string string) (model : ModelWrapper)
    (check_values : bool) (node_tensors : list string) (st : exec_state)
  : result unit * exec_state :=
  match node_tensors with
  | [] => (Ok tt, st)
  | tensor_name :: rest =>
      match sanitize_tensor environ model check_values tensor_name st with
      | (Ok _, st') => sanitize_loop environ model check_values rest st'
      | (Raise e, st') => (Raise e, st')
      end
  end.

(** The function returns the store it was given, updated in place. *)
Definition sanitize_quant_values (environ : gmap string string) (model : ModelWrapper)
    (node_tensors : list string) (check_values : bool) (st : exec_state)
  : result (gmap string ndarray) * exec_state :=
  match sanitize_loop environ model check_values node_tensors st with
  | (Ok _, st') => (Ok (execution_context st'), st')
  | (Raise e, st') => (Raise e, st')
  end.
End Sanitize.

(** ** Definitions used to state the properties *)

Section DotProdSpec.
Variables (dt_a dt_b : DataType.t) (len : Z).

(** The two loops visit the four products in this order. *)
Definition visited_products : list Q :=
  [ (DataType.min dt_a * DataType.min dt_b * inject_Z len)%Q;
    (DataType.min dt_a * DataType.max dt_b * inject_Z len)%Q;
    (DataType.max dt_a * DataType.min dt_b * inject_Z len)%Q;
    (DataType.max dt_a * DataType.max dt_b * inject_Z len)%Q ].

Definition minmax_step (st : Q * Q) (prod : Q) : Q * Q :=
  (Qmin_step (fst st) prod, Qmax_step (snd st) prod).

(** The corner products, each scaled by the length. *)
Definition scaled_corners : list Q :=
  map (Qmult (inject_Z len)) (corner_products dt_a dt_b).
End DotProdSpec.

Definition Qsum (l : list Q) : Q := fold_right Qplus 0%Q l.

Section MatVecSpec.
Variables (matrix : ndarray) (vec_dt : DataType.t) (MW MH : nat).

(** [A[i, j]] of a (MW, MH) matrix stored in row-major order. *)
Definition entry (i j : nat) : Q := nth (i * MH + j) (data matrix) 0%Q.

Definition maximizer (a : Q) : Q :=
  if Qlt_le_dec 0 a then DataType.max vec_dt else DataType.min vec_dt.

Definition minimizer (a : Q) : Q :=
  if Qlt_le_dec 0 a then DataType.min vec_dt else DataType.max vec_dt.

(** Sum over [i] of [A[i,j] * (max if A[i,j] > 0 else min)]. *)
Definition column_upper (j : nat) : Q :=
  Qsum (map (fun i => entry i j * maximizer (entry i j))%Q (seq 0 MW)).

(** Sum over [i] of [A[i,j] * (min if A[i,j] > 0 else max)]. *)
Definition column_lower (j : nat) : Q :=
  Qsum (map (fun i => entry i j * minimizer (entry i j))%Q (seq 0 MW)).

(** Component [j] of [x . A]. *)
Definition vec_times_column (x : list Q) (j : nat) : Q :=
  Qsum (map (fun i => nth i x 0 * entry i j)%Q (seq 0 MW)).

(** A vector of length MW with every element in [min, max]. *)
Definition in_box (x : list Q) : Prop :=
  length x = MW
  /\ Forall (fun v => DataType.min vec_dt <= v /\ v <= DataType.max vec_dt)%Q x.

(** The terms of the two sums. *)
Definition upper_term (i j : nat) : Q := (entry i j * maximizer (entry i j))%Q.
Definition lower_term (i j : nat) : Q := (entry i j * minimizer (entry i j))%Q.
End MatVecSpec.

(** The significant bits of a floating-point type, and the least and the
    greatest power of two an integer of that many bits is scaled by. *)
Definition significand_bits (t : np_dtype) : Z :=
  match t with
  | np_float16 => 11
  | np_float32 => 24
  | _ => 53
  end.

Definition min_exponent (t : np_dtype) : Z :=
  match t with
  | np_float16 => -24
  | np_float32 => -149
  | _ => -1074
  end.

Definition max_exponent (t : np_dtype) : Z :=
  match t with
  | np_float16 => 5
  | np_float32 => 104
  | _ => 971
  end.

(** [q] is a number of type [t]: for a floating-point type a finite
    number of the format (subnormal ones included), for an integer type
    an integer within its bounds. *)
Definition fits (t : np_dtype) (q : Q) : Prop :=
  match iinfo t with
  | Some (lo, hi) => exists z, (q == inject_Z z)%Q /\ lo <= z <= hi
  | None =>
      exists z e, (q == inject_Z z * 2 ^ e)%Q
                  /\ Z.abs z < 2 ^ significand_bits t
                  /\ min_exponent t <= e <= max_exponent t
  end.

(** The exact sum of the terms an order adds. *)
Fixpoint exact_sum (term : nat -> Q) (o : sum_order) : Q :=
  match o with
  | Operand i => term i
  | Added l r => (exact_sum term l + exact_sum term r)%Q
  end.

(** Every operand and every sum formed on the way is a number of the
    type [t]. *)
Fixpoint sums_fit (t : np_dtype) (term : nat -> Q) (o : sum_order) : Prop :=
  match o with
  | Operand i => fits t (term i)
  | Added l r =>
      sums_fit t term l /\ sums_fit t term r
      /\ fits t (exact_sum term l + exact_sum term r)%Q
  end.

(** The order adds each of [n] operands once. *)
Definition adds_each_once (o : sum_order) (n : nat) : Prop :=
  Permutation (operands o) (seq 0 n).

(** The arithmetic on a (MW, MH) matrix is exact in type [t]: the bounds
    and the entries are numbers of the type, and so are all products and,
    in the type of the sum, all sums formed when the terms of a column are
    added in the order [o]. *)
Definition exact_arithmetic (matrix : ndarray) (vec_dt : DataType.t) (MW MH : nat)
    (t : np_dtype) (o : sum_order) : Prop :=
  fits t (DataType.min vec_dt) /\ fits t (DataType.max vec_dt)
  /\ (forall i j, (i < MW)%nat -> (j < MH)%nat ->
        fits t (entry matrix MH i j)
        /\ fits t (upper_term matrix vec_dt MH i j)
        /\ fits t (lower_term matrix vec_dt MH i j))
  /\ (forall j, (j < MH)%nat ->
        sums_fit (sum_dtype t) (fun i => upper_term matrix vec_dt MH i j) o
        /\ sums_fit (sum_dtype t) (fun i => lower_term matrix vec_dt MH i j) o).

Section MatVecComputed.
Context {FR : FloatRounding}.

(** The sum of the terms as NumPy computes it in the type [t], adding in
    the order [o]. *)
Fixpoint added_in_order (t : np_dtype) (term : nat -> Q) (o : sum_order) : Q :=
  match o with
  | Operand i => np_store t (term i)
  | Added l r =>
      np_store t (added_in_order t term l + added_in_order t term r)%Q
  end.

(** No sum formed on the way leaves the finite range of the type. *)
Fixpoint sums_finite (t : np_dtype) (term : nat -> Q) (o : sum_order) : Prop :=
  match o with
  | Operand i => True
  | Added l r =>
      sums_finite t term l /\ sums_finite t term r
      /\ finite_in t (added_in_order t term l + added_in_order t term r)%Q
  end.

Variables (matrix : ndarray) (MW MH : nat) (t : np_dtype) (sel : Q -> Q).
Variable o : sum_order.

(** The product NumPy computes for the entry (i, j) and the bound [sel]
    picks for it. *)
Definition computed_term (i j : nat) : Q :=
  np_store t (np_store t (entry matrix MH i j)
              * np_store t (sel (entry matrix MH i j)))%Q.

(** The sum of column [j] as NumPy computes it. *)
Definition computed_column (j : nat) : Q :=
  match MW with
  | O => 0%Q
  | S _ => added_in_order (sum_dtype t) (fun i => computed_term i j) o
  end.

(** No product and no sum of the computation leaves the finite range of
    its type. *)
Definition no_overflow : Prop :=
  forall j, (j < MH)%nat ->
    (forall i, (i < MW)%nat ->
       finite_in t (np_store t (entry matrix MH i j)
                    * np_store t (sel (entry matrix MH i j)))%Q)
    /\ sums_finite (sum_dtype t) (fun i => computed_term i j) o.
End MatVecComputed.

(** What is known of rounding to a floating-point type of [p] significant
    bits and least exponent [emin]: it keeps the order, commutes with
    negation and leaves the numbers of the type as they are.  Overflow to
    an infinity is not described: the roundings are applied to numbers
    within the finite range of the type only. *)
Record rounds_to (p emin : Z) (f : Q -> Q) : Prop := {
  rounds_monotone : forall x y, (x <= y)%Q -> (f x <= f y)%Q;
  rounds_opp : forall x, (f (- x) == - f x)%Q;
  rounds_exact : forall q z e,
      (q == inject_Z z * 2 ^ e)%Q -> Z.abs z < 2 ^ p -> emin <= e -> (f q == q)%Q
}.

Class FloatRoundingLaws (FR : FloatRounding) : Prop := {
  fl16_rounds : rounds_to 11 (-24) fl16;
  fl32_rounds : rounds_to 24 (-149) fl32;
  fl64_rounds : rounds_to 53 (-1074) fl64
}.

(** The arithmetic on a (MW, MH) matrix with the bounds of [vec_dt], the
    terms of a column added in the order [o], is done in the
    floating-point type [t] and stays within its finite range. *)
Definition finite_arithmetic {FR : FloatRounding} (matrix : ndarray)
    (vec_dt : DataType.t) (MW MH : nat) (t : np_dtype) (o : sum_order) : Prop :=
  is_float_dtype t = true
  /\ no_overflow matrix MW MH t (maximizer vec_dt) o
  /\ no_overflow matrix MW MH t (minimizer vec_dt) o.

(** [r] is the integer nearest to [x], the even one of two that are
    equally near. *)
Definition nearest_even (x r : Q) : Prop :=
  exists n : Z,
    r = inject_Z n
    /\ (forall z : Z, Qabs (x - inject_Z n) <= Qabs (x - inject_Z z))%Q
    /\ ((Qabs (x - inject_Z n) == 1 # 2)%Q -> Z.even n = true).

(** No integer is within [th] of [x]. *)
Definition far_from_integers (th x : Q) : Prop :=
  forall z : Z, (th < Qabs (x - inject_Z z))%Q.

Section SanitizeSpec.
Variable float_of_string : string -> result Q.
Variables (environ : gmap string string) (model : ModelWrapper) (check_values : bool).

(** A tensor the sanitizer has nothing to do for: its datatype is not
    integer-like, or it is stored, non-empty, with all values allowed. *)
Definition needs_no_rounding (ctx : gmap string ndarray) (tensor_name : string) : Prop :=
  let dtype := get_tensor_datatype model tensor_name in
  DataType.is_integer dtype = false
  \/ exists v, ctx !! tensor_name = Some v /\ data v <> []
               /\ all_allowed dtype v = true.

(** The state of a stored integer-typed tensor after a successful
    iteration: non-empty, with a non-negative tolerance in force, and
    either allowed or, without the strict check, equal to its rounding. *)
Definition settled (ctx : gmap string ndarray) (tensor_name : string) : Prop :=
  let dtype := get_tensor_datatype model tensor_name in
  DataType.is_integer dtype = true ->
  exists v th, ctx !! tensor_name = Some v /\ data v <> []
    /\ get_execution_error_thresh float_of_string environ = Ok th /\ (0 <= th)%Q
    /\ (all_allowed dtype v = true
        \/ (check_values = false /\ np_map np_round v = v)).
End SanitizeSpec.

(** The datatypes that reach the [randint(rmin, high=rmax)] branch of
    [gen_finn_dt_tensor]: integers and ternary, after bipolar and binary
    have been handled. *)
Definition integer_branch (finn_dt : DataType.t) : bool :=
  negb (dt_is finn_dt "BIPOLAR") && negb (dt_is finn_dt "BINARY")
  && (str_in "INT" (DataType.name finn_dt) || dt_is finn_dt "TERNARY").

(** Row [k] of partition [p] in an array of shape (n, per, C). *)
Definition partition_row (out : ndarray) (per C p k : nat) : list Q :=
  block C (data out) (p * per + k).

(** Row [i] of a matrix with C columns. *)
Definition matrix_row (matrix : ndarray) (C i : nat) : list Q :=
  block C (data matrix) i.

(** [t] is the least multiple of [factor] that is at least [x]. *)
Definition least_multiple_from (factor x t : Z) : Prop :=
  (factor | t) /\ x <= t /\ forall m, (factor | m) -> x <= m -> t <= m.

(** The target size of one dimension. *)
Definition target_size (t : Z) (dim : Z * Z) : Prop :=
  let '(x, factor) := dim in
  (factor = -1 /\ t = x)
  \/ (0 < factor /\ 0 < x /\ least_multiple_from factor x t).

(** The storage type of the float container of an input. *)
Definition container_dtype (x : array_like) : np_dtype :=
  match x with
  | PyNdarray a =>
      if np_dtype_eqb (dtype a) np_float32 || np_dtype_eqb (dtype a) np_float16
      then dtype a
      else np_float32
  | PyList _ => np_float32
  end.

(** ** Instances used to run the functions on examples *)

(** Modelled from the spec: the signed and unsigned integer kinds of the
    datatype catalogue (the catalogue is not part of this module); a value
    is allowed when it is an integer within the bounds. *)
Definition int_allowed (lo hi : Z) (a : ndarray) : allowed_result :=
  AllowedArray
    (map (fun x => Qle_bool (inject_Z lo) x && Qle_bool x (inject_Z hi) && Q_is_int x)
       (data a)).

Definition int_numpy_dt (is_signed : bool) (bits : Z) : result np_dtype :=
  if bits <=? 8 then Ok (if is_signed then np_int8 else np_uint8)
  else if bits <=? 16 then Ok (if is_signed then np_int16 else np_uint16)
  else if bits <=? 32 then Ok (if is_signed then np_int32 else np_uint32)
  else if bits <=? 64 then Ok (if is_signed then np_int64 else np_uint64)
  else Raise (ValueError "Unknown numpy dtype").

Definition IntType (is_signed : bool) (bits : Z) : DataType.t :=
  let lo := if is_signed then - 2 ^ (bits - 1) else 0 in
  let hi := if is_signed then 2 ^ (bits - 1) - 1 else 2 ^ bits - 1 in
  DataType.mk ((if is_signed then "INT" else "UINT") +:+ pretty bits)
    (inject_Z lo) (inject_Z hi) true is_signed bits 1%Q
    (int_allowed lo hi) (int_numpy_dt is_signed bits).

Definition INT8 : DataType.t := IntType true 8.
Definition INT32 : DataType.t := IntType true 32.
Definition UINT8 : DataType.t := IntType false 8.

(** Modelled from the spec: the bipolar and binary kinds of the catalogue,
    with values in {-1, +1} and {0, 1}. *)
Definition BIPOLAR : DataType.t :=
  DataType.mk "BIPOLAR" (- 1)%Q 1%Q true true 1 1%Q
    (fun a => AllowedArray (map (fun x => Qeq_bool x (- 1) || Qeq_bool x 1) (data a)))
    (Ok np_int8).

Definition BINARY : DataType.t :=
  DataType.mk "BINARY" 0%Q 1%Q true false 1 1%Q
    (fun a => AllowedArray (map (fun x => Qeq_bool x 0 || Qeq_bool x 1) (data a)))
    (Ok np_uint8).

(** Modelled from the spec: the 32-bit floating-point kind of the
    catalogue, which allows every value. *)
Definition FLOAT32 : DataType.t :=
  DataType.mk "FLOAT32" (- inject_Z (2 ^ 128))%Q (inject_Z (2 ^ 128)) false true 32 1%Q
    (fun _ => AllowedScalar true) (Ok np_float32).

Definition example_getitem (key : string) : result DataType.t :=
  if String.eqb key "INT8" then Ok INT8
  else if String.eqb key "INT32" then Ok INT32
  else if String.eqb key "UINT8" then Ok UINT8
  else if String.eqb key "BIPOLAR" then Ok BIPOLAR
  else if String.eqb key "BINARY" then Ok BINARY
  else if String.eqb key "FLOAT32" then Ok FLOAT32
  else Raise (KeyError key).

(** Rounding left out: every rational is taken as representable. *)
Definition exact_rounding : FloatRounding :=
  {| fl16 := fun q => q; fl32 := fun q => q; fl64 := fun q => q |}.

(** Rounding to the nearest integer, halves to the even one. *)
Definition round_half_even (q : Q) : Z :=
  let f := Qfloor q in
  match (q - inject_Z f ?= 1 # 2)%Q with
  | Lt => f
  | Gt => f + 1
  | Eq => if Z.even f then f else f + 1
  end.

(** The exponent [e] for which [|q| / 2^e] lies in [2^(p-1), 2^p). *)
Definition binade (p : Z) (q : Q) : Z :=
  let e0 := Z.log2 (Z.abs (Qnum q)) - Z.log2 (Zpos (Qden q)) - (p - 1) in
  if Qltb (Qabs q * 2 ^ (- e0))%Q (inject_Z (2 ^ (p - 1))) then e0 - 1 else e0.

(** The exponent of the last place of [q] in a format of [p] significant
    bits and least exponent [emin]. *)
Definition format_exponent (p emin : Z) (q : Q) : Z := Z.max (binade p q) emin.

(** The nearest number of the format, ties to the even significand;
    below [2^(emin + p - 1)] the numbers of the format are the multiples
    of [2^emin].  Numbers beyond the greatest finite one of a format, which
    IEEE 754 rounds to an infinity, are rounded as if the exponent had no
    upper bound. *)
Definition round_to_format (p emin : Z) (q : Q) : Q :=
  if Qeq_bool q 0 then 0%Q
  else
    let e := format_exponent p emin q in
    let m := round_half_even (Qabs q * 2 ^ (- e))%Q in
    if Qltb q 0 then Qred (- (inject_Z m * 2 ^ e)) else Qred (inject_Z m * 2 ^ e).

(** What [round_to_format] makes of the magnitude of a number. *)
Definition rounded_magnitude (p emin : Z) (q : Q) : Q :=
  (inject_Z (round_half_even (q * 2 ^ (- format_exponent p emin q)))
   * 2 ^ format_exponent p emin q)%Q.

(** IEEE 754 rounding to binary16, binary32 and binary64. *)
Definition binary_rounding : FloatRounding :=
  {| fl16 := round_to_format 11 (-24);
     fl32 := round_to_format 24 (-149);
     fl64 := round_to_format 53 (-1074) |}.

(** The element type of the bounds of the example datatypes: the integer
    kinds give Python integers (int64 in an array), FLOAT32 gives NumPy
    float32 scalars, the other kinds Python floats. *)
Definition example_bounds_dtype (dt : DataType.t) : np_dtype :=
  if DataType.is_integer dt then np_int64
  else if String.eqb (DataType.name dt) "FLOAT32" then np_float32
  else np_float64.

(** The operands [0 .. k] added one after the other. *)
Fixpoint one_after_the_other (k : nat) : sum_order :=
  match k with
  | O => Operand 0
  | S k' => Added (one_after_the_other k') (Operand k)
  end.

(** The order for the rows of a matrix stored row by row. *)
Definition row_by_row (n : nat) : sum_order := one_after_the_other (n - 1).

(** A float32 matrix with one large and one small entry in its column. *)
Definition large_and_small : ndarray :=
  mk_ndarray [2; 1] np_float32 [inject_Z (2 ^ 60); 1%Q].

(** A linear congruential generator behind the interface of
    [RandomState]. *)
Definition lcg_next (s : Z) : Z := (1103515245 * s + 12345) mod 2 ^ 31.

Fixpoint lcg_draws (n : nat) (s : Z) : list Z * Z :=
  match n with
  | O => ([], s)
  | S k => let s' := lcg_next s in
           let '(l, s'') := lcg_draws k s' in
           (s' / 2 ^ 16 :: l, s'')
  end.

Definition lcg_seed (seed : Z) : result Z :=
  if (0 <=? seed) && (seed <? 2 ^ 32) then Ok seed
  else Raise (ValueError "Seed must be between 0 and 2**32 - 1").

Definition lcg_count (size : list Z) : result nat :=
  if existsb (fun d => d <? 0) size
  then Raise (ValueError "negative dimensions are not allowed")
  else Ok (Z.to_nat (prod_list size)).

Definition lcg_randint (low high : Q) (size : list Z) (dt : np_dtype) (s : Z)
  : result (list Z) * Z :=
  if negb (Q_is_int low && Q_is_int high)
  then (Raise (TypeError "bounds must be integers"), s)
  else
    let lo := Qfloor low in
    let hi := Qfloor high in
    match iinfo dt with
    | None => (Raise (TypeError "Unsupported dtype for randint"), s)
    | Some (tmin, tmax) =>
        if (lo <? tmin) || (tmax + 1 <? hi)
        then (Raise (ValueError "bounds out of range for dtype"), s)
        else if hi <=? lo then (Raise (ValueError "low >= high"), s)
        else
          match lcg_count size with
          | Raise e => (Raise e, s)
          | Ok n =>
              let '(raw, s') := lcg_draws n s in
              (Ok (map (fun r => lo + r mod (hi - lo)) raw), s')
          end
    end.

Definition lcg_unit (r : Z) : Q := (inject_Z r / inject_Z (2 ^ 15))%Q.

Definition lcg_uniform (low high : Q) (size : list Z) (s : Z) : result (list Q) * Z :=
  match lcg_count size with
  | Raise e => (Raise e, s)
  | Ok n =>
      let '(raw, s') := lcg_draws n s in
      (Ok (map (fun r => low + (high - low) * lcg_unit r)%Q raw), s')
  end.

Definition lcg_random : NumpyRandom :=
  {| RandomState := Z;
     RandomState_seed := lcg_seed;
     randint := lcg_randint;
     randn := lcg_uniform (- 3) 3;
     uniform := lcg_uniform |}.

Definition lcg_py_random : PyRandom :=
  {| py_random_state := Z;
     py_random_choice := fun n s =>
       let s' := lcg_next s in (Z.to_nat ((s' / 2 ^ 16) mod Z.of_nat n), s') |}.

Definition example_process : @process_state lcg_random lcg_py_random :=
  @mk_process lcg_random lcg_py_random 1 1.

Definition gen_example (finn_dt : DataType.t) (tensor_shape : list Z)
    (rmin rmax : option Q) (seed : Z) : result ndarray :=
  fst (@gen_finn_dt_tensor exact_rounding lcg_random lcg_py_random example_getitem
         finn_dt tensor_shape rmin rmax seed example_process).

(** Example inputs. *)

Definition example_matrix : ndarray :=
  mk_ndarray [2; 2] np_float32 [1; - 2; 3; 4]%Q.

Definition example_rows : ndarray :=
  mk_ndarray [4; 2] np_float32 [1; 2; 3; 4; 5; 6; 7; 8]%Q.

Definition example_int_array : ndarray :=
  mk_ndarray [5; 3] np_int32 [1; 2; 3; 4; 5; 6; 7; 8; 9; 10; 11; 12; 13; 14; 15]%Q.

Definition example_nested : nested :=
  Lst [Lst [Num 1; Num 2]; Lst [Num 3; Num 4]]%Q.

Definition empty_rows : ndarray := mk_ndarray [0; 3] np_float32 [].


(** [float] on the strings the examples put in the environment. *)
Definition example_float_of_string (s : string) : result Q :=
  if String.eqb s "0.05" then Ok (5 # 100)%Q
  else if String.eqb s "-1" then Ok (- 1)%Q
  else Raise (ValueError "could not convert string to float").

(** Every tensor is INT8, except "scale", which is FLOAT32. *)
Definition example_model : ModelWrapper :=
  mk_model (fun tensor_name =>
    if String.eqb tensor_name "scale" then FLOAT32 else INT8).

Definition vector (dt : np_dtype) (values : list Q) : ndarray :=
  mk_ndarray [Z.of_nat (length values)] dt values.

(** "x" drifted off the integers by 0.004, "w" holds integers, "y" is off
    by one half, "big" has drifted and lies outside INT8. *)
Definition example_store : gmap string ndarray :=
  {[ "x" := vector np_float32 [1 + (4 # 1000); 2]%Q;
     "w" := vector np_float32 [1; 2]%Q;
     "y" := vector np_float32 [3 # 2]%Q;
     "big" := vector np_float32 [300 + (4 # 1000)]%Q;
     "scale" := vector np_float32 [1 # 3]%Q ]}.

Definition example_state : exec_state := mk_state example_store [].

Definition example_sanitize (node_tensors : list string) (check_values : bool)
    (st : exec_state) : result (gmap string ndarray) * exec_state :=
  sanitize_quant_values example_float_of_string ∅ example_model node_tensors
    check_values st.

(** The store after "big" has been rounded. *)
Definition rounded_store : gmap string ndarray :=
  <["big" := vector np_float32 [300%Q]]> example_store.

(** An environment that sets a negative tolerance. *)
Definition negative_tolerance : gmap string string := {[ "ERROR_THRESH" := "-1" ]}.

(** ** Further functions of [basic.py] *)

(** A call that returns a value or raises the bare [Exception] class or a
    builtin exception. *)
Inductive outcome (A : Type) : Type :=
  | Returns (a : A)
  | Exception (msg : string)
  | Raises (e : exn).
Arguments Returns {A} a.
Arguments Exception {A} msg.
Arguments Raises {A} e.

(** ** [is_finn_op] *)

(** [s.startswith(p)] *)
Definition startswith (s p : string) : bool := String.prefix p s.

Definition is_finn_op (op_type : string) : bool :=
  startswith op_type "finn"
  || startswith op_type "qonnx.custom_op"
  || startswith op_type "onnx.brevitas".

(** ** [get_by_name] and [remove_by_name]

    A container is a list of messages of some type; [getattr x field] is
    the value of a declared string field, and messages are compared by
    value. *)

Section ByName.
Context {A : Type} {A_eq_dec : EqDecision A}.
Variable getattr : A -> string -> string.

(** [[i for i, e in enumerate(names) if e == name]] *)
Definition matching_indices (names : list string) (name : string) : list nat :=
  map fst (List.filter (fun ie => String.eqb (snd ie) name)
             (combine (seq 0 (length names)) names)).

Definition get_by_name (container : list A) (name : string) (name_field : string)
  : outcome (option A) :=
  let names := map (fun x => getattr x name_field) container in
  let inds := matching_indices names name in
  if (1 <? length inds)%nat
  then Exception "Found multiple get_by_name matches, undefined behavior"
  else if (length inds =? 0)%nat then Returns None
  else
    let ind := nth 0 inds 0%nat in
    Returns (container !! ind).

(** [container.remove(item)]: the first element equal to [item] goes. *)
Fixpoint list_remove_first (item : A) (container : list A) : option (list A) :=
  match container with
  | [] => None
  | x :: rest =>
      if decide (x = item) then Some rest
      else option_map (cons x) (list_remove_first item rest)
  end.

(** The call returns nothing; the container is updated in place. *)
Definition remove_by_name (container : list A) (name : string) (name_field : string)
  : outcome unit * list A :=
  match get_by_name container name name_field with
  | Returns (Some item) =>
      match list_remove_first item container with
      | Some container' => (Returns tt, container')
      | None => (Raises (ValueError "list.remove(x): x not in list"), container)
      end
  | Returns None => (Returns tt, container)
  | Exception msg => (Exception msg, container)
  | Raises e => (Raises e, container)
  end.
End ByName.

(** ** [auto_pad_to_explicit_padding] *)

(** Nearest binary64 value of an integer (53 significant bits, ties to
    even). *)
Definition float64_of_Z (z : Z) : Z :=
  let a := Z.abs z in
  if a <? 2 ^ 53 then z
  else
    let e := Z.log2 a - 52 in
    let q := Z.shiftr a e in
    let r := a - Z.shiftl q e in
    let half := 2 ^ (e - 1) in
    let q' := if (half <? r) || ((r =? half) && Z.odd q) then q + 1 else q in
    Z.sgn z * Z.shiftl q' e.

(** [int(z / 2)] for an integer [z]: the true division is rounded to
    binary64 (halving is exact) and overflows from 2^1024 on; [int]
    truncates towards zero. *)
Definition int_of_half (z : Z) : outcome Z :=
  let f := float64_of_Z z in
  if 2 ^ 1025 <=? Z.abs f
  then Raises OverflowError
  else Returns (Z.quot f 2).

Definition auto_pad_to_explicit_padding (autopad_str : string)
    (idim_h idim_w k_h k_w stride_h stride_w n_dims : Z) : outcome (list Z) :=
  let pad_total_h := (stride_h - 1) * idim_h - stride_h + k_h in
  let pad_total_w := (stride_w - 1) * idim_w - stride_w + k_w in
  match int_of_half pad_total_h with
  | Returns pad_half_small_h =>
      match int_of_half pad_total_w with
      | Returns pad_half_small_w =>
          let pad_half_large_h := pad_total_h - pad_half_small_h in
          let pad_half_large_w := pad_total_w - pad_half_small_w in
          if String.eqb autopad_str "VALID"
          then Returns (repeat 0 (Z.to_nat (2 * n_dims)))
          else if String.eqb autopad_str "SAME_UPPER"
          then Returns [pad_half_small_h; pad_half_small_w;
                        pad_half_large_h; pad_half_large_w]
          else if String.eqb autopad_str "SAME_LOWER"
          then Returns [pad_half_large_h; pad_half_large_w;
                        pad_half_small_h; pad_half_small_w]
          else Exception ("Unsupported auto_pad: " +:+ autopad_str)
      | Exception msg => Exception msg
      | Raises e => Raises e
      end
  | Exception msg => Exception msg
  | Raises e => Raises e
  end.

(** An array whose elements fill its shape. *)
Definition wf_array (a : ndarray) : Prop :=
  Forall (fun d => 0 <= d) (shape a)
  /\ Z.of_nat (length (data a)) = prod_list (shape a).

(** Messages with a name and an operator type, as (name, op_type) pairs. *)
Definition node_getattr (x : string * string) (field : string) : string :=
  if String.eqb field "name" then fst x
  else if String.eqb field "op_type" then snd x
  else "".

Definition example_nodes : list (string * string) :=
  [("conv0", "Conv"); ("relu0", "Relu"); ("quant0", "Quant")].

(** The (before, after) pairs for padding amounts that fit in int32. *)
Definition pad_pairs (distr_pad : bool) (amounts : list Z) : list (Z * Z) :=
  if distr_pad
  then map (fun x => (x / 2, x - x / 2)) amounts
  else map (fun x => (0, x)) amounts.

(** Modelled from the spec: a signed fixed-point kind of the catalogue,
    8 bits of which 4 are fractional, so with the scale factor 2^-4. *)
Definition FIXED8_4 : DataType.t :=
  DataType.mk "FIXED<8,4>" (- 8)%Q (127 # 16)%Q false true 8 (1 # 16)%Q
    (fun a => AllowedArray
                (map (fun x => Qle_bool (- 8) x && Qle_bool x (127 # 16)
                               && Q_is_int (x * 16))%Q (data a)))
    (Ok np_float32).

(** * Properties *)

(** ** Shared lemmas *)

Local Open Scope Q_scope.

Lemma Qltb_true (x y : Q) : Qltb x y = true <-> x < y.
Proof.
  unfold Qltb. rewrite negb_true_iff. split.
  - intros H. apply Qnot_le_lt. intros Hle.
    apply Qle_bool_iff in Hle. congruence.
  - intros H. destruct (Qle_bool y x) eqn:E; [|reflexivity].
    apply Qle_bool_iff in E. exfalso. apply (Qlt_not_le _ _ H E).
Qed.

Lemma Qltb_false (x y : Q) : Qltb x y = false <-> y <= x.
Proof.
  unfold Qltb. rewrite negb_false_iff. apply Qle_bool_iff.
Qed.

Lemma Qmax_step_spec (m y : Q) :
  m <= Qmax_step m y /\ y <= Qmax_step m y
  /\ (Qmax_step m y = m \/ Qmax_step m y = y).
Proof.
  unfold Qmax_step. destruct (Qltb m y) eqn:E.
  - apply Qltb_true in E. repeat split; try lra. now right.
  - apply Qltb_false in E. repeat split; try lra. now left.
Qed.

Lemma Qmin_step_spec (m y : Q) :
  Qmin_step m y <= m /\ Qmin_step m y <= y
  /\ (Qmin_step m y = m \/ Qmin_step m y = y).
Proof.
  unfold Qmin_step. destruct (Qltb y m) eqn:E.
  - apply Qltb_true in E. repeat split; try lra. now right.
  - apply Qltb_false in E. repeat split; try lra. now left.
Qed.

(** A running maximum is an upper bound of its start value and of every
    element, and is one of them. *)
Lemma fold_Qmax_step (l : list Q) (x : Q) :
  let m := fold_left Qmax_step l x in
  x <= m /\ Forall (fun y => y <= m) l /\ (m = x \/ In m l).
Proof.
  revert x. induction l as [|y l IH]; intros x; simpl.
  - repeat split; [lra | constructor | now left].
  - destruct (IH (Qmax_step x y)) as (H1 & H2 & H3).
    destruct (Qmax_step_spec x y) as (Hx & Hy & Hc).
    repeat split.
    + lra.
    + constructor; [lra | exact H2].
    + destruct H3 as [H3|H3]; [|now right; right].
      destruct Hc as [Hc|Hc]; rewrite H3, Hc; [now left | now right; left].
Qed.

Lemma fold_Qmin_step (l : list Q) (x : Q) :
  let m := fold_left Qmin_step l x in
  m <= x /\ Forall (fun y => m <= y) l /\ (m = x \/ In m l).
Proof.
  revert x. induction l as [|y l IH]; intros x; simpl.
  - repeat split; [lra | constructor | now left].
  - destruct (IH (Qmin_step x y)) as (H1 & H2 & H3).
    destruct (Qmin_step_spec x y) as (Hx & Hy & Hc).
    repeat split.
    + lra.
    + constructor; [lra | exact H2].
    + destruct H3 as [H3|H3]; [|now right; right].
      destruct Hc as [Hc|Hc]; rewrite H3, Hc; [now left | now right; left].
Qed.

Lemma is_min_of_unique (l : list Q) (m m' : Q) :
  is_min_of l m -> is_min_of l m' -> m == m'.
Proof.
  intros [E1 F1] [E2 F2].
  apply List.Exists_exists in E1 as (x & Hx & Ex).
  apply List.Exists_exists in E2 as (y & Hy & Ey).
  rewrite List.Forall_forall in F1, F2.
  pose proof (F1 y Hy). pose proof (F2 x Hx). lra.
Qed.

(** ** Rounding to a binary floating-point format *)

Lemma pow2_pos (e : Z) : 0 < 2 ^ e.
Proof. apply Qpower_0_lt. reflexivity. Qed.

Lemma pow2_add (a b : Z) : 2 ^ (a + b) == 2 ^ a * 2 ^ b.
Proof. apply Qpower_plus. discriminate. Qed.

Lemma pow2_cancel (e : Z) : 2 ^ (- e) * 2 ^ e == 1.
Proof. rewrite <- pow2_add. replace (- e + e)%Z with 0%Z by lia. reflexivity. Qed.

Lemma pow2_le (a b : Z) : (a <= b)%Z -> 2 ^ a <= 2 ^ b.
Proof. intros H. apply Qpower_le_compat_l; [exact H | discriminate]. Qed.

Lemma pow2_lt (a b : Z) : (a < b)%Z -> 2 ^ a < 2 ^ b.
Proof. intros H. apply Qpower_lt_compat_l; [exact H | reflexivity]. Qed.

Lemma pow2_lt_inv (a b : Z) : 2 ^ a < 2 ^ b -> (a < b)%Z.
Proof. intros H. apply (Qpower_lt_compat_l_inv 2); [exact H | reflexivity]. Qed.

Lemma pow2_inject (n : Z) : (0 <= n)%Z -> inject_Z (2 ^ n) == 2 ^ n.
Proof. exact (Zpower_Qpower 2 n). Qed.

Lemma pow2_succ (e : Z) : 2 ^ (e + 1) == 2 * 2 ^ e.
Proof. rewrite pow2_add. change (2 ^ 1) with 2. ring. Qed.

(** A positive fraction between two powers of two. *)
Lemma fraction_between_powers (N : Z) (d : positive) :
  (0 < N)%Z ->
  2 ^ (Z.log2 N - Z.log2 (Zpos d) - 1) < N # d
  /\ N # d < 2 ^ (Z.log2 N - Z.log2 (Zpos d) + 1).
Proof.
  intros HN.
  pose proof (Z.log2_spec N HN) as [Hn1 Hn2].
  pose proof (Z.log2_spec (Zpos d) ltac:(lia)) as [Hd1 Hd2].
  pose proof (Z.log2_nonneg N) as Hln. pose proof (Z.log2_nonneg (Zpos d)) as Hld.
  set (ln := Z.log2 N) in *. set (ld := Z.log2 (Zpos d)) in *.
  rewrite Zle_Qle, pow2_inject in Hn1, Hd1 by lia.
  rewrite Zlt_Qlt, pow2_inject in Hn2, Hd2 by lia.
  assert (Ha : (N # d) * inject_Z (Zpos d) == inject_Z N).
  { rewrite Qmake_Qdiv. field. discriminate. }
  assert (Hpos : 0 < N # d) by (unfold Qlt; simpl; lia).
  pose proof (pow2_pos ld) as Pld. pose proof (pow2_pos (- ld)) as Pnld.
  pose proof (pow2_pos (- (ld + 1))) as Pnld1.
  split.
  - (* a * 2^(ld+1) > 2^ln *)
    assert (H : 2 ^ ln < (N # d) * 2 ^ Z.succ ld) by nra.
    assert (E : 2 ^ (ln - ld - 1) == 2 ^ ln * 2 ^ (- Z.succ ld)).
    { replace (ln - ld - 1)%Z with (ln + - Z.succ ld)%Z by lia. apply pow2_add. }
    rewrite E.
    assert (E' : N # d == (N # d) * 2 ^ Z.succ ld * 2 ^ (- Z.succ ld)).
    { rewrite <- Qmult_assoc, (Qmult_comm (2 ^ Z.succ ld)), pow2_cancel. ring. }
    rewrite E' at 1.
    apply Qmult_lt_compat_r; [apply pow2_pos | exact H].
  - assert (H : (N # d) * 2 ^ ld < 2 ^ Z.succ ln) by nra.
    assert (E : 2 ^ (ln - ld + 1) == 2 ^ Z.succ ln * 2 ^ (- ld)).
    { replace (ln - ld + 1)%Z with (Z.succ ln + - ld)%Z by lia. apply pow2_add. }
    rewrite E.
    assert (E' : N # d == (N # d) * 2 ^ ld * 2 ^ (- ld)).
    { rewrite <- Qmult_assoc, (Qmult_comm (2 ^ ld)), pow2_cancel. ring. }
    rewrite E' at 1.
    apply Qmult_lt_compat_r; [apply pow2_pos | exact H].
Qed.

(** The chosen exponent brings the magnitude into [2^(p-1), 2^p). *)
Lemma binade_spec (p : Z) (q : Q) :
  (1 <= p)%Z -> ~ q == 0 ->
  2 ^ (p - 1) <= Qabs q * 2 ^ (- binade p q)
  /\ Qabs q * 2 ^ (- binade p q) < 2 ^ p.
Proof.
  intros Hp Hq. unfold binade.
  destruct q as [n d]. cbn [Qnum Qden]. change (Qabs (n # d)) with (Z.abs n # d).
  assert (HN : (0 < Z.abs n)%Z).
  { unfold Qeq in Hq. simpl in Hq. lia. }
  destruct (fraction_between_powers (Z.abs n) d HN) as [Hlo Hhi].
  set (a := Z.abs n # d) in *.
  set (l := (Z.log2 (Z.abs n) - Z.log2 (Zpos d))%Z) in *.
  set (e0 := (l - (p - 1))%Z).
  assert (Hx1 : 2 ^ (p - 2) < a * 2 ^ (- e0)).
  { replace (p - 2)%Z with ((l - 1) + - e0)%Z by lia. rewrite pow2_add.
    apply Qmult_lt_compat_r; [apply pow2_pos | exact Hlo]. }
  assert (Hx2 : a * 2 ^ (- e0) < 2 ^ p).
  { apply Qlt_le_trans with (2 ^ (l + 1) * 2 ^ (- e0)).
    - apply Qmult_lt_compat_r; [apply pow2_pos | exact Hhi].
    - rewrite <- pow2_add. apply pow2_le. unfold e0. lia. }
  assert (E1 : 2 ^ (p - 1) == 2 * 2 ^ (p - 2)).
  { replace (p - 1)%Z with (p - 2 + 1)%Z by lia. apply pow2_succ. }
  assert (E2 : 2 ^ p == 2 * 2 ^ (p - 1)).
  { rewrite <- pow2_succ. replace (p - 1 + 1)%Z with p by lia. reflexivity. }
  destruct (Qltb (a * 2 ^ (- e0)) (inject_Z (2 ^ (p - 1)))) eqn:C.
  - apply Qltb_true in C. rewrite pow2_inject in C by lia.
    replace (- (e0 - 1))%Z with (- e0 + 1)%Z by lia. rewrite pow2_succ.
    set (x := a * 2 ^ (- e0)) in *.
    assert (E : a * (2 * 2 ^ (- e0)) == 2 * x) by (unfold x; ring).
    rewrite E. split; lra.
  - apply Qltb_false in C. rewrite pow2_inject in C by lia.
    split; [exact C | exact Hx2].
Qed.

(** The exponent is determined by the magnitude and grows with it. *)
Lemma binade_monotone (p : Z) (a b : Q) (ea eb : Z) :
  0 < a -> a <= b ->
  2 ^ (p - 1) <= a * 2 ^ (- ea) -> b * 2 ^ (- eb) < 2 ^ p -> (ea <= eb)%Z.
Proof.
  intros Ha Hab H1 H2.
  destruct (Z.le_gt_cases ea eb) as [H|H]; [exact H | exfalso].
  (* a >= 2^(p-1+ea) >= 2^(p+eb) > b *)
  assert (Ea : a == a * 2 ^ (- ea) * 2 ^ ea).
  { rewrite <- Qmult_assoc, pow2_cancel. ring. }
  assert (Eb : b == b * 2 ^ (- eb) * 2 ^ eb).
  { rewrite <- Qmult_assoc, pow2_cancel. ring. }
  assert (Hlow : 2 ^ (p - 1 + ea) <= a).
  { rewrite Ea, pow2_add. apply Qmult_le_compat_r; [exact H1|].
    apply Qlt_le_weak, pow2_pos. }
  assert (Hupp : b < 2 ^ (p + eb)).
  { rewrite Eb, pow2_add. apply Qmult_lt_compat_r; [apply pow2_pos | exact H2]. }
  pose proof (pow2_le (p + eb) (p - 1 + ea) ltac:(lia)). lra.
Qed.

(** *** Rounding to the nearest integer *)

Lemma round_half_even_comp (x y : Q) :
  x == y -> round_half_even x = round_half_even y.
Proof.
  intros E. unfold round_half_even.
  rewrite (Qfloor_comp _ _ E).
  assert (E' : x - inject_Z (Qfloor y) == y - inject_Z (Qfloor y)) by (rewrite E; reflexivity).
  rewrite (Qcompare_comp _ _ E' (1 # 2) (1 # 2) (Qeq_refl _)). reflexivity.
Qed.

Lemma round_half_even_Z (z : Z) : round_half_even (inject_Z z) = z.
Proof.
  unfold round_half_even. rewrite Qfloor_Z.
  assert (H : (inject_Z z - inject_Z z ?= 1 # 2) = Lt).
  { rewrite <- Qlt_alt. lra. }
  rewrite H. reflexivity.
Qed.

Lemma round_half_even_cases (x : Q) :
  (round_half_even x = Qfloor x /\ x - inject_Z (Qfloor x) <= 1 # 2
   /\ (x - inject_Z (Qfloor x) == 1 # 2 -> Z.even (Qfloor x) = true))
  \/ (round_half_even x = (Qfloor x + 1)%Z /\ 1 # 2 <= x - inject_Z (Qfloor x)
      /\ (x - inject_Z (Qfloor x) == 1 # 2 -> Z.even (Qfloor x) = false)).
Proof.
  unfold round_half_even.
  destruct (x - inject_Z (Qfloor x) ?= 1 # 2) eqn:C.
  - apply Qeq_alt in C. destruct (Z.even (Qfloor x)) eqn:Ev.
    + left. split; [reflexivity|]. split; [lra | auto].
    + right. split; [reflexivity|]. split; [lra | auto].
  - apply Qlt_alt in C. left. split; [reflexivity|]. split; [lra|].
    intros E. lra.
  - apply Qgt_alt in C. right. split; [reflexivity|]. split; [lra|].
    intros E. lra.
Qed.

Lemma round_half_even_monotone (x y : Q) :
  x <= y -> (round_half_even x <= round_half_even y)%Z.
Proof.
  intros Hxy.
  pose proof (Qfloor_resp_le _ _ Hxy) as Hf.
  destruct (round_half_even_cases x) as [(-> & Hx & Ex)|(-> & Hx & Ex)];
    destruct (round_half_even_cases y) as [(-> & Hy & Ey)|(-> & Hy & Ey)];
    try lia.
  destruct (Z.eq_dec (Qfloor x) (Qfloor y)) as [E|N]; [|lia].
  exfalso. rewrite E in Hx, Ex.
  assert (E1 : y - inject_Z (Qfloor y) == 1 # 2) by lra.
  assert (E2 : x - inject_Z (Qfloor y) == 1 # 2) by lra.
  specialize (Ex E2). specialize (Ey E1). congruence.
Qed.

Lemma round_half_even_nonneg (x : Q) : 0 <= x -> (0 <= round_half_even x)%Z.
Proof.
  intros H. rewrite <- (round_half_even_Z 0). now apply round_half_even_monotone.
Qed.

(** *** The exponent of the last place *)

Section FormatRounding.
Variables (p emin : Z).
Hypothesis Hp : (1 <= p)%Z.

Lemma format_exponent_spec (q : Q) :
  0 < q ->
  let e := format_exponent p emin q in
  (emin <= e)%Z
  /\ q * 2 ^ (- e) < 2 ^ p
  /\ (e = emin \/ 2 ^ (p - 1) <= q * 2 ^ (- e)).
Proof.
  intros Hq e.
  assert (Hne : ~ q == 0) by lra.
  destruct (binade_spec p q Hp Hne) as [Hlo Hhi].
  assert (Ea : Qabs q == q) by (apply Qabs_pos; lra).
  rewrite Ea in Hlo, Hhi.
  unfold e, format_exponent.
  destruct (Z.max_spec (binade p q) emin) as [[Hlt ->]|[Hge ->]].
  - split; [lia|]. split; [|now left].
    apply Qle_lt_trans with (q * 2 ^ (- binade p q)); [|exact Hhi].
    apply Qmult_le_l; [exact Hq|]. apply pow2_le. lia.
  - split; [lia|]. split; [exact Hhi | now right].
Qed.

(** The exponent grows with the number. *)
Lemma format_exponent_le (a b : Q) (ea eb : Z) :
  0 < a -> a <= b ->
  (ea = emin \/ 2 ^ (p - 1) <= a * 2 ^ (- ea)) ->
  (emin <= eb)%Z -> b * 2 ^ (- eb) < 2 ^ p -> (ea <= eb)%Z.
Proof.
  intros Ha Hab [->|Hlo] Hmin Hhi; [exact Hmin|].
  eapply binade_monotone; eassumption.
Qed.

Lemma format_exponent_comp (a b : Q) :
  0 < a -> a == b -> format_exponent p emin a = format_exponent p emin b.
Proof.
  intros Ha E.
  assert (Hb : 0 < b) by lra.
  destruct (format_exponent_spec a Ha) as (A1 & A2 & A3).
  destruct (format_exponent_spec b Hb) as (B1 & B2 & B3).
  apply Z.le_antisymm.
  - apply (format_exponent_le a b); try assumption. lra.
  - apply (format_exponent_le b a); try assumption. lra.
Qed.

Lemma rounded_magnitude_comp (a b : Q) :
  0 < a -> a == b -> rounded_magnitude p emin a == rounded_magnitude p emin b.
Proof.
  intros Ha E. unfold rounded_magnitude.
  rewrite (format_exponent_comp a b Ha E).
  rewrite (round_half_even_comp (a * 2 ^ (- format_exponent p emin b))
             (b * 2 ^ (- format_exponent p emin b))); [reflexivity|].
  rewrite E. reflexivity.
Qed.

Lemma round_to_format_zero (q : Q) : q == 0 -> round_to_format p emin q = 0.
Proof.
  intros E. unfold round_to_format.
  apply Qeq_bool_iff in E. rewrite E. reflexivity.
Qed.

Lemma round_to_format_pos (q : Q) :
  0 < q -> round_to_format p emin q == rounded_magnitude p emin q.
Proof.
  intros Hq. unfold round_to_format.
  destruct (Qeq_bool q 0) eqn:E0.
  { apply Qeq_bool_iff in E0. lra. }
  destruct (Qltb q 0) eqn:E1.
  { apply Qltb_true in E1. lra. }
  rewrite Qred_correct. unfold rounded_magnitude.
  rewrite (round_half_even_comp (Qabs q * 2 ^ (- format_exponent p emin q))
             (q * 2 ^ (- format_exponent p emin q))); [reflexivity|].
  rewrite Qabs_pos by lra. reflexivity.
Qed.

Lemma format_exponent_opp (q : Q) :
  format_exponent p emin (- q) = format_exponent p emin q.
Proof.
  unfold format_exponent, binade. destruct q as [n d].
  unfold Qopp, Qabs. cbn [Qnum Qden]. rewrite !Z.abs_opp. reflexivity.
Qed.

Lemma round_to_format_neg (q : Q) :
  q < 0 -> round_to_format p emin q == - rounded_magnitude p emin (- q).
Proof.
  intros Hq. unfold round_to_format.
  destruct (Qeq_bool q 0) eqn:E0.
  { apply Qeq_bool_iff in E0. lra. }
  destruct (Qltb q 0) eqn:E1.
  2:{ apply Qltb_false in E1. lra. }
  rewrite Qred_correct. unfold rounded_magnitude.
  rewrite format_exponent_opp.
  rewrite (round_half_even_comp (Qabs q * 2 ^ (- format_exponent p emin q))
             (- q * 2 ^ (- format_exponent p emin q))); [reflexivity|].
  rewrite Qabs_neg by lra. reflexivity.
Qed.

Lemma rounded_magnitude_nonneg (q : Q) : 0 < q -> 0 <= rounded_magnitude p emin q.
Proof.
  intros Hq. unfold rounded_magnitude.
  apply Qmult_le_0_compat; [|apply Qlt_le_weak, pow2_pos].
  change 0 with (inject_Z 0). rewrite <- Zle_Qle.
  apply round_half_even_nonneg.
  apply Qmult_le_0_compat; [lra | apply Qlt_le_weak, pow2_pos].
Qed.

Lemma rounded_magnitude_monotone (a b : Q) :
  0 < a -> a <= b -> rounded_magnitude p emin a <= rounded_magnitude p emin b.
Proof.
  intros Ha Hab. assert (Hb : 0 < b) by lra.
  destruct (format_exponent_spec a Ha) as (A1 & A2 & A3).
  destruct (format_exponent_spec b Hb) as (B1 & B2 & B3).
  pose proof (format_exponent_le a b _ _ Ha Hab A3 B1 B2) as Hle.
  unfold rounded_magnitude.
  set (ea := format_exponent p emin a) in *.
  set (eb := format_exponent p emin b) in *.
  destruct (Z.eq_dec ea eb) as [E|N].
  - rewrite E. apply Qmult_le_compat_r; [|apply Qlt_le_weak, pow2_pos].
    rewrite <- Zle_Qle. apply round_half_even_monotone.
    apply Qmult_le_compat_r; [exact Hab | apply Qlt_le_weak, pow2_pos].
  - assert (Hlt : (ea < eb)%Z) by lia.
    destruct B3 as [B3|B3]; [lia|].
    (* the rounded significand of [a] is at most 2^p *)
    assert (Ua : inject_Z (round_half_even (a * 2 ^ (- ea))) <= 2 ^ p).
    { rewrite <- (pow2_inject p) by lia. rewrite <- Zle_Qle.
      rewrite <- (round_half_even_Z (2 ^ p)).
      apply round_half_even_monotone. rewrite (pow2_inject p) by lia. lra. }
    assert (Lb : 2 ^ (p - 1) <= inject_Z (round_half_even (b * 2 ^ (- eb)))).
    { rewrite <- (pow2_inject (p - 1)) by lia. rewrite <- Zle_Qle.
      rewrite <- (round_half_even_Z (2 ^ (p - 1))).
      apply round_half_even_monotone. rewrite (pow2_inject (p - 1)) by lia.
      exact B3. }
    apply Qle_trans with (2 ^ p * 2 ^ ea).
    { apply Qmult_le_compat_r; [exact Ua | apply Qlt_le_weak, pow2_pos]. }
    apply Qle_trans with (2 ^ (p - 1) * 2 ^ eb).
    { rewrite <- !pow2_add. apply pow2_le. lia. }
    apply Qmult_le_compat_r; [exact Lb | apply Qlt_le_weak, pow2_pos].
Qed.

Lemma rounded_magnitude_exact (q : Q) (z e : Z) :
  0 < q -> q == inject_Z z * 2 ^ e -> (Z.abs z < 2 ^ p)%Z -> (emin <= e)%Z ->
  rounded_magnitude p emin q == q.
Proof.
  intros Hq E Hz He.
  destruct (format_exponent_spec q Hq) as (A1 & A2 & A3).
  unfold rounded_magnitude. set (f := format_exponent p emin q) in *.
  assert (Hzpos : (0 < z)%Z).
  { destruct (Z.lt_trichotomy z 0) as [H|[H|H]]; [exfalso|exfalso|exact H].
    - assert (inject_Z z < 0) by (change 0 with (inject_Z 0); now rewrite <- Zlt_Qlt).
      pose proof (pow2_pos e). nra.
    - subst z. change (inject_Z 0) with 0 in E. lra. }
  assert (Hfe : (f <= e)%Z).
  { destruct (Z.le_gt_cases f e) as [H|H]; [exact H | exfalso].
    destruct A3 as [A3|A3]; [lia|].
    assert (Hx : q * 2 ^ (- f) == inject_Z z * 2 ^ (e - f)).
    { rewrite E, <- Qmult_assoc, <- pow2_add.
      replace (e + - f)%Z with (e - f)%Z by lia. reflexivity. }
    rewrite Hx in A3.
    assert (Hh : 2 ^ (e - f) <= 2 ^ (-1)) by (apply pow2_le; lia).
    assert (Hz' : inject_Z z < 2 ^ p).
    { rewrite <- (pow2_inject p) by lia. rewrite <- Zlt_Qlt. lia. }
    assert (E2 : 2 ^ p * 2 ^ (-1) == 2 ^ (p - 1)).
    { rewrite <- pow2_add. replace (p + -1)%Z with (p - 1)%Z by lia. reflexivity. }
    assert (Hzq : 0 < inject_Z z) by (change 0 with (inject_Z 0); now rewrite <- Zlt_Qlt).
    pose proof (pow2_pos (e - f)). pose proof (pow2_pos (-1)).
    assert (inject_Z z * 2 ^ (e - f) <= inject_Z z * 2 ^ (-1)).
    { apply Qmult_le_l; assumption. }
    assert (inject_Z z * 2 ^ (-1) < 2 ^ p * 2 ^ (-1)).
    { apply Qmult_lt_compat_r; assumption. }
    lra. }
  assert (Hx : q * 2 ^ (- f) == inject_Z (z * 2 ^ (e - f))).
  { rewrite inject_Z_mult, (pow2_inject (e - f)) by lia.
    rewrite E, <- Qmult_assoc, <- pow2_add.
    replace (e + - f)%Z with (e - f)%Z by lia. reflexivity. }
  rewrite (round_half_even_comp _ _ Hx), round_half_even_Z, <- Hx.
  rewrite <- Qmult_assoc, pow2_cancel. ring.
Qed.

Theorem round_to_format_laws : rounds_to p emin (round_to_format p emin).
Proof.
  assert (Hopp : forall x, round_to_format p emin (- x) == - round_to_format p emin x).
  { intros x. destruct (Q_dec x 0) as [[H|H]|H].
    - rewrite (round_to_format_pos (- x)) by lra.
      rewrite (round_to_format_neg x H). ring.
    - rewrite (round_to_format_neg (- x)) by lra.
      rewrite (round_to_format_pos x H).
      rewrite (rounded_magnitude_comp (- - x) x); [reflexivity | lra | ring].
    - rewrite (round_to_format_zero x H).
      rewrite (round_to_format_zero (- x)) by lra. reflexivity. }
  assert (Hsign : forall x, 0 <= x -> 0 <= round_to_format p emin x).
  { intros x Hx. destruct (Qle_lt_or_eq _ _ Hx) as [H|H].
    - rewrite (round_to_format_pos x H). now apply rounded_magnitude_nonneg.
    - rewrite (round_to_format_zero x) by lra. lra. }
  assert (Hmono_pos : forall x y, 0 < x -> x <= y ->
            round_to_format p emin x <= round_to_format p emin y).
  { intros x y Hx Hxy.
    rewrite (round_to_format_pos x Hx), (round_to_format_pos y) by lra.
    now apply rounded_magnitude_monotone. }
  split.
  - intros x y Hxy.
    destruct (Qlt_le_dec 0 x) as [Hx|Hx]; [now apply Hmono_pos|].
    destruct (Qlt_le_dec y 0) as [Hy|Hy].
    + (* both negative *)
      assert (H : round_to_format p emin (- y) <= round_to_format p emin (- x)).
      { apply Hmono_pos; lra. }
      rewrite !Hopp in H. lra.
    + assert (H1 : 0 <= round_to_format p emin (- x)) by (apply Hsign; lra).
      rewrite Hopp in H1. pose proof (Hsign y Hy). lra.
  - exact Hopp.
  - intros q z e E Hz He.
    destruct (Q_dec q 0) as [[H|H]|H].
    + assert (E' : - q == inject_Z (- z) * 2 ^ e).
      { rewrite inject_Z_opp, E. ring. }
      assert (Hq : round_to_format p emin (- q) == - q).
      { rewrite round_to_format_pos by lra.
        apply (rounded_magnitude_exact (- q) (- z) e); try assumption; [lra | lia]. }
      rewrite Hopp in Hq. lra.
    + rewrite round_to_format_pos by exact H.
      now apply (rounded_magnitude_exact q z e).
    + rewrite (round_to_format_zero q H). lra.
Qed.
End FormatRounding.

Lemma binary_rounding_laws : FloatRoundingLaws binary_rounding.
Proof. split; apply round_to_format_laws; lia. Qed.

Lemma exact_rounding_laws : FloatRoundingLaws exact_rounding.
Proof.
  split; (split; cbn; [intros x y H; exact H | intros x; reflexivity
                      | intros q z e _ _ _; reflexivity]).
Qed.

(** ** [calculate_signed_dot_prod_range] *)

Lemma dot_prod_loops_unfold (dt_a dt_b : DataType.t) (len : Z) (st : Q * Q) :
  fold_left (dot_prod_outer dt_b len) [DataType.min dt_a; DataType.max dt_a] st
  = fold_left minmax_step (visited_products dt_a dt_b len) st.
Proof. reflexivity. Qed.

Lemma fold_minmax_step (l : list Q) (st : Q * Q) :
  fold_left minmax_step l st
  = (fold_left Qmin_step l (fst st), fold_left Qmax_step l (snd st)).
Proof.
  revert st. induction l as [|p l IH]; intros [m M]; simpl; [reflexivity|].
  rewrite IH. reflexivity.
Qed.

Lemma Exists_Qeq_Forall2 (l l' : list Q) (m : Q) :
  Forall2 Qeq l l' -> Exists (fun x => x == m) l -> Exists (fun x => x == m) l'.
Proof.
  induction 1 as [|x y l l' Hxy HF IH]; intros HE; inversion HE; subst.
  - left. lra.
  - right. auto.
Qed.

Lemma is_min_of_Forall2 (l l' : list Q) (m : Q) :
  Forall2 Qeq l l' -> is_min_of l m -> is_min_of l' m.
Proof.
  intros HF [HE HA]. split; [eapply Exists_Qeq_Forall2; eassumption|].
  clear HE. induction HF as [|x y l l' Hxy HF IH]; [constructor|].
  inversion HA; subst. constructor; [lra|auto].
Qed.

Lemma is_max_of_Forall2 (l l' : list Q) (m : Q) :
  Forall2 Qeq l l' -> is_max_of l m -> is_max_of l' m.
Proof.
  intros HF [HE HA]. split; [eapply Exists_Qeq_Forall2; eassumption|].
  clear HE. induction HF as [|x y l l' Hxy HF IH]; [constructor|].
  inversion HA; subst. constructor; [lra|auto].
Qed.

Lemma In_Exists_Qeq (l : list Q) (m : Q) : In m l -> Exists (fun x => x == m) l.
Proof. intros H. apply List.Exists_exists. exists m. split; [exact H | reflexivity]. Qed.

Lemma visited_scaled_corners (dt_a dt_b : DataType.t) (len : Z) :
  Forall2 Qeq (visited_products dt_a dt_b len) (scaled_corners dt_a dt_b len).
Proof.
  unfold visited_products, scaled_corners, corner_products; simpl.
  repeat constructor; ring.
Qed.

(** Swapping the operands visits the same products, the two middle ones
    in the other order. *)
Lemma visited_products_swap (dt_a dt_b : DataType.t) (len : Z) :
  exists l, Forall2 Qeq (visited_products dt_b dt_a len) l
            /\ Permutation l (visited_products dt_a dt_b len).
Proof.
  exists [ DataType.min dt_a * DataType.min dt_b * inject_Z len;
           DataType.max dt_a * DataType.min dt_b * inject_Z len;
           DataType.min dt_a * DataType.max dt_b * inject_Z len;
           DataType.max dt_a * DataType.max dt_b * inject_Z len ].
  split.
  - unfold visited_products. repeat constructor; ring.
  - unfold visited_products. apply perm_skip. apply perm_swap.
Qed.

Lemma is_min_of_Permutation (l l' : list Q) (m : Q) :
  Permutation l l' -> is_min_of l m -> is_min_of l' m.
Proof.
  intros HP [HE HA]. split.
  - apply List.Exists_exists in HE as (x & Hx & Ex). apply List.Exists_exists.
    exists x. split; [|exact Ex]. eapply Permutation_in; eassumption.
  - eapply Permutation_Forall; eassumption.
Qed.

Lemma is_max_of_Permutation (l l' : list Q) (m : Q) :
  Permutation l l' -> is_max_of l m -> is_max_of l' m.
Proof.
  intros HP [HE HA]. split.
  - apply List.Exists_exists in HE as (x & Hx & Ex). apply List.Exists_exists.
    exists x. split; [|exact Ex]. eapply Permutation_in; eassumption.
  - eapply Permutation_Forall; eassumption.
Qed.

Lemma is_max_of_unique (l : list Q) (m m' : Q) :
  is_max_of l m -> is_max_of l m' -> m == m'.
Proof.
  intros [E1 F1] [E2 F2].
  apply List.Exists_exists in E1 as (x & Hx & Ex).
  apply List.Exists_exists in E2 as (y & Hy & Ey).
  rewrite List.Forall_forall in F1, F2.
  pose proof (F1 y Hy). pose proof (F2 x Hx). lra.
Qed.

(** With ranges that contain zero one visited product is not positive and
    one is not negative, so neither initial value survives the loops. *)
Lemma visited_products_signs (dt_a dt_b : DataType.t) (len : Z) :
  (0 < len)%Z ->
  DataType.min dt_a <= 0 -> 0 <= DataType.max dt_b -> DataType.min dt_b <= 0 ->
  (exists p, In p (visited_products dt_a dt_b len) /\ p <= 0)
  /\ (exists p, In p (visited_products dt_a dt_b len) /\ 0 <= p).
Proof.
  intros Hlen Ha Hb Hb'.
  assert (Hn : 0 < inject_Z len).
  { unfold Qlt. simpl. lia. }
  split.
  - eexists. split; [right; left; reflexivity|].
    assert (H : 0 <= (- DataType.min dt_a) * DataType.max dt_b * inject_Z len).
    { apply Qmult_le_0_compat; [apply Qmult_le_0_compat|]; lra. }
    lra.
  - eexists. split; [left; reflexivity|].
    assert (H : 0 <= (- DataType.min dt_a) * (- DataType.min dt_b) * inject_Z len).
    { apply Qmult_le_0_compat; [apply Qmult_le_0_compat|]; lra. }
    lra.
Qed.

Lemma dot_prod_range_exact (dt_a dt_b : DataType.t) (len : Z) :
  DataType.signed dt_a = true -> DataType.signed dt_b = true ->
  (exists p, In p (visited_products dt_a dt_b len) /\ p <= 0) ->
  (exists p, In p (visited_products dt_a dt_b len) /\ 0 <= p) ->
  exists lo hi,
    calculate_signed_dot_prod_range dt_a dt_b len = Ok (lo, hi)
    /\ is_min_of (visited_products dt_a dt_b len) lo
    /\ is_max_of (visited_products dt_a dt_b len) hi.
Proof.
  intros Sa Sb (p & Hp & Hp0) (p' & Hp' & Hp0').
  unfold calculate_signed_dot_prod_range. rewrite Sa, Sb. simpl py_assert.
  cbn [mbind result_bind].
  rewrite dot_prod_loops_unfold, fold_minmax_step. cbn [fst snd].
  do 2 eexists. split; [reflexivity|].
  destruct (fold_Qmin_step (visited_products dt_a dt_b len) (inject_Z (2 ^ 30)))
    as (H1 & H2 & H3).
  destruct (fold_Qmax_step (visited_products dt_a dt_b len) (inject_Z (- 2 ^ 30)))
    as (G1 & G2 & G3).
  assert (Hbig : 0 < inject_Z (2 ^ 30)) by reflexivity.
  assert (Hsmall : inject_Z (- 2 ^ 30) < 0) by reflexivity.
  split; split; try assumption; apply In_Exists_Qeq.
  - destruct H3 as [H3|H3]; [|exact H3]. exfalso.
    rewrite List.Forall_forall in H2. specialize (H2 p Hp).
    rewrite H3 in H2. lra.
  - destruct G3 as [G3|G3]; [|exact G3]. exfalso.
    rewrite List.Forall_forall in G2. specialize (G2 p' Hp').
    rewrite G3 in G2. lra.
Qed.

(** The same when the running minimum and maximum only have to get below
    and above the values they start from. *)
Lemma dot_prod_range_within (dt_a dt_b : DataType.t) (len : Z) :
  DataType.signed dt_a = true -> DataType.signed dt_b = true ->
  (exists p, In p (visited_products dt_a dt_b len) /\ p <= inject_Z (2 ^ 30)) ->
  (exists p, In p (visited_products dt_a dt_b len) /\ inject_Z (- 2 ^ 30) <= p) ->
  exists lo hi,
    calculate_signed_dot_prod_range dt_a dt_b len = Ok (lo, hi)
    /\ is_min_of (visited_products dt_a dt_b len) lo
    /\ is_max_of (visited_products dt_a dt_b len) hi.
Proof.
  intros Sa Sb (p & Hp & Hp0) (p' & Hp' & Hp0').
  unfold calculate_signed_dot_prod_range. rewrite Sa, Sb. simpl py_assert.
  cbn [mbind result_bind].
  rewrite dot_prod_loops_unfold, fold_minmax_step. cbn [fst snd].
  do 2 eexists. split; [reflexivity|].
  destruct (fold_Qmin_step (visited_products dt_a dt_b len) (inject_Z (2 ^ 30)))
    as (H1 & H2 & H3).
  destruct (fold_Qmax_step (visited_products dt_a dt_b len) (inject_Z (- 2 ^ 30)))
    as (G1 & G2 & G3).
  split; split; try assumption.
  - destruct H3 as [H3|H3]; [|now apply In_Exists_Qeq].
    apply List.Exists_exists. exists p. split; [exact Hp|].
    rewrite List.Forall_forall in H2. specialize (H2 p Hp).
    rewrite H3 in H2 |- *. lra.
  - destruct G3 as [G3|G3]; [|now apply In_Exists_Qeq].
    apply List.Exists_exists. exists p'. split; [exact Hp'|].
    rewrite List.Forall_forall in G2. specialize (G2 p' Hp').
    rewrite G3 in G2 |- *. lra.
Qed.

Lemma Exists_scaled_visited (dt_a dt_b : DataType.t) (len : Z) (P : Q -> Prop) :
  (forall x y, x == y -> P x -> P y) ->
  Exists P (scaled_corners dt_a dt_b len) ->
  exists p, In p (visited_products dt_a dt_b len) /\ P p.
Proof.
  intros HP HE.
  pose proof (visited_scaled_corners dt_a dt_b len) as HF.
  induction HF as [|x y l l' Hxy HF IH]; inversion HE; subst.
  - exists x. split; [now left|]. apply (HP y); [symmetry; exact Hxy | assumption].
  - destruct (IH H0) as (p & Hp & Pp). exists p. split; [now right | exact Pp].
Qed.

(** For signed datatypes and a positive length,
    [calculate_signed_dot_prod_range] returns the least and the greatest
    of the four corner products scaled by the length, and swapping the two
    datatypes gives the same pair, whenever one scaled product is at most
    2^30 and one at least -2^30, the values the running minimum and
    maximum start from.  Ranges that contain zero always have such
    products. *)
Theorem signed_dot_prod_range_corners (dt_a dt_b : DataType.t) (len : Z) :
  DataType.signed dt_a = true -> DataType.signed dt_b = true ->
  (0 < len)%Z ->
  Exists (fun p => p <= inject_Z (2 ^ 30)) (scaled_corners dt_a dt_b len) ->
  Exists (fun p => inject_Z (- 2 ^ 30) <= p) (scaled_corners dt_a dt_b len) ->
  exists lo hi,
    calculate_signed_dot_prod_range dt_a dt_b len = Ok (lo, hi)
    /\ is_min_of (scaled_corners dt_a dt_b len) lo
    /\ is_max_of (scaled_corners dt_a dt_b len) hi
    /\ exists lo' hi',
         calculate_signed_dot_prod_range dt_b dt_a len = Ok (lo', hi')
         /\ lo' == lo /\ hi' == hi.
Proof.
  intros Sa Sb Hlen HN HP.
  apply (Exists_scaled_visited _ _ _ (fun p => p <= inject_Z (2 ^ 30))) in HN;
    [|intros x y E H; rewrite <- E; exact H].
  apply (Exists_scaled_visited _ _ _ (fun p => inject_Z (- 2 ^ 30) <= p)) in HP;
    [|intros x y E H; rewrite <- E; exact H].
  destruct (dot_prod_range_within dt_a dt_b len Sa Sb HN HP)
    as (lo & hi & E & Hlo & Hhi).
  destruct (visited_products_swap dt_a dt_b len) as (l & HF & HPerm).
  assert (Hswap : forall P : Q -> Prop,
             (forall x y, x == y -> P x -> P y) ->
             (exists p, In p (visited_products dt_a dt_b len) /\ P p) ->
             exists p, In p (visited_products dt_b dt_a len) /\ P p).
  { intros P HPr (p & Hp & Pp).
    apply (Permutation_in _ (Permutation_sym HPerm)) in Hp.
    clear HPerm. induction HF as [|x y v l Hxy HF IH]; [destruct Hp|].
    destruct Hp as [<-|Hp].
    - exists x. split; [now left|]. apply (HPr y); [symmetry; exact Hxy | exact Pp].
    - destruct (IH Hp) as (q & Hq & Pq). exists q. split; [now right | exact Pq]. }
  destruct (dot_prod_range_within dt_b dt_a len Sb Sa) as (lo' & hi' & E' & Hlo' & Hhi').
  { apply (Hswap (fun p => p <= inject_Z (2 ^ 30)));
      [intros x y Exy H; rewrite <- Exy; exact H | exact HN]. }
  { apply (Hswap (fun p => inject_Z (- 2 ^ 30) <= p));
      [intros x y Exy H; rewrite <- Exy; exact H | exact HP]. }
  exists lo, hi. split; [exact E|].
  split; [eapply is_min_of_Forall2; [apply visited_scaled_corners | exact Hlo]|].
  split; [eapply is_max_of_Forall2; [apply visited_scaled_corners | exact Hhi]|].
  exists lo', hi'. split; [exact E'|].
  split.
  - apply (is_min_of_unique (visited_products dt_a dt_b len)); [|exact Hlo].
    eapply is_min_of_Permutation; [exact HPerm|].
    eapply is_min_of_Forall2; eassumption.
  - apply (is_max_of_unique (visited_products dt_a dt_b len)); [|exact Hhi].
    eapply is_max_of_Permutation; [exact HPerm|].
    eapply is_max_of_Forall2; eassumption.
Qed.

(** ** [calculate_matvec_accumulator_range] *)

Lemma zip_with_map_self {A B C} (f : A -> B -> C) (g : A -> B) (d : list A) :
  zip_with f d (map g d) = map (fun m => f m (g m)) d.
Proof. induction d as [|x d IH]; simpl; [reflexivity | now rewrite IH]. Qed.

Lemma chunks_map_seq (size count : nat) (l : list Q) :
  chunks size count l = map (block size l) (seq 0 count).
Proof.
  revert l. induction count as [|c IH]; intros l; [reflexivity|].
  cbn [chunks seq map]. f_equal.
  rewrite IH, <- seq_shift, map_map. apply map_ext. intros i.
  unfold block. rewrite drop_drop. reflexivity.
Qed.

Lemma length_block (len : nat) (d : list Q) (i : nat) :
  (i * len + len <= length d)%nat -> length (block len d i) = len.
Proof. intros H. unfold block. rewrite length_take, length_drop. lia. Qed.

Lemma nth_block (len : nat) (d : list Q) (i j : nat) :
  (j < len)%nat -> nth j (block len d i) 0 = nth (i * len + j) d 0.
Proof.
  intros H. unfold block. rewrite !nth_lookup, lookup_take_lt by exact H.
  rewrite lookup_drop. reflexivity.
Qed.

Lemma Qsum_ext {A} (f g : A -> Q) (l : list A) :
  (forall x, In x l -> f x == g x) -> Qsum (map f l) == Qsum (map g l).
Proof.
  induction l as [|x l IH]; intros H; simpl; [reflexivity|].
  rewrite (H x) by now left. rewrite IH; [reflexivity|].
  intros y Hy. apply H. now right.
Qed.

Lemma Qsum_le {A} (f g : A -> Q) (l : list A) :
  (forall x, In x l -> f x <= g x) -> Qsum (map f l) <= Qsum (map g l).
Proof.
  induction l as [|x l IH]; intros H; simpl; [lra|].
  pose proof (H x (or_introl eq_refl)).
  assert (Qsum (map f l) <= Qsum (map g l)).
  { apply IH. intros y Hy. apply H. now right. }
  lra.
Qed.

Lemma nth_map_seq (f : nat -> Q) (n i : nat) :
  (i < n)%nat -> nth i (map f (seq 0 n)) 0 = f i.
Proof.
  intros H. rewrite (nth_indep _ 0 (f 0%nat)) by (now rewrite length_map, length_seq).
  rewrite (map_nth f), seq_nth by exact H. reflexivity.
Qed.

Lemma nth_map_in {A} (f : A -> Q) (l : list A) (d : A) (j : nat) :
  (j < length l)%nat -> nth j (map f l) 0 = f (nth j l d).
Proof.
  intros H. rewrite (nth_indep _ 0 (f d)) by (now rewrite length_map).
  apply map_nth.
Qed.

(** *** Numbers of a storage type *)

Lemma fits_Qeq (t : np_dtype) (q q' : Q) : q == q' -> fits t q -> fits t q'.
Proof.
  intros E. unfold fits. destruct (iinfo t) as [[lo hi]|].
  - intros (z & Hz & Hb). exists z. split; [now rewrite <- E | exact Hb].
  - intros (z & e & Hz & Hb). exists z, e. split; [now rewrite <- E | exact Hb].
Qed.

Lemma Qtrunc_inject_Z (q : Q) (z : Z) : q == inject_Z z -> Qtrunc q = z.
Proof.
  unfold Qeq, Qtrunc. destruct q as [n d]. cbn [Qnum Qden inject_Z].
  intros H. rewrite Z.mul_1_r in H. rewrite H. apply Z.quot_mul. discriminate.
Qed.

Lemma wrap_to_id (lo hi z : Z) : (lo <= z <= hi)%Z -> wrap_to lo hi z = z.
Proof. intros H. unfold wrap_to. rewrite Z.mod_small; lia. Qed.

Section StoreExact.
Context {FR : FloatRounding} {FL : FloatRoundingLaws FR}.

(** Storing a number of the type changes nothing. *)
Lemma np_store_fits (t : np_dtype) (q : Q) : fits t q -> np_store t q == q.
Proof.
  unfold fits, np_store.
  destruct t; cbn [iinfo significand_bits];
    try (intros (z & Hz & Hb); rewrite (Qtrunc_inject_Z q z Hz), wrap_to_id by exact Hb;
         symmetry; exact Hz);
    cbn [min_exponent max_exponent]; intros (z & e & Hz & Hb & He & _).
  - exact (rounds_exact _ _ _ fl16_rounds q z e Hz Hb He).
  - exact (rounds_exact _ _ _ fl32_rounds q z e Hz Hb He).
  - exact (rounds_exact _ _ _ fl64_rounds q z e Hz Hb He).
Qed.

Lemma np_store_fits_eq (t : np_dtype) (q q' : Q) :
  q == q' -> fits t q' -> np_store t q == q'.
Proof.
  intros E H. rewrite np_store_fits; [exact E|].
  apply (fits_Qeq t q' q); [symmetry; exact E | exact H].
Qed.
End StoreExact.

(** *** The computation of the model, column by column *)

Lemma np_gt0_select (matrix : ndarray) (x y : Q) :
  map (fun c : bool => if c then x else y) (np_gt0 matrix)
  = map (fun m => if Qlt_le_dec 0 m then x else y) (data matrix).
Proof.
  unfold np_gt0. rewrite map_map. apply map_ext. intros m.
  destruct (Qlt_le_dec 0 m) as [H|H].
  - apply Qltb_true in H. now rewrite H.
  - apply Qltb_false in H. now rewrite H.
Qed.

Lemma nth_rows_map_seq (f : nat -> list Q) (n i : nat) :
  (i < n)%nat -> nth i (map f (seq 0 n)) [] = f i.
Proof.
  intros H. rewrite (nth_indep _ [] (f 0%nat)) by (now rewrite length_map, length_seq).
  rewrite (map_nth f), seq_nth by exact H. reflexivity.
Qed.

Lemma Qsum_app (l l' : list Q) : Qsum (l ++ l') == Qsum l + Qsum l'.
Proof.
  induction l as [|x l IH].
  - cbn [app]. change (Qsum []) with 0. ring.
  - cbn [app Qsum fold_right].
    fold (Qsum (l ++ l')). fold (Qsum l). rewrite IH. ring.
Qed.

Lemma Qsum_Permutation (l l' : list Q) : Permutation l l' -> Qsum l == Qsum l'.
Proof.
  induction 1 as [|x l l' HP IH|x y l|l l' l'' H1 IH1 H2 IH2];
    cbn [Qsum fold_right]; fold Qsum.
  - reflexivity.
  - fold (Qsum l). fold (Qsum l'). rewrite IH. reflexivity.
  - fold (Qsum l). lra.
  - now rewrite IH1.
Qed.

Lemma exact_sum_operands (term : nat -> Q) (o : sum_order) :
  exact_sum term o == Qsum (map term (operands o)).
Proof.
  induction o as [i|l IHl r IHr]; cbn [exact_sum operands map].
  - cbn [Qsum fold_right]. lra.
  - rewrite map_app, Qsum_app, IHl, IHr. reflexivity.
Qed.

Lemma exact_sum_all (term : nat -> Q) (o : sum_order) (n : nat) :
  adds_each_once o n -> exact_sum term o == Qsum (map term (seq 0 n)).
Proof.
  intros H. rewrite exact_sum_operands.
  apply Qsum_Permutation, Permutation_map, H.
Qed.

Lemma adds_each_once_lt (o : sum_order) (n i : nat) :
  adds_each_once o n -> In i (operands o) -> (i < n)%nat.
Proof.
  intros H Hi. apply (Permutation_in _ H) in Hi. apply in_seq in Hi. lia.
Qed.

Section AddInOrder.
Context {FR : FloatRounding}.

Lemma added_in_order_ext (t : np_dtype) (f g : nat -> Q) (o : sum_order) :
  (forall i, In i (operands o) -> f i = g i) ->
  added_in_order t f o = added_in_order t g o.
Proof.
  induction o as [i|l IHl r IHr]; cbn [added_in_order operands]; intros H.
  - rewrite H by now left. reflexivity.
  - rewrite IHl, IHr; [reflexivity| |]; intros i Hi; apply H, in_or_app; auto.
Qed.

Lemma length_add_in_order (t : np_dtype) (rows : list (list Q)) (n : nat)
    (o : sum_order) :
  (forall i, In i (operands o) -> length (nth i rows []) = n) ->
  length (add_in_order t rows o) = n.
Proof.
  induction o as [i|l IHl r IHr]; cbn [add_in_order operands]; intros H.
  - rewrite length_map. apply H. now left.
  - rewrite length_zip_with, IHl, IHr; [lia| |];
      intros i Hi; apply H, in_or_app; auto.
Qed.

(** Adding the rows of a matrix adds, in column [j], the elements of the
    column in the same order. *)
Lemma nth_add_in_order (t : np_dtype) (rows : list (list Q)) (n : nat)
    (o : sum_order) (j : nat) :
  (forall i, In i (operands o) -> length (nth i rows []) = n) -> (j < n)%nat ->
  nth j (add_in_order t rows o) 0
  = added_in_order t (fun i => nth j (nth i rows []) 0) o.
Proof.
  intros H Hj. induction o as [i|l IHl r IHr]; cbn [add_in_order added_in_order].
  - apply nth_map_in. rewrite H by now left. exact Hj.
  - assert (Hl : forall i, In i (operands l) -> length (nth i rows []) = n)
      by (intros i Hi; apply H; cbn [operands]; apply in_or_app; auto).
    assert (Hr : forall i, In i (operands r) -> length (nth i rows []) = n)
      by (intros i Hi; apply H; cbn [operands]; apply in_or_app; auto).
    rewrite <- (IHl Hl), <- (IHr Hr).
    pose proof (length_add_in_order t rows n l Hl) as Ll.
    pose proof (length_add_in_order t rows n r Hr) as Lr.
    rewrite !nth_lookup, lookup_zip_with.
    destruct (lookup_lt_is_Some_2 (add_in_order t rows l) j) as [a Ha]; [lia|].
    destruct (lookup_lt_is_Some_2 (add_in_order t rows r) j) as [b Hb]; [lia|].
    rewrite Ha, Hb. reflexivity.
Qed.
End AddInOrder.

Section MatVec.
Context {FR : FloatRounding}.
Variable reduction_order : nat -> sum_order.
Variables (matrix : ndarray) (MW MH : nat).
Hypothesis Hshape : shape matrix = [Z.of_nat MW; Z.of_nat MH].
Hypothesis Hsize : length (data matrix) = (MW * MH)%nat.
Hypothesis Horder : adds_each_once (reduction_order MW) MW.

(** The column sums of the matrix weighted elementwise by the selected
    bound, as the model computes them. *)
Lemma sum_axis0_computed (bt : np_dtype) (x y : Q) :
  data (np_sum_axis0 reduction_order
          (np_mul matrix (np_where (shape matrix) bt (np_gt0 matrix) x y)))
  = map (computed_column matrix MW MH (np_result_type (dtype matrix) bt)
           (fun m => if Qlt_le_dec 0 m then x else y) (reduction_order MW))
      (seq 0 MH).
Proof.
  set (sel := fun m => if Qlt_le_dec 0 m then x else y).
  set (t := np_result_type (dtype matrix) bt).
  unfold np_sum_axis0, np_mul, np_where. cbn [shape dtype data].
  fold t. rewrite Hshape. cbn [data].
  replace (Z.to_nat (prod_list [Z.of_nat MH])) with MH
    by (unfold prod_list; simpl; lia).
  rewrite Nat2Z.id, np_gt0_select. fold sel.
  rewrite zip_with_map_self, chunks_map_seq.
  set (term := fun m => np_store t (np_store t m * np_store t (sel m))).
  set (d := map term (data matrix)).
  assert (Hd : length d = (MW * MH)%nat) by (unfold d; now rewrite length_map).
  assert (Hterm : forall i j, (i < MW)%nat -> (j < MH)%nat ->
             nth j (block MH d i) 0 = computed_term matrix MH t sel i j).
  { intros i j Hi Hj. rewrite nth_block by exact Hj. unfold d.
    rewrite (nth_map_in term (data matrix) 0) by nia. reflexivity. }
  destruct MW as [|k] eqn:EMW; cbn [seq map].
  - apply (nth_ext _ _ 0 0).
    + now rewrite repeat_length, length_map, length_seq.
    + intros j Hj. rewrite repeat_length in Hj.
      rewrite nth_repeat, nth_map_seq by exact Hj. reflexivity.
  - change (block MH d 0 :: map (block MH d) (seq 1 k))
      with (map (block MH d) (seq 0 (S k))).
    rewrite length_map, length_seq.
    set (rows := map (block MH d) (seq 0 (S k))).
    assert (Hrows : forall i, In i (operands (reduction_order (S k))) ->
              length (nth i rows []) = MH).
    { intros i Hi. apply (adds_each_once_lt _ _ _ Horder) in Hi.
      unfold rows. rewrite nth_rows_map_seq by exact Hi.
      apply length_block. nia. }
    apply (nth_ext _ _ 0 0).
    + rewrite (length_add_in_order _ rows MH _ Hrows).
      now rewrite length_map, length_seq.
    + intros j Hj. rewrite (length_add_in_order _ rows MH _ Hrows) in Hj.
      rewrite (nth_add_in_order _ rows MH _ j Hrows Hj).
      rewrite nth_map_seq by exact Hj. unfold computed_column.
      apply added_in_order_ext. intros i Hi.
      apply (adds_each_once_lt _ _ _ Horder) in Hi.
      unfold rows. rewrite nth_rows_map_seq by exact Hi.
      apply Hterm; assumption.
Qed.
End MatVec.

Lemma np_amax_spec (a : ndarray) :
  data a <> [] -> exists m, np_amax a = Ok m /\ is_max_of (data a) m.
Proof.
  intros Hne. unfold np_amax. destruct (data a) as [|x xs]; [congruence|].
  eexists. split; [reflexivity|].
  destruct (fold_Qmax_step xs x) as (H1 & H2 & H3). split.
  - destruct H3 as [H3|H3].
    + left. rewrite H3. reflexivity.
    + right. now apply In_Exists_Qeq.
  - constructor; assumption.
Qed.

Lemma np_amin_spec (a : ndarray) :
  data a <> [] -> exists m, np_amin a = Ok m /\ is_min_of (data a) m.
Proof.
  intros Hne. unfold np_amin. destruct (data a) as [|x xs]; [congruence|].
  eexists. split; [reflexivity|].
  destruct (fold_Qmin_step xs x) as (H1 & H2 & H3). split.
  - destruct H3 as [H3|H3].
    + left. rewrite H3. reflexivity.
    + right. now apply In_Exists_Qeq.
  - constructor; assumption.
Qed.

Section MatVecBounds.
Variables (matrix : ndarray) (vec_dt : DataType.t) (MW MH : nat).
Hypothesis Hrange : DataType.min vec_dt <= DataType.max vec_dt.

Local Abbreviation A := (entry matrix MH).

Lemma term_upper (v a : Q) :
  DataType.min vec_dt <= v <= DataType.max vec_dt ->
  v * a <= a * maximizer vec_dt a.
Proof.
  intros [Hlo Hhi]. unfold maximizer. destruct (Qlt_le_dec 0 a) as [Ha|Ha].
  - assert (0 <= (DataType.max vec_dt - v) * a)
      by (apply Qmult_le_0_compat; lra).
    lra.
  - assert (0 <= (v - DataType.min vec_dt) * (- a))
      by (apply Qmult_le_0_compat; lra).
    lra.
Qed.

Lemma term_lower (v a : Q) :
  DataType.min vec_dt <= v <= DataType.max vec_dt ->
  a * minimizer vec_dt a <= v * a.
Proof.
  intros [Hlo Hhi]. unfold minimizer. destruct (Qlt_le_dec 0 a) as [Ha|Ha].
  - assert (0 <= (v - DataType.min vec_dt) * a)
      by (apply Qmult_le_0_compat; lra).
    lra.
  - assert (0 <= (DataType.max vec_dt - v) * (- a))
      by (apply Qmult_le_0_compat; lra).
    lra.
Qed.

Lemma in_box_nth (x : list Q) (i : nat) :
  in_box vec_dt MW x -> (i < MW)%nat ->
  DataType.min vec_dt <= nth i x 0 <= DataType.max vec_dt.
Proof.
  intros [Hl HF] Hi. rewrite List.Forall_forall in HF.
  apply HF, nth_In. lia.
Qed.

(** Every component of [x . A] lies between the two column sums. *)
Lemma column_bounds (x : list Q) (j : nat) :
  in_box vec_dt MW x ->
  column_lower matrix vec_dt MW MH j <= vec_times_column matrix MW MH x j
  /\ vec_times_column matrix MW MH x j <= column_upper matrix vec_dt MW MH j.
Proof.
  intros Hx. unfold column_lower, column_upper, vec_times_column. split.
  - apply Qsum_le. intros i Hi. apply in_seq in Hi.
    apply term_lower, in_box_nth; [exact Hx | lia].
  - apply Qsum_le. intros i Hi. apply in_seq in Hi.
    apply term_upper, in_box_nth; [exact Hx | lia].
Qed.

(** The vector that attains the upper (resp. lower) sum of column [j]. *)
Lemma column_upper_attained (j : nat) :
  exists x, in_box vec_dt MW x
            /\ vec_times_column matrix MW MH x j == column_upper matrix vec_dt MW MH j.
Proof.
  exists (map (fun i => maximizer vec_dt (A i j)) (seq 0 MW)). split.
  - split; [now rewrite length_map, length_seq|].
    apply Forall_map, List.Forall_forall. intros i _. unfold maximizer.
    destruct (Qlt_le_dec 0 (A i j)); lra.
  - unfold vec_times_column, column_upper. apply Qsum_ext.
    intros i Hi. apply in_seq in Hi.
    rewrite nth_map_seq by lia. ring.
Qed.

Lemma column_lower_attained (j : nat) :
  exists x, in_box vec_dt MW x
            /\ vec_times_column matrix MW MH x j == column_lower matrix vec_dt MW MH j.
Proof.
  exists (map (fun i => minimizer vec_dt (A i j)) (seq 0 MW)). split.
  - split; [now rewrite length_map, length_seq|].
    apply Forall_map, List.Forall_forall. intros i _. unfold minimizer.
    destruct (Qlt_le_dec 0 (A i j)); lra.
  - unfold vec_times_column, column_lower. apply Qsum_ext.
    intros i Hi. apply in_seq in Hi.
    rewrite nth_map_seq by lia. ring.
Qed.
End MatVecBounds.

Lemma Exists_map_seq (f : nat -> Q) (n : nat) (m : Q) :
  Exists (fun x => x == m) (map f (seq 0 n)) -> exists j, (j < n)%nat /\ f j == m.
Proof.
  intros H. apply List.Exists_exists in H as (x & Hx & E).
  apply in_map_iff in Hx as (j & <- & Hj). apply in_seq in Hj.
  exists j. split; [lia | exact E].
Qed.


(** *** Exact arithmetic *)

Section MatVecExact.
Context {FR : FloatRounding} {FL : FloatRoundingLaws FR}.
Variables (matrix : ndarray) (vec_dt : DataType.t) (MW MH : nat) (t : np_dtype).
Variable o : sum_order.
Hypothesis Horder : adds_each_once o MW.
Hypothesis Hexact : exact_arithmetic matrix vec_dt MW MH t o.

Lemma computed_term_upper (i j : nat) :
  (i < MW)%nat -> (j < MH)%nat ->
  computed_term matrix MH t (maximizer vec_dt) i j == upper_term matrix vec_dt MH i j.
Proof.
  intros Hi Hj. destruct Hexact as (Hmin & Hmax & Hterms & _).
  destruct (Hterms i j Hi Hj) as (He & Hu & _).
  unfold computed_term. apply np_store_fits_eq; [|exact Hu].
  unfold upper_term. rewrite (np_store_fits t _ He).
  assert (Hs : fits t (maximizer vec_dt (entry matrix MH i j))).
  { unfold maximizer. destruct (Qlt_le_dec 0 (entry matrix MH i j)); assumption. }
  rewrite (np_store_fits t _ Hs). reflexivity.
Qed.

Lemma computed_term_lower (i j : nat) :
  (i < MW)%nat -> (j < MH)%nat ->
  computed_term matrix MH t (minimizer vec_dt) i j == lower_term matrix vec_dt MH i j.
Proof.
  intros Hi Hj. destruct Hexact as (Hmin & Hmax & Hterms & _).
  destruct (Hterms i j Hi Hj) as (He & _ & Hl).
  unfold computed_term. apply np_store_fits_eq; [|exact Hl].
  unfold lower_term. rewrite (np_store_fits t _ He).
  assert (Hs : fits t (minimizer vec_dt (entry matrix MH i j))).
  { unfold minimizer. destruct (Qlt_le_dec 0 (entry matrix MH i j)); assumption. }
  rewrite (np_store_fits t _ Hs). reflexivity.
Qed.

(** Sums whose terms and partial sums are numbers of the type are
    computed without error. *)
Lemma added_in_order_exact (st : np_dtype) (cterm term : nat -> Q) (s : sum_order) :
  (forall i, In i (operands s) -> cterm i == term i) ->
  sums_fit st term s ->
  added_in_order st cterm s == exact_sum term s.
Proof.
  induction s as [i|l IHl r IHr];
    cbn [added_in_order exact_sum sums_fit operands]; intros Hterm Hfit.
  - apply np_store_fits_eq; [apply Hterm; now left | exact Hfit].
  - destruct Hfit as (Hl & Hr & Hs).
    apply np_store_fits_eq; [|exact Hs].
    rewrite IHl, IHr; [reflexivity| | | |]; try assumption;
      intros i Hi; apply Hterm, in_or_app; auto.
Qed.

Lemma computed_column_exact (sel : Q -> Q) (term : nat -> Q) (j : nat) :
  (forall i, (i < MW)%nat -> computed_term matrix MH t sel i j == term i) ->
  sums_fit (sum_dtype t) term o ->
  computed_column matrix MW MH t sel o j == Qsum (map term (seq 0 MW)).
Proof.
  intros Hterm Hsums. unfold computed_column.
  destruct MW as [|k] eqn:E; [reflexivity|].
  rewrite (added_in_order_exact _ _ term); [now apply exact_sum_all| |exact Hsums].
  intros i Hi. apply Hterm. eapply adds_each_once_lt; eassumption.
Qed.

Lemma computed_upper_exact (j : nat) :
  (j < MH)%nat ->
  computed_column matrix MW MH t (maximizer vec_dt) o j
  == column_upper matrix vec_dt MW MH j.
Proof.
  intros Hj. unfold column_upper.
  apply (computed_column_exact (maximizer vec_dt)
           (fun i => upper_term matrix vec_dt MH i j)).
  - intros i Hi. now apply computed_term_upper.
  - destruct Hexact as (_ & _ & _ & Hsums). now apply Hsums.
Qed.

Lemma computed_lower_exact (j : nat) :
  (j < MH)%nat ->
  computed_column matrix MW MH t (minimizer vec_dt) o j
  == column_lower matrix vec_dt MW MH j.
Proof.
  intros Hj. unfold column_lower.
  apply (computed_column_exact (minimizer vec_dt)
           (fun i => lower_term matrix vec_dt MH i j)).
  - intros i Hi. now apply computed_term_lower.
  - destruct Hexact as (_ & _ & _ & Hsums). now apply Hsums.
Qed.
End MatVecExact.

Lemma Forall2_Qeq_map_seq (f g : nat -> Q) (n : nat) :
  (forall j, (j < n)%nat -> f j == g j) ->
  Forall2 Qeq (map f (seq 0 n)) (map g (seq 0 n)).
Proof.
  intros H. apply Forall2_fmap, Forall_Forall2_diag, List.Forall_forall.
  intros j Hj. apply in_seq in Hj. apply H. lia.
Qed.

Section MatVecResult.
Context {FR : FloatRounding}.
Variable reduction_order : nat -> sum_order.
Variable bounds_dtype : DataType.t -> np_dtype.

(** The returned pair as the extremes of the computed column sums. *)
Lemma matvec_computed (matrix : ndarray) (vec_dt : DataType.t) (MW MH : nat) :
  shape matrix = [Z.of_nat MW; Z.of_nat MH] ->
  length (data matrix) = (MW * MH)%nat ->
  (0 < MH)%nat ->
  adds_each_once (reduction_order MW) MW ->
  let t := np_result_type (dtype matrix) (bounds_dtype vec_dt) in
  exists min_value max_value,
    calculate_matvec_accumulator_range reduction_order bounds_dtype matrix vec_dt
    = Ok (min_value, max_value)
    /\ is_max_of (map (computed_column matrix MW MH t (maximizer vec_dt)
                         (reduction_order MW)) (seq 0 MH))
         max_value
    /\ is_min_of (map (computed_column matrix MW MH t (minimizer vec_dt)
                         (reduction_order MW)) (seq 0 MH))
         min_value.
Proof.
  intros Hshape Hsize HMH Horder t.
  unfold calculate_matvec_accumulator_range.
  pose proof (sum_axis0_computed reduction_order matrix MW MH Hshape Hsize Horder
                (bounds_dtype vec_dt) (DataType.max vec_dt) (DataType.min vec_dt)) as Eu.
  pose proof (sum_axis0_computed reduction_order matrix MW MH Hshape Hsize Horder
                (bounds_dtype vec_dt) (DataType.min vec_dt) (DataType.max vec_dt)) as El.
  fold t in Eu, El.
  change (fun m => if Qlt_le_dec 0 m then DataType.max vec_dt else DataType.min vec_dt)
    with (maximizer vec_dt) in Eu.
  change (fun m => if Qlt_le_dec 0 m then DataType.min vec_dt else DataType.max vec_dt)
    with (minimizer vec_dt) in El.
  destruct (np_amax_spec (np_sum_axis0 reduction_order (np_mul matrix
              (np_where (shape matrix) (bounds_dtype vec_dt) (np_gt0 matrix)
                 (DataType.max vec_dt) (DataType.min vec_dt))))) as (mx & Emx & Hmx).
  { rewrite Eu. destruct MH; [lia | discriminate]. }
  destruct (np_amin_spec (np_sum_axis0 reduction_order (np_mul matrix
              (np_where (shape matrix) (bounds_dtype vec_dt) (np_gt0 matrix)
                 (DataType.min vec_dt) (DataType.max vec_dt))))) as (mn & Emn & Hmn).
  { rewrite El. destruct MH; [lia | discriminate]. }
  rewrite Emx. cbn [mbind result_bind]. rewrite Emn. cbn [mbind result_bind].
  exists mn, mx. split; [reflexivity|].
  rewrite Eu in Hmx. rewrite El in Hmn. split; assumption.
Qed.

Context {FL : FloatRoundingLaws FR}.

(** C1 (amended). For a (MW, MH) matrix with at least one column and a
    datatype with [min <= max], when no product and no sum formed in adding
    the terms of a column is rounded, overflows or wraps around in the
    common type of the matrix and the bounds,
    [calculate_matvec_accumulator_range] returns (min, max) where max is
    the greatest, over the columns [j], of the sum over [i] of
    [A[i,j] * (dt.max if A[i,j] > 0 else dt.min)] and min the least of the
    sums with the two bounds exchanged; every component of [x . A], for [x]
    with all elements in [dt.min, dt.max], lies between them, and both are
    attained. *)
Theorem matvec_accumulator_range_tight
    (matrix : ndarray) (vec_dt : DataType.t) (MW MH : nat) :
  shape matrix = [Z.of_nat MW; Z.of_nat MH] ->
  length (data matrix) = (MW * MH)%nat ->
  (0 < MH)%nat ->
  DataType.min vec_dt <= DataType.max vec_dt ->
  adds_each_once (reduction_order MW) MW ->
  exact_arithmetic matrix vec_dt MW MH
    (np_result_type (dtype matrix) (bounds_dtype vec_dt)) (reduction_order MW) ->
  exists min_value max_value,
    calculate_matvec_accumulator_range reduction_order bounds_dtype matrix vec_dt
    = Ok (min_value, max_value)
    /\ is_max_of (map (column_upper matrix vec_dt MW MH) (seq 0 MH)) max_value
    /\ is_min_of (map (column_lower matrix vec_dt MW MH) (seq 0 MH)) min_value
    /\ (forall x j, in_box vec_dt MW x -> (j < MH)%nat ->
          min_value <= vec_times_column matrix MW MH x j
          /\ vec_times_column matrix MW MH x j <= max_value)
    /\ (exists x j, in_box vec_dt MW x /\ (j < MH)%nat
          /\ vec_times_column matrix MW MH x j == max_value)
    /\ (exists x j, in_box vec_dt MW x /\ (j < MH)%nat
          /\ vec_times_column matrix MW MH x j == min_value).
Proof.
  intros Hshape Hsize HMH Hrange Horder Hexact.
  destruct (matvec_computed matrix vec_dt MW MH Hshape Hsize HMH Horder)
    as (mn & mx & E & Hcmax & Hcmin).
  exists mn, mx. split; [exact E|].
  assert (Hmax : is_max_of (map (column_upper matrix vec_dt MW MH) (seq 0 MH)) mx).
  { eapply is_max_of_Forall2; [|exact Hcmax].
    apply Forall2_Qeq_map_seq. intros j Hj.
    now apply (computed_upper_exact matrix vec_dt MW MH _ _ Horder Hexact). }
  assert (Hmin : is_min_of (map (column_lower matrix vec_dt MW MH) (seq 0 MH)) mn).
  { eapply is_min_of_Forall2; [|exact Hcmin].
    apply Forall2_Qeq_map_seq. intros j Hj.
    now apply (computed_lower_exact matrix vec_dt MW MH _ _ Horder Hexact). }
  split; [exact Hmax|]. split; [exact Hmin|].
  split; [|split].
  - intros x j Hx Hj.
    destruct (column_bounds matrix vec_dt MW MH x j Hx) as [Hl Hu].
    destruct Hmax as [_ Fmax]. destruct Hmin as [_ Fmin].
    rewrite List.Forall_forall in Fmax, Fmin.
    assert (Hin : forall f : nat -> Q, In (f j) (map f (seq 0 MH))).
    { intros f. apply in_map, in_seq. lia. }
    pose proof (Fmax _ (Hin (column_upper matrix vec_dt MW MH))).
    pose proof (Fmin _ (Hin (column_lower matrix vec_dt MW MH))).
    split; lra.
  - destruct Hmax as [Emax _]. apply Exists_map_seq in Emax as (j & Hj & Ej).
    destruct (column_upper_attained matrix vec_dt MW MH Hrange j) as (x & Hx & Ex).
    exists x, j. repeat split; try assumption; try apply Hx. now rewrite Ex.
  - destruct Hmin as [Emin _]. apply Exists_map_seq in Emin as (j & Hj & Ej).
    destruct (column_lower_attained matrix vec_dt MW MH Hrange j) as (x & Hx & Ex).
    exists x, j. repeat split; try assumption; try apply Hx. now rewrite Ex.
Qed.
End MatVecResult.

(** ** [sanitize_quant_values] *)

Lemma py_max_spec (l : list Q) :
  l <> [] -> exists m, py_max l = Ok m /\ is_max_of l m.
Proof.
  intros Hne. destruct l as [|x xs]; [congruence|].
  eexists. split; [reflexivity|].
  destruct (fold_Qmax_step xs x) as (H1 & H2 & H3). split.
  - destruct H3 as [H3|H3].
    + left. rewrite H3. reflexivity.
    + right. now apply In_Exists_Qeq.
  - constructor; assumption.
Qed.

Lemma is_max_of_le (l : list Q) (m th : Q) :
  is_max_of l m -> (m <= th <-> Forall (fun x => x <= th) l).
Proof.
  intros [HE HA]. split.
  - intros Hm. eapply Forall_impl; [exact HA|]. intros x Hx. simpl in Hx. lra.
  - intros HF. apply List.Exists_exists in HE as (x & Hx & Ex).
    rewrite List.Forall_forall in HF. specialize (HF x Hx). lra.
Qed.

Lemma abs_differences_rounded (v : ndarray) :
  abs_differences v (np_map np_round v)
  = map (fun x => Qabs (x - np_round x)) (data v).
Proof.
  unfold abs_differences, np_map. cbn [data].
  rewrite zip_with_map_self, map_map. reflexivity.
Qed.

Lemma abs_differences_same (v : ndarray) :
  Forall (fun e => e == 0) (abs_differences v v).
Proof.
  unfold abs_differences.
  induction (data v) as [|x l IH]; cbn [zip_with map]; constructor; [|exact IH].
  assert (E : x - x == 0) by ring. rewrite E. reflexivity.
Qed.

Lemma abs_differences_nil (v w : ndarray) :
  data v = data w -> (abs_differences v w = [] <-> data v = []).
Proof.
  intros E. unfold abs_differences. rewrite <- E.
  destruct (data v); simpl; split; congruence.
Qed.

Lemma np_round_inject_Z (z : Z) : np_round (inject_Z z) = inject_Z z.
Proof.
  unfold np_round. rewrite Qfloor_Z.
  assert (H : (inject_Z z - inject_Z z ?= 1 # 2) = Lt).
  { rewrite <- Qlt_alt. lra. }
  rewrite H. reflexivity.
Qed.

(** Rounding a rounded value changes nothing. *)
Lemma np_round_idempotent (q : Q) : np_round (np_round q) = np_round q.
Proof.
  assert (H : exists z, np_round q = inject_Z z).
  { unfold np_round.
    destruct (q - inject_Z (Qfloor q) ?= 1 # 2); [destruct (Z.even _)| |]; eauto. }
  destruct H as [z ->]. apply np_round_inject_Z.
Qed.

Lemma np_map_round_idempotent (v : ndarray) :
  np_map np_round (np_map np_round v) = np_map np_round v.
Proof.
  unfold np_map. cbn [shape dtype data]. f_equal.
  rewrite map_map. apply map_ext, np_round_idempotent.
Qed.

(** [np.round] gives the nearest integer, the even one on a tie. *)
Lemma np_round_nearest (x : Q) : nearest_even x (np_round x).
Proof.
  unfold nearest_even, np_round.
  pose proof (Qfloor_le x) as Hlo. pose proof (Qlt_floor x) as Hhi.
  rewrite inject_Z_plus in Hhi. change (inject_Z 1) with 1 in Hhi.
  set (f := Qfloor x) in *.
  assert (Hint : forall z : Z, (z <= f)%Z \/ (f + 1 <= z)%Z) by (intros z; lia).
  assert (Hbelow : forall z : Z, (z <= f)%Z -> x - inject_Z f <= Qabs (x - inject_Z z)).
  { intros z Hz. rewrite Zle_Qle in Hz.
    pose proof (Qle_Qabs (x - inject_Z z)). lra. }
  assert (Habove : forall z : Z, (f + 1 <= z)%Z ->
            inject_Z f + 1 - x <= Qabs (x - inject_Z z)).
  { intros z Hz. rewrite Zle_Qle, inject_Z_plus in Hz.
    pose proof (Qle_Qabs (- (x - inject_Z z))) as H.
    pose proof (Qabs_opp (x - inject_Z z)) as E.
    change (inject_Z 1) with 1 in Hz. lra. }
  assert (Ef : Qabs (x - inject_Z f) == x - inject_Z f) by (apply Qabs_pos; lra).
  assert (Ef1 : Qabs (x - inject_Z (f + 1)) == inject_Z f + 1 - x).
  { rewrite inject_Z_plus. change (inject_Z 1) with 1.
    pose proof (Qabs_neg (x - (inject_Z f + 1)) ltac:(lra)) as E. lra. }
  destruct (x - inject_Z f ?= 1 # 2) eqn:C.
  - apply Qeq_alt in C. destruct (Z.even f) eqn:Hev.
    + exists f. split; [reflexivity|]. split; [|intros _; exact Hev].
      intros z. rewrite Ef.
      destruct (Hint z) as [Hz|Hz]; [now apply Hbelow|].
      pose proof (Habove z Hz). lra.
    + exists (f + 1)%Z. split; [reflexivity|]. split.
      * intros z. rewrite Ef1.
        destruct (Hint z) as [Hz|Hz]; [|now apply Habove].
        pose proof (Hbelow z Hz). lra.
      * intros _. rewrite Z.even_add, Hev. reflexivity.
  - apply Qlt_alt in C. exists f. split; [reflexivity|]. split.
    + intros z. rewrite Ef.
      destruct (Hint z) as [Hz|Hz]; [now apply Hbelow|].
      pose proof (Habove z Hz). lra.
    + rewrite Ef. intros E. lra.
  - apply Qgt_alt in C. exists (f + 1)%Z. split; [reflexivity|]. split.
    + intros z. rewrite Ef1.
      destruct (Hint z) as [Hz|Hz]; [|now apply Habove].
      pose proof (Hbelow z Hz). lra.
    + rewrite Ef1. intros E. lra.
Qed.

(** A value is farther than [th] from its rounding exactly when it is
    farther than [th] from every integer. *)
Lemma far_from_rounding (th x : Q) :
  th < Qabs (x - np_round x) <-> far_from_integers th x.
Proof.
  destruct (np_round_nearest x) as (n & En & Hn & _). rewrite En. split.
  - intros H z. pose proof (Hn z). lra.
  - intros H. apply H.
Qed.

Section SanitizeTensor.
Variable float_of_string : string -> result Q.
Variables (environ : gmap string string) (model : ModelWrapper) (check_values : bool).

Local Abbreviation thresh := (get_execution_error_thresh float_of_string environ).
Local Abbreviation step := (sanitize_tensor float_of_string environ model check_values).

(** The largest absolute rounding difference is within the tolerance
    exactly when every difference is. *)
Lemma max_error_within (v : ndarray) (m th : Q) :
  py_max (abs_differences v (np_map np_round v)) = Ok m ->
  (Qle_bool m th = true
   <-> Forall (fun x => Qabs (x - np_round x) <= th) (data v)).
Proof.
  intros Hm. rewrite abs_differences_rounded in Hm.
  destruct (py_max_spec (map (fun x => Qabs (x - np_round x)) (data v)))
    as (m' & Hm' & Hmax).
  { intros E. rewrite E in Hm. discriminate. }
  rewrite Hm in Hm'. injection Hm' as <-.
  rewrite Qle_bool_iff, (is_max_of_le _ _ th Hmax), Forall_map. reflexivity.
Qed.

Lemma not_all_within (l : list Q) (th : Q) :
  ~ Forall (fun x => Qabs (x - np_round x) <= th) l
  <-> exists x, In x l /\ th < Qabs (x - np_round x).
Proof.
  split.
  - intros H. induction l as [|x l IH]; [exfalso; apply H; constructor|].
    destruct (Qlt_le_dec th (Qabs (x - np_round x))) as [Hx|Hx].
    + exists x. split; [now left | exact Hx].
    + destruct IH as (y & Hy & Hyt).
      * intros HF. apply H. constructor; assumption.
      * exists y. split; [now right | exact Hyt].
  - intros (x & Hx & Hxt) HF. rewrite List.Forall_forall in HF.
    specialize (HF x Hx). lra.
Qed.

(** C3. For an integer-typed tensor whose stored values are not all
    allowed, the iteration fails with the rounding-error exception exactly
    when some value is farther than the configured tolerance from every
    integer, that is, from its rounding to the nearest integer; the strict
    [allowed] re-check is only reached within the tolerance, where rounded
    values that are still not allowed fail with the not-representable
    exception.  The tolerance is the binary64 number 1e-2 unless the
    environment sets ERROR_THRESH, and is then the value read from it. *)
Theorem sanitize_rounding_error_iff (tensor_name : string) (st : exec_state)
    (current_values : ndarray) (th : Q) :
  let dtype := get_tensor_datatype model tensor_name in
  let outcome := fst (step tensor_name st) in
  DataType.is_integer dtype = true ->
  execution_context st !! tensor_name = Some current_values ->
  all_allowed dtype current_values = false ->
  thresh = Ok th ->
  ((outcome = Raise (RoundingErrorTooHigh (DataType.name dtype) tensor_name)
    <-> exists x, In x (data current_values) /\ far_from_integers th x)
   /\ (outcome = Raise (ValuesNotRepresentable (DataType.name dtype) tensor_name)
       -> Forall (fun x => ~ far_from_integers th x) (data current_values)
          /\ check_values = true
          /\ all_allowed dtype (np_map np_round current_values) = false)
   /\ (data current_values <> [] ->
       Forall (fun x => ~ far_from_integers th x) (data current_values) ->
       check_values = true ->
       all_allowed dtype (np_map np_round current_values) = false ->
       outcome = Raise (ValuesNotRepresentable (DataType.name dtype) tensor_name))
   /\ Forall2 nearest_even (data current_values)
        (data (np_map np_round current_values)))
  /\ (environ !! "ERROR_THRESH" = None ->
      th = default_error_thresh /\ th == round_to_format 53 (-1074) (1 # 100))
  /\ (forall s, environ !! "ERROR_THRESH" = Some s -> float_of_string s = Ok th).
Proof.
  intros dtype outcome Hint Hcur Hna Hth. subst outcome.
  split.
  2:{ unfold get_execution_error_thresh in Hth. split.
      - intros E. rewrite E in Hth. injection Hth as <-.
        split; [reflexivity | vm_compute; reflexivity].
      - intros s E. now rewrite E in Hth. }
  assert (Hfar : forall l,
             Forall (fun x => Qabs (x - np_round x) <= th) l
             <-> Forall (fun x => ~ far_from_integers th x) l).
  { intros l. split; intros HF; (eapply Forall_impl; [exact HF|]);
      intros x Hx; cbn beta in *.
    - intros Hf. apply far_from_rounding in Hf. lra.
    - destruct (Qlt_le_dec th (Qabs (x - np_round x))) as [H|H]; [|exact H].
      exfalso. apply Hx. now apply far_from_rounding. }
  assert (Hex : (exists x, In x (data current_values) /\ th < Qabs (x - np_round x))
                <-> exists x, In x (data current_values) /\ far_from_integers th x).
  { split; intros (x & Hx & H); exists x; (split; [exact Hx|]);
      now apply far_from_rounding. }
  assert (Hnear : Forall2 nearest_even (data current_values)
                    (data (np_map np_round current_values))).
  { unfold np_map. cbn [data]. apply Forall2_fmap_r, Forall_Forall2_diag.
    apply List.Forall_forall. intros x _. apply np_round_nearest. }
  rewrite <- Hex, <- !Hfar.
  unfold sanitize_tensor. fold dtype. rewrite Hint, Hcur, Hna. cbn [negb].
  destruct (py_max (abs_differences current_values (np_map np_round current_values)))
    as [m|e] eqn:Hm.
  - rewrite Hth. pose proof (max_error_within _ _ th Hm) as Hw.
    destruct (Qle_bool m th) eqn:Hle.
    + assert (HF : Forall (fun x => Qabs (x - np_round x) <= th) (data current_values))
        by now apply Hw.
      destruct check_values;
        destruct (all_allowed dtype (np_map np_round current_values)); cbn;
        (split; [split; [discriminate|]|split; [try discriminate|split; [|exact Hnear]]]);
        try (intros Hex'; apply not_all_within in Hex'; contradiction);
        try (intros; repeat split; (assumption || reflexivity));
        try congruence; intros; try reflexivity.
    + assert (HF : ~ Forall (fun x => Qabs (x - np_round x) <= th) (data current_values)).
      { intros HF. apply Hw in HF. discriminate. }
      cbn. split; [split; [intros _; now apply not_all_within | reflexivity]|].
      split; [discriminate | split; [intros; contradiction | exact Hnear]].
  - rewrite abs_differences_rounded in Hm.
    destruct (data current_values) as [|x l] eqn:Hd; [|discriminate].
    cbn in Hm. injection Hm as <-. cbn.
    split; [split; [discriminate | intros (x & [] & _)]|].
    split; [discriminate | split; [intros; congruence | exact Hnear]].
Qed.
End SanitizeTensor.

Section SanitizeLoop.
Variable float_of_string : string -> result Q.
Variables (environ : gmap string string) (model : ModelWrapper) (check_values : bool).

Local Abbreviation thresh := (get_execution_error_thresh float_of_string environ).
Local Abbreviation step := (sanitize_tensor float_of_string environ model check_values).
Local Abbreviation loop := (sanitize_loop float_of_string environ model check_values).
Local Abbreviation dt_of := (get_tensor_datatype model).

Lemma max_error_same (v : ndarray) :
  data v <> [] ->
  exists m, py_max (abs_differences v v) = Ok m /\ m == 0.
Proof.
  intros Hne.
  destruct (py_max_spec (abs_differences v v)) as (m & Hm & [HE _]).
  { intros E. apply abs_differences_nil in E; [contradiction | reflexivity]. }
  exists m. split; [exact Hm|].
  apply List.Exists_exists in HE as (x & Hx & Ex).
  pose proof (abs_differences_same v) as HF. rewrite List.Forall_forall in HF.
  rewrite <- Ex. now apply HF.
Qed.

(** An iteration never touches the entry of another tensor. *)
Lemma step_other (tensor_name other : string) (st : exec_state) :
  other <> tensor_name ->
  execution_context (snd (step tensor_name st)) !! other
  = execution_context st !! other.
Proof.
  intros Hne. unfold sanitize_tensor.
  destruct (negb _); [reflexivity|].
  destruct (execution_context st !! tensor_name) as [cur|]; [|reflexivity].
  destruct (all_allowed _ cur); cbn [snd execution_context];
    (destruct (py_max _); [|reflexivity]);
    (destruct thresh; [|reflexivity]);
    (destruct (Qle_bool _ _); [|reflexivity]);
    (destruct (check_values && _); cbn [snd execution_context]; [reflexivity|]);
    now rewrite lookup_insert_ne.
Qed.

(** An iteration on a tensor that needs no rounding succeeds (with a
    non-negative tolerance) and changes nothing. *)
Lemma step_needs_no_rounding (tensor_name : string) (st : exec_state) (th : Q) :
  thresh = Ok th -> 0 <= th ->
  needs_no_rounding model (execution_context st) tensor_name ->
  step tensor_name st = (Ok tt, st).
Proof.
  intros Hth Hpos [Hni|(v & Hv & Hne & Hal)]; unfold sanitize_tensor.
  - now rewrite Hni.
  - destruct (DataType.is_integer (dt_of tensor_name)); [|reflexivity].
    cbn [negb]. rewrite Hv, Hal.
    destruct (max_error_same v Hne) as (m & Hm & Hm0). rewrite Hm, Hth.
    assert (Hle : Qle_bool m th = true) by (apply Qle_bool_iff; lra).
    rewrite Hle, Hal, andb_false_r. f_equal.
    destruct st as [ctx w]. cbn [execution_context warnings] in *.
    f_equal. now apply insert_id.
Qed.

(** Whatever its outcome, an iteration leaves a stored tensor with all
    values allowed, and any tensor of a non-integer datatype, as it is. *)
Lemma step_keeps_allowed (tensor_name : string) (st : exec_state) (name : string) :
  (DataType.is_integer (dt_of name) = false
   \/ exists v, execution_context st !! name = Some v
                /\ all_allowed (dt_of name) v = true) ->
  execution_context (snd (step tensor_name st)) !! name
  = execution_context st !! name.
Proof.
  intros H. destruct (decide (name = tensor_name)) as [->|Hne];
    [|now apply step_other].
  unfold sanitize_tensor. destruct H as [Hni|(v & Hv & Hal)].
  - now rewrite Hni.
  - destruct (negb _); [reflexivity|]. rewrite Hv at 1. rewrite Hal.
    destruct (py_max _); [|reflexivity].
    destruct thresh; [|reflexivity].
    destruct (Qle_bool _ _); [|reflexivity].
    rewrite Hal, andb_false_r. cbn [snd execution_context].
    now rewrite lookup_insert_eq.
Qed.

(** The frame of the whole loop. *)
Lemma loop_frame (node_tensors : list string) (st : exec_state) (name : string) :
  (~ In name node_tensors
   \/ DataType.is_integer (dt_of name) = false
   \/ exists v, execution_context st !! name = Some v
                /\ all_allowed (dt_of name) v = true) ->
  execution_context (snd (loop node_tensors st)) !! name
  = execution_context st !! name.
Proof.
  revert st. induction node_tensors as [|t rest IH]; intros st H; [reflexivity|].
  cbn [sanitize_loop].
  assert (Hstep : execution_context (snd (step t st)) !! name
                  = execution_context st !! name).
  { destruct H as [H|H].
    - apply step_other. intros ->. apply H. now left.
    - now apply step_keeps_allowed. }
  destruct (step t st) as [[[]|e] st'] eqn:E; cbn [snd] in *; [|exact Hstep].
  rewrite IH; [exact Hstep|].
  destruct H as [H|[H|(v & Hv & Hal)]].
  - left. intros Hin. apply H. now right.
  - right. now left.
  - right. right. exists v. split; [congruence | exact Hal].
Qed.

(** C5 (amended). A tensor whose datatype is not integer-like, or whose
    stored, non-empty values are all allowed, passes its iteration without
    a failure and without a change when the configured tolerance is not
    negative; and whatever the tolerance and the outcome, the call never
    modifies the entry of such a tensor nor of a name outside the given
    tensor names. *)
Theorem sanitize_leaves_allowed_untouched
    (node_tensors : list string) (st : exec_state) (name : string) :
  (forall th, thresh = Ok th -> 0 <= th ->
     needs_no_rounding model (execution_context st) name ->
     step name st = (Ok tt, st))
  /\ (needs_no_rounding model (execution_context st) name \/ ~ In name node_tensors ->
      execution_context
        (snd (sanitize_quant_values float_of_string environ model node_tensors
                check_values st)) !! name
      = execution_context st !! name).
Proof.
  split; [intros th Hth Hpos; now apply (step_needs_no_rounding name st th)|].
  intros H.
  assert (E : snd (sanitize_quant_values float_of_string environ model node_tensors
                     check_values st) = snd (loop node_tensors st)).
  { unfold sanitize_quant_values. destruct (loop node_tensors st) as [[[]|e] s]; reflexivity. }
  rewrite E. apply loop_frame.
  destruct H as [[H|(v & Hv & _ & Hal)]|H]; [right; now left | | now left].
  right. right. eauto.
Qed.

(** *** Running the sanitizer twice *)

Lemma abs_differences_nonneg (v w : ndarray) :
  Forall (fun e => 0 <= e) (abs_differences v w).
Proof.
  unfold abs_differences. apply Forall_map, List.Forall_forall.
  intros x _. apply Qabs_nonneg.
Qed.

Lemma py_max_ok_nonneg (l : list Q) (m : Q) :
  py_max l = Ok m -> Forall (fun e => 0 <= e) l -> l <> [] /\ 0 <= m.
Proof.
  intros Hm HF.
  assert (Hne : l <> []) by (intros ->; discriminate).
  split; [exact Hne|].
  destruct (py_max_spec l Hne) as (m' & Hm' & [HE _]).
  rewrite Hm in Hm'. injection Hm' as <-.
  apply List.Exists_exists in HE as (x & Hx & Ex).
  rewrite List.Forall_forall in HF. specialize (HF x Hx). lra.
Qed.

Lemma abs_differences_nonempty (v w : ndarray) :
  abs_differences v w <> [] -> data v <> [] /\ data w <> [].
Proof.
  unfold abs_differences. destruct (data v), (data w); simpl; intros H;
    split; congruence.
Qed.

(** A successful iteration leaves its tensor settled and keeps the other
    settled tensors so. *)
Lemma step_ok_settles (tensor_name : string) (st st' : exec_state) (other : string) :
  step tensor_name st = (Ok tt, st') ->
  other = tensor_name
  \/ settled float_of_string environ model check_values (execution_context st) other ->
  settled float_of_string environ model check_values (execution_context st') other.
Proof.
  unfold sanitize_tensor. intros E H.
  destruct (DataType.is_integer (dt_of tensor_name)) eqn:Hint; cbn [negb] in E.
  2:{ injection E as <-. destruct H as [->|H]; [|exact H].
      intros Hi. simpl in Hi. congruence. }
  destruct (execution_context st !! tensor_name) as [cur|] eqn:Hcur; [|discriminate].
  set (upd := if all_allowed (dt_of tensor_name) cur then cur else np_map np_round cur) in *.
  destruct (py_max (abs_differences cur upd)) as [m|] eqn:Hm;
    [|destruct (all_allowed _ cur); discriminate].
  destruct thresh as [th|] eqn:Hth; [|destruct (all_allowed _ cur); discriminate].
  destruct (Qle_bool m th) eqn:Hle; [|destruct (all_allowed _ cur); discriminate].
  destruct (check_values && negb (all_allowed (dt_of tensor_name) upd)) eqn:Hchk;
    [destruct (all_allowed _ cur); discriminate|].
  assert (Ectx : execution_context st' = <[tensor_name := upd]> (execution_context st)).
  { destruct (all_allowed _ cur); injection E as <-; reflexivity. }
  destruct (py_max_ok_nonneg _ _ Hm (abs_differences_nonneg _ _)) as [Hne Hm0].
  apply abs_differences_nonempty in Hne as [_ Hne].
  apply Qle_bool_iff in Hle.
  destruct (decide (other = tensor_name)) as [->|Hneq].
  - intros _. exists upd, th. rewrite Ectx, lookup_insert_eq.
    repeat split; try assumption; try reflexivity; [lra|].
    subst upd. destruct (all_allowed (dt_of tensor_name) cur) eqn:Hal.
    + now left.
    + destruct check_values; cbn in Hchk.
      * left. now apply negb_false_iff in Hchk.
      * right. split; [reflexivity | apply np_map_round_idempotent].
  - destruct H as [H|H]; [contradiction|].
    intros Hi. destruct (H Hi) as (v & th' & Hv & Hrest).
    exists v, th'. rewrite Ectx, lookup_insert_ne by congruence. now split.
Qed.

Lemma loop_ok_settles (node_tensors : list string) (st st' : exec_state) (name : string) :
  loop node_tensors st = (Ok tt, st') ->
  In name node_tensors
  \/ settled float_of_string environ model check_values (execution_context st) name ->
  settled float_of_string environ model check_values (execution_context st') name.
Proof.
  revert st. induction node_tensors as [|t rest IH]; intros st E H.
  - injection E as <-. destruct H as [[]|H]. exact H.
  - cbn [sanitize_loop] in E.
    destruct (step t st) as [[[]|e] s] eqn:Es; [|discriminate].
    apply (IH s E).
    destruct (in_dec string_dec name rest) as [Hin|Hnin]; [now left|]. right.
    apply (step_ok_settles t st s name Es).
    destruct H as [[->|Hin]|H]; [now left | contradiction | now right].
Qed.

(** On a settled tensor an iteration succeeds and stores what was there. *)
Lemma step_settled (tensor_name : string) (st : exec_state) :
  settled float_of_string environ model check_values (execution_context st) tensor_name ->
  exists st', step tensor_name st = (Ok tt, st')
              /\ execution_context st' = execution_context st.
Proof.
  intros H. unfold sanitize_tensor.
  destruct (DataType.is_integer (dt_of tensor_name)) eqn:Hint; cbn [negb];
    [|eexists; split; reflexivity].
  destruct (H Hint) as (v & th & Hv & Hne & Hth & Hpos & Hcase).
  rewrite Hv.
  destruct (max_error_same v Hne) as (m & Hm & Hm0).
  assert (Hle : Qle_bool m th = true) by (apply Qle_bool_iff; lra).
  destruct (all_allowed (dt_of tensor_name) v) eqn:Hal.
  - rewrite Hm, Hth, Hle, Hal, andb_false_r.
    eexists. split; [reflexivity|]. cbn [execution_context]. now apply insert_id.
  - destruct Hcase as [Hc|[Hc Hr]]; [discriminate|].
    rewrite Hr, Hm, Hth, Hle, Hc. cbn [andb].
    eexists. split; [reflexivity|]. cbn [execution_context]. now apply insert_id.
Qed.

Lemma loop_settled (node_tensors : list string) (st : exec_state) :
  (forall name, In name node_tensors ->
     settled float_of_string environ model check_values (execution_context st) name) ->
  exists st', loop node_tensors st = (Ok tt, st')
              /\ execution_context st' = execution_context st.
Proof.
  revert st. induction node_tensors as [|t rest IH]; intros st H.
  - eexists. split; reflexivity.
  - cbn [sanitize_loop].
    destruct (step_settled t st (H t (or_introl eq_refl))) as (s & Es & Ec).
    rewrite Es. destruct (IH s) as (st' & E' & Ec').
    + intros name Hin. rewrite Ec. apply H. now right.
    + exists st'. split; [exact E' | congruence].
Qed.

(** C4 (amended). When a call of the sanitizer succeeds, a second call
    with the same arguments on the resulting store succeeds and returns
    the same store: the second pass finds every integer-typed tensor either
    with all values allowed or, when the strict check is off, equal to its
    own rounding. *)
Theorem sanitize_twice
    (node_tensors : list string) (st st1 : exec_state) (ctx1 : gmap string ndarray) :
  sanitize_quant_values float_of_string environ model node_tensors check_values st
  = (Ok ctx1, st1) ->
  (exists st2,
     sanitize_quant_values float_of_string environ model node_tensors check_values st1
     = (Ok ctx1, st2)
     /\ execution_context st2 = ctx1)
  /\ (forall name, In name node_tensors ->
        DataType.is_integer (dt_of name) = true ->
        exists v, ctx1 !! name = Some v
                  /\ (all_allowed (dt_of name) v = true
                      \/ (check_values = false /\ np_map np_round v = v))).
Proof.
  unfold sanitize_quant_values. intros E.
  destruct (loop node_tensors st) as [[[]|e] s] eqn:El; [|discriminate].
  injection E as <- <-.
  assert (Hs : forall name, In name node_tensors ->
             settled float_of_string environ model check_values
               (execution_context s) name).
  { intros name Hin. apply (loop_ok_settles node_tensors st s name El). now left. }
  split.
  - destruct (loop_settled node_tensors s Hs) as (st2 & E2 & Ec).
    exists st2. rewrite E2, Ec. split; reflexivity.
  - intros name Hin Hint.
    destruct (Hs name Hin Hint) as (v & th & Hv & _ & _ & _ & Hcase). eauto.
Qed.
End SanitizeLoop.

(** ** [gen_finn_dt_tensor] *)

(** Integers of magnitude up to 2^24 are binary32 numbers. *)
Lemma float32_of_Z_exact (z : Z) :
  (- 2 ^ 24 <= z <= 2 ^ 24)%Z -> float32_of_Z z = z.
Proof.
  intros H. unfold float32_of_Z.
  destruct (Z.abs z <? 2 ^ 24)%Z eqn:E; [reflexivity|].
  apply Z.ltb_ge in E.
  assert (Hz : z = (2 ^ 24)%Z \/ z = (- 2 ^ 24)%Z) by lia.
  destruct Hz as [-> | ->]; reflexivity.
Qed.


Section GeneratorProps.
Context {FR : FloatRounding} {NR : NumpyRandom} {PR : PyRandom}.
Context {NL : NumpyRandomLaws NR}.
Variable DataType_getitem : string -> result DataType.t.

Local Abbreviation gen := (gen_finn_dt_tensor DataType_getitem).
Local Abbreviation draw := (draw_tensor_values DataType_getitem).

(** An array of integers converted to the float32 container. *)
Lemma astype_float32_int_array (size : list Z) (dt : np_dtype) (vs : list Z) :
  is_float_dtype dt = false ->
  data (astype_float32 (int_array size dt vs))
  = map (fun v => inject_Z (float32_of_Z v)) vs.
Proof.
  intros Hdt. unfold astype_float32, int_array. cbn [data dtype shape].
  rewrite Hdt, map_map. apply map_ext. intros v. now rewrite Qfloor_Z.
Qed.

Lemma gen_unfold (finn_dt : DataType.t) (tensor_shape : list Z)
    (rmin rmax : option Q) (seed : Z) (w : process_state) (t : ndarray) :
  fst (gen finn_dt tensor_shape rmin rmax seed w) = Ok t ->
  exists rng tensor_values,
    RandomState_seed seed = Ok rng
    /\ draw finn_dt tensor_shape rmin rmax rng = Ok tensor_values
    /\ t = (if dt_is finn_dt "FLOAT16" then astype_float16 tensor_values
            else astype_float32 tensor_values).
Proof.
  unfold gen_finn_dt_tensor. cbn [fst].
  destruct (RandomState_seed seed) as [rng|] eqn:Erng; [|discriminate].
  cbn [mbind result_bind].
  destruct (draw finn_dt tensor_shape rmin rmax rng) as [tv|] eqn:Etv; [|discriminate].
  cbn [mbind result_bind]. intros H. exists rng, tv.
  split; [reflexivity|]. split; [exact Etv|].
  destruct (dt_is finn_dt "FLOAT16"); injection H as <-; reflexivity.
Qed.




Lemma integer_branch_not_float16 (finn_dt : DataType.t) :
  integer_branch finn_dt = true -> dt_is finn_dt "FLOAT16" = false.
Proof.
  unfold integer_branch, dt_is. intros H.
  destruct (String.eqb (DataType.name finn_dt) "FLOAT16") eqn:E; [|reflexivity].
  apply String.eqb_eq in E. rewrite E in H. discriminate.
Qed.


(** On the integer branch the call returns a float32 tensor of the asked
    shape whenever the seed is accepted and the bounds form a non-empty
    interval inside the storage type of the datatype. *)
Lemma gen_integer_branch_returns (finn_dt : DataType.t) (tensor_shape : list Z)
    (lo hi : Z) (seed : Z) (w : process_state) (rng : RandomState)
    (np_dt : np_dtype) (tmin tmax : Z) :
  integer_branch finn_dt = true ->
  RandomState_seed seed = Ok rng ->
  DataType.to_numpy_dt finn_dt = Ok np_dt ->
  iinfo np_dt = Some (tmin, tmax) ->
  (tmin <= lo)%Z -> (lo < hi)%Z -> (hi <= tmax + 1)%Z ->
  Forall (fun d => 0 <= d)%Z tensor_shape ->
  exists t,
    fst (gen finn_dt tensor_shape (Some (inject_Z lo)) (Some (inject_Z hi)) seed w) = Ok t
    /\ shape t = tensor_shape
    /\ dtype t = np_float32
    /\ Z.of_nat (length (data t)) = prod_list tensor_shape.
Proof.
  intros Hb Hrng Hdt Hinfo H1 H2 H3 Hshape.
  destruct (randint_returns (inject_Z lo) (inject_Z hi) tensor_shape np_dt rng
              lo hi tmin tmax ltac:(reflexivity) ltac:(reflexivity) Hinfo H1 H2 H3 Hshape)
    as (vs & s' & Er & Hlen).
  unfold gen_finn_dt_tensor. cbn [fst]. rewrite Hrng. cbn [mbind result_bind].
  rewrite (integer_branch_not_float16 _ Hb).
  unfold integer_branch in Hb.
  apply andb_prop in Hb as [Hb Hint]. apply andb_prop in Hb as [Hbi Hbin].
  apply negb_true_iff in Hbi, Hbin.
  unfold draw_tensor_values. rewrite Hbi, Hbin, Hint. cbn [from_option].
  rewrite Hdt. cbn [mbind result_bind]. rewrite Er. cbn [fst mbind result_bind].
  eexists. split; [reflexivity|]. split; [reflexivity|]. split; [reflexivity|].
  unfold astype_float32, int_array. cbn [data]. now rewrite !length_map.
Qed.

(** C7. The generated tensor is a function of the datatype, the shape,
    the bounds and the seed alone: it does not depend on the generators
    shared by the process, and the call leaves them as they were. *)
Theorem gen_deterministic (finn_dt : DataType.t) (tensor_shape : list Z)
    (rmin rmax : option Q) (seed : Z) (w w' : process_state) :
  fst (gen finn_dt tensor_shape rmin rmax seed w)
  = fst (gen finn_dt tensor_shape rmin rmax seed w')
  /\ snd (gen finn_dt tensor_shape rmin rmax seed w) = w
  /\ gen finn_dt tensor_shape rmin rmax seed
       (snd (gen finn_dt tensor_shape rmin rmax seed w))
     = gen finn_dt tensor_shape rmin rmax seed w.
Proof. repeat split. Qed.
End GeneratorProps.

(** *** The example generator meets the interface *)

Lemma Qfloor_of_int (q : Q) (z : Z) : q == inject_Z z -> Qfloor q = z.
Proof. intros H. rewrite (Qfloor_comp _ _ H). apply Qfloor_Z. Qed.

Lemma Q_is_int_of_int (q : Q) (z : Z) : q == inject_Z z -> Q_is_int q = true.
Proof.
  intros H. unfold Q_is_int. apply Qeq_bool_iff.
  rewrite (Qfloor_of_int q z H). exact H.
Qed.

Lemma length_lcg_draws (n : nat) (s : Z) : length (fst (lcg_draws n s)) = n.
Proof.
  revert s. induction n as [|n IH]; intros s; [reflexivity|].
  cbn [lcg_draws]. specialize (IH (lcg_next s)).
  destruct (lcg_draws n (lcg_next s)) as [l s'']. cbn [fst length] in *. now rewrite IH.
Qed.

Lemma prod_list_nonneg (size : list Z) :
  Forall (fun d => 0 <= d)%Z size -> (0 <= prod_list size)%Z.
Proof.
  induction 1 as [|d size Hd HF IH]; cbn [prod_list fold_right]; [lia|].
  fold (prod_list size). nia.
Qed.

Lemma lcg_count_nonneg (size : list Z) :
  Forall (fun d => 0 <= d)%Z size -> lcg_count size = Ok (Z.to_nat (prod_list size)).
Proof.
  intros H. unfold lcg_count.
  assert (E : existsb (fun d => d <? 0)%Z size = false).
  { induction H as [|d size Hd HF IH]; [reflexivity|].
    cbn [existsb]. rewrite IH, orb_false_r. now apply Z.ltb_ge. }
  now rewrite E.
Qed.

Lemma lcg_random_laws : NumpyRandomLaws lcg_random.
Proof.
  constructor.
  - intros low high size dt s vs s'. cbn [randint lcg_random]. unfold lcg_randint.
    destruct (negb _); [discriminate|].
    destruct dt; cbn [iinfo]; try discriminate; reflexivity.
  - intros low high size dt s vs s' lo hi. cbn [randint lcg_random].
    unfold lcg_randint. intros E Hlo Hhi.
    destruct (negb _); [discriminate|].
    rewrite (Qfloor_of_int _ _ Hlo), (Qfloor_of_int _ _ Hhi) in E.
    destruct (iinfo dt) as [[tmin tmax]|]; [|discriminate].
    destruct (_ || _); [discriminate|].
    destruct (hi <=? lo)%Z eqn:Hle; [discriminate|]. apply Z.leb_gt in Hle.
    destruct (lcg_count size) as [n|]; [|discriminate].
    destruct (lcg_draws n s) as [raw s2]. injection E as <- <-.
    apply Forall_map, List.Forall_forall. intros r _.
    pose proof (Z.mod_pos_bound r (hi - lo)). lia.
  - intros low high size dt s lo hi tmin tmax Hlo Hhi Hdt H1 H2 H3 Hsize.
    cbn [randint lcg_random]. unfold lcg_randint.
    rewrite (Q_is_int_of_int _ _ Hlo), (Q_is_int_of_int _ _ Hhi). cbn [andb negb].
    rewrite (Qfloor_of_int _ _ Hlo), (Qfloor_of_int _ _ Hhi), Hdt.
    replace ((lo <? tmin) || (tmax + 1 <? hi))%Z with false by lia.
    replace (hi <=? lo)%Z with false by lia.
    rewrite (lcg_count_nonneg size Hsize).
    pose proof (length_lcg_draws (Z.to_nat (prod_list size)) s) as Hlen.
    destruct (lcg_draws (Z.to_nat (prod_list size)) s) as [raw s2].
    cbn [fst] in Hlen. do 2 eexists. split; [reflexivity|].
    rewrite length_map, Hlen.
    pose proof (prod_list_nonneg size Hsize). lia.
Qed.

(** ** [interleave_matrix_outer_dim_from_partitions] *)

Lemma block_app_l (len : nat) (l1 l2 : list Q) (k : nat) :
  (k * len + len <= length l1)%nat -> block len (l1 ++ l2) k = block len l1 k.
Proof.
  intros H. unfold block. rewrite drop_app_le by lia.
  rewrite take_app_le; [reflexivity|]. rewrite length_drop. lia.
Qed.

Lemma block_app_r (len : nat) (l1 l2 : list Q) (a k : nat) :
  length l1 = (a * len)%nat -> block len (l1 ++ l2) (a + k) = block len l2 k.
Proof.
  intros H. unfold block.
  replace ((a + k) * len)%nat with (length l1 + k * len)%nat by lia.
  now rewrite drop_app_add.
Qed.

Lemma block_whole (len : nat) (l : list Q) :
  length l = len -> block len l 0 = l.
Proof. intros H. unfold block. cbn [Nat.mul drop]. rewrite <- H. apply firstn_all. Qed.

Lemma length_flat_map_seq (f : nat -> list Q) (len m : nat) :
  (forall i, (i < m)%nat -> length (f i) = len) ->
  length (flat_map f (seq 0 m)) = (m * len)%nat.
Proof.
  induction m as [|m IH]; intros H; [reflexivity|].
  rewrite seq_S, flat_map_app, length_app, IH by (intros; apply H; lia).
  cbn [flat_map]. rewrite app_nil_r, H by lia. cbn [Nat.add]. lia.
Qed.

(** A block of a concatenation of equally long pieces is a block of one
    piece. *)
Lemma block_flat_map (F : nat -> list Q) (len q n p k : nat) :
  (forall j, (j < n)%nat -> length (F j) = (q * len)%nat) ->
  (p < n)%nat -> (k < q)%nat ->
  block len (flat_map F (seq 0 n)) (p * q + k) = block len (F p) k.
Proof.
  induction n as [|n IH]; intros HF Hp Hk; [lia|].
  rewrite seq_S, flat_map_app. cbn [flat_map Nat.add]. rewrite app_nil_r.
  assert (HL : length (flat_map F (seq 0 n)) = (n * (q * len))%nat)
    by (apply length_flat_map_seq; intros; apply HF; lia).
  destruct (decide (p = n)) as [->|Hne].
  - apply block_app_r. rewrite HL. apply Nat.mul_assoc.
  - assert (H1 : (p * q + k + 1 <= n * q)%nat) by nia.
    apply (Nat.mul_le_mono_r _ _ len) in H1.
    rewrite block_app_l by (rewrite HL; lia).
    apply IH; [intros; apply HF; lia | lia | exact Hk].
Qed.

Lemma block_flat_map_single (f : nat -> list Q) (len m k : nat) :
  (forall i, (i < m)%nat -> length (f i) = len) -> (k < m)%nat ->
  block len (flat_map f (seq 0 m)) k = f k.
Proof.
  intros Hf Hk.
  replace k with (k * 1 + 0)%nat at 1 by lia.
  rewrite (block_flat_map f len 1 m k 0); [| |exact Hk|lia].
  - apply block_whole, Hf, Hk.
  - intros j Hj. rewrite Hf by exact Hj. lia.
Qed.

Lemma reshape_unknown_first (arr : ndarray) (a b c : Z) :
  (0 <= a)%Z -> (0 < b)%Z -> (0 < c)%Z ->
  Z.of_nat (length (data arr)) = (a * b * c)%Z ->
  reshape arr [(-1)%Z; b; c] = Ok (mk_ndarray [a; b; c] (dtype arr) (data arr)).
Proof.
  intros Ha Hb Hc Hsize. unfold reshape, count_unknown.
  cbn [existsb List.filter].
  rewrite (proj2 (Z.ltb_ge b (-1))), (proj2 (Z.ltb_ge c (-1))) by lia.
  rewrite (proj2 (Z.eqb_neq b (-1))), (proj2 (Z.eqb_neq c (-1))) by lia.
  change (-1 <? -1)%Z with false. change (-1 =? -1)%Z with true.
  cbn [orb negb length prod_list fold_right map].
  rewrite (proj2 (Z.eqb_neq b (-1))), (proj2 (Z.eqb_neq c (-1))) by lia.
  change (-1 =? -1)%Z with true. cbn iota.
  rewrite Hsize.
  replace (a * b * c)%Z with (a * (b * (c * 1)))%Z by ring.
  assert (Hk : (0 < b * (c * 1))%Z) by (apply Z.mul_pos_pos; lia).
  rewrite Z.mod_mul, Z.div_mul by lia.
  rewrite (proj2 (Z.eqb_neq (b * (c * 1)) 0)) by lia.
  reflexivity.
Qed.

Lemma reshape_unknown_middle (arr : ndarray) (a b c : Z) :
  (0 <= a)%Z -> (0 < b)%Z -> (0 < c)%Z ->
  Z.of_nat (length (data arr)) = (b * a * c)%Z ->
  reshape arr [b; (-1)%Z; c] = Ok (mk_ndarray [b; a; c] (dtype arr) (data arr)).
Proof.
  intros Ha Hb Hc Hsize. unfold reshape, count_unknown.
  cbn [existsb List.filter].
  rewrite (proj2 (Z.ltb_ge b (-1))), (proj2 (Z.ltb_ge c (-1))) by lia.
  rewrite (proj2 (Z.eqb_neq b (-1))), (proj2 (Z.eqb_neq c (-1))) by lia.
  change (-1 <? -1)%Z with false. change (-1 =? -1)%Z with true.
  cbn [orb negb length prod_list fold_right map].
  rewrite (proj2 (Z.eqb_neq b (-1))), (proj2 (Z.eqb_neq c (-1))) by lia.
  change (-1 =? -1)%Z with true. cbn iota.
  rewrite Hsize.
  replace (b * a * c)%Z with (a * (b * (c * 1)))%Z by ring.
  assert (Hk : (0 < b * (c * 1))%Z) by (apply Z.mul_pos_pos; lia).
  rewrite Z.mod_mul, Z.div_mul by lia.
  rewrite (proj2 (Z.eqb_neq (b * (c * 1)) 0)) by lia.
  reflexivity.
Qed.

Section Interleave.
Context {FR : FloatRounding}.

(** The result of the function on a matrix with R rows and C columns. *)
Lemma interleave_computed (x : array_like) (matrix : ndarray) (R C n : nat) :
  to_float_container x = Ok matrix ->
  shape matrix = [Z.of_nat R; Z.of_nat C] ->
  length (data matrix) = (R * C)%nat ->
  (0 < n)%nat -> (0 < C)%nat -> (R mod n = 0)%nat ->
  interleave_matrix_outer_dim_from_partitions x (Z.of_nat n)
  = Ok (mk_ndarray [Z.of_nat n; Z.of_nat (R / n); Z.of_nat C] (dtype matrix)
          (flat_map (fun j =>
             flat_map (fun i => block C (data matrix) (i * n + j)) (seq 0 (R / n)))
             (seq 0 n))).
Proof.
  intros Hx Hshape Hsize Hn HC Hdiv.
  unfold interleave_matrix_outer_dim_from_partitions.
  rewrite Hx. cbn [mbind result_bind]. unfold ndim. rewrite Hshape.
  cbn [py_index lookup list_lookup length mbind result_bind].
  unfold py_mod. rewrite (proj2 (Z.eqb_neq (Z.of_nat n) 0)) by lia.
  cbn [mbind result_bind].
  rewrite <- Nat2Z.inj_mod, Hdiv. cbn [Z.of_nat Z.eqb py_assert Nat.eqb mbind result_bind].
  assert (HR : R = (R / n * n)%nat).
  { pose proof (Nat.div_mod_eq R n). lia. }
  rewrite (reshape_unknown_first matrix (Z.of_nat (R / n)) (Z.of_nat n) (Z.of_nat C))
    by (try lia; rewrite Hsize; nia).
  cbn [mbind result_bind]. unfold transpose_102. cbn [shape dtype data].
  rewrite !Nat2Z.id. cbn [mbind result_bind].
  rewrite (reshape_unknown_middle _ (Z.of_nat (R / n)) (Z.of_nat n) (Z.of_nat C));
    [reflexivity | lia | lia | lia |].
  cbn [data].
  rewrite (length_flat_map_seq _ (R / n * C) n).
  - lia.
  - intros j Hj. apply length_flat_map_seq. intros i Hi.
    apply length_block. rewrite Hsize.
    assert (H1 : (i * n + j + 1 <= R)%nat) by nia.
    apply (Nat.mul_le_mono_r _ _ C) in H1. lia.
Qed.

(** C8. For a matrix with R rows and C columns and a number of partitions
    that evenly divides R, the function returns an array of shape
    (n, R/n, C) in which row [i] of the matrix is row [i div n] of
    partition [i mod n]; a 4x2 matrix [r0, r1, r2, r3] with two partitions
    gives partition 0 = [r0, r2] and partition 1 = [r1, r3]. *)
Theorem interleave_round_robin (x : array_like) (matrix : ndarray) (R C n : nat) :
  to_float_container x = Ok matrix ->
  shape matrix = [Z.of_nat R; Z.of_nat C] ->
  length (data matrix) = (R * C)%nat ->
  (0 < n)%nat -> (0 < C)%nat -> (R mod n = 0)%nat ->
  (exists out,
     interleave_matrix_outer_dim_from_partitions x (Z.of_nat n) = Ok out
     /\ shape out = [Z.of_nat n; Z.of_nat (R / n); Z.of_nat C]
     /\ forall i, (i < R)%nat ->
          partition_row out (R / n) C (i mod n) (i / n) = matrix_row matrix C i)
  /\ (forall a0 a1 b0 b1 c0 c1 d0 d1 : Q,
        interleave_matrix_outer_dim_from_partitions
          (PyNdarray (mk_ndarray [4; 2]%Z np_float32 [a0; a1; b0; b1; c0; c1; d0; d1])) 2
        = Ok (mk_ndarray [2; 2; 2]%Z np_float32 [a0; a1; c0; c1; b0; b1; d0; d1])).
Proof.
  intros Hx Hshape Hsize Hn HC Hdiv. split; [|reflexivity].
  eexists. split; [apply (interleave_computed x matrix R C n); assumption|].
  split; [reflexivity|]. intros i Hi.
  unfold partition_row, matrix_row. cbn [data].
  assert (HR : R = (R / n * n)%nat).
  { pose proof (Nat.div_mod_eq R n). lia. }
  assert (Hq : (i / n < R / n)%nat).
  { apply Nat.Div0.div_lt_upper_bound. lia. }
  assert (Hp : (i mod n < n)%nat) by (apply Nat.mod_upper_bound; lia).
  rewrite (block_flat_map _ C (R / n) n (i mod n) (i / n)); try assumption.
  - rewrite (block_flat_map_single
               (fun k => block C (data matrix) (k * n + i mod n)) C (R / n) (i / n));
      try assumption.
    + f_equal. pose proof (Nat.div_mod_eq i n). lia.
    + intros k Hk. apply length_block. rewrite Hsize.
      assert (H1 : (k * n + i mod n + 1 <= R)%nat) by nia.
      apply (Nat.mul_le_mono_r _ _ C) in H1. lia.
  - intros j Hj. apply length_flat_map_seq. intros k Hk.
    apply length_block. rewrite Hsize.
    assert (H1 : (k * n + j + 1 <= R)%nat) by nia.
    apply (Nat.mul_le_mono_r _ _ C) in H1. lia.
Qed.
End Interleave.

(** ** [roundup_to_integer_multiple] and [pad_tensor_to_multiple_of] *)

Lemma bind_ok {A B} (m : result A) (f : A -> result B) (b : B) :
  (m ≫= f) = Ok b -> exists a, m = Ok a /\ f a = Ok b.
Proof. destruct m as [a|e]; [eauto | discriminate]. Qed.

Lemma py_assert_ok (b : bool) (msg : string) (u : unit) :
  py_assert b msg = Ok u -> b = true.
Proof. destruct b; [reflexivity | discriminate]. Qed.

Lemma roundup_spec (x factor t : Z) :
  roundup_to_integer_multiple x factor = Ok t -> target_size t (x, factor).
Proof.
  unfold roundup_to_integer_multiple, target_size, least_multiple_from.
  destruct (factor =? -1)%Z eqn:E1.
  - intros H. injection H as <-. left. split; [lia | reflexivity].
  - destruct ((0 <? factor) && (0 <? x))%Z eqn:E2; [|discriminate].
    apply andb_prop in E2 as [Hf Hx]. apply Z.ltb_lt in Hf, Hx.
    cbn [py_assert mbind result_bind]. intros H.
    right. split; [exact Hf|]. split; [exact Hx|].
    destruct (x <? factor)%Z eqn:E3.
    + injection H as <-. apply Z.ltb_lt in E3.
      split; [apply Z.divide_refl|]. split; [lia|].
      intros m [k ->] Hm.
      assert (0 < k)%Z by nia. nia.
    + apply Z.ltb_ge in E3. pose proof (Z.div_mod x factor ltac:(lia)) as Hdm.
      pose proof (Z.mod_pos_bound x factor Hf) as Hmod.
      destruct (x mod factor =? 0)%Z eqn:E4.
      * injection H as <-. apply Z.eqb_eq in E4.
        split; [exists (x / factor)%Z; lia|]. split; [lia|]. intros; lia.
      * injection H as <-. apply Z.eqb_neq in E4.
        split; [exists (x / factor + 1)%Z; lia|]. split; [lia|].
        intros m [k ->] Hm.
        assert (x / factor < k)%Z by nia. nia.
Qed.

Lemma roundup_fails (x factor : Z) :
  factor <> (-1)%Z -> (factor <= 0 \/ x <= 0)%Z ->
  is_ok (roundup_to_integer_multiple x factor) = false.
Proof.
  intros Hf H. unfold roundup_to_integer_multiple.
  rewrite (proj2 (Z.eqb_neq factor (-1))) by exact Hf.
  assert (E : ((0 <? factor) && (0 <? x))%Z = false).
  { apply andb_false_iff. destruct H; [left | right]; apply Z.ltb_ge; lia. }
  now rewrite E.
Qed.

Lemma result_mapM_ok {A B} (g : A -> result B) (l : list A) (ys : list B) :
  result_mapM g l = Ok ys -> Forall2 (fun y x => g x = Ok y) ys l.
Proof.
  revert ys. induction l as [|x l IH]; intros ys H; cbn [result_mapM] in H.
  - injection H as <-. constructor.
  - apply bind_ok in H as (y & Hy & H). apply bind_ok in H as (ys' & Hys & H).
    injection H as <-. constructor; [exact Hy | now apply IH].
Qed.

Lemma result_mapM_fails {A B} (g : A -> result B) (l : list A) (x : A) :
  In x l -> is_ok (g x) = false -> is_ok (result_mapM g l) = false.
Proof.
  induction l as [|y l IH]; intros Hin Hx; [destruct Hin|].
  cbn [result_mapM]. destruct Hin as [->|Hin].
  - destruct (g x); [discriminate | reflexivity].
  - destruct (g y); [|reflexivity]. cbn [mbind result_bind].
    specialize (IH Hin Hx). destruct (result_mapM g l); [discriminate | reflexivity].
Qed.

Lemma to_int32_ok (ds ds' : list Z) : result_mapM to_int32 ds = Ok ds' -> ds' = ds.
Proof.
  intros H. apply result_mapM_ok in H.
  induction H as [|y x ys l Hxy HF IH]; [reflexivity|]. f_equal; [|exact IH].
  unfold to_int32 in Hxy. destruct (_ && _); [now injection Hxy | discriminate].
Qed.

Section Padding.
Context {FR : FloatRounding}.

Lemma np_pad_dtype (a ret : ndarray) (pads : list (Z * Z)) (val : Q) :
  np_pad a pads val = Ok ret -> dtype ret = dtype a.
Proof.
  unfold np_pad. destruct pads as [|p pads]; [discriminate|].
  destruct (existsb _ _); [discriminate|].
  intros H. apply bind_ok in H as (pads' & _ & H). now injection H as <-.
Qed.

Lemma pad_shape (arr : array_like) (a ret : ndarray) (pad_to_dims : list Z)
    (val : Q) (distr_pad : bool) :
  to_float_container arr = Ok a ->
  pad_tensor_to_multiple_of arr pad_to_dims val distr_pad = Ok ret ->
  result_mapM (fun x => roundup_to_integer_multiple (fst x) (snd x))
    (zip (shape a) pad_to_dims) = Ok (shape ret)
  /\ dtype ret = dtype a.
Proof.
  intros Ha H. unfold pad_tensor_to_multiple_of in H. rewrite Ha in H.
  cbn [mbind result_bind] in H.
  apply bind_ok in H as (u & _ & H).
  apply bind_ok in H as (desired & Hdes & H).
  apply bind_ok in H as (desired' & Hdes' & H).
  apply to_int32_ok in Hdes'. subst desired'.
  apply bind_ok in H as (current & _ & H).
  apply bind_ok in H as (r & Hpad & H).
  apply bind_ok in H as (u' & Hassert & H). injection H as <-.
  apply py_assert_ok in Hassert. unfold shape_eqb in Hassert.
  apply bool_decide_eq_true in Hassert. rewrite Hassert. split; [exact Hdes|].
  exact (np_pad_dtype _ _ _ _ Hpad).
Qed.

(** C9 (amended). With a factor list of matching length, the function
    fails whenever some dimension has a factor other than -1 that is not
    positive, and whenever some dimension with a factor other than -1 has a
    size that is not positive; when it succeeds, the size of every
    dimension of the result is the size of the input if the factor is -1,
    and otherwise the least multiple of the factor that is at least the
    size of the input. *)
Theorem pad_to_multiple_targets (arr : array_like) (a : ndarray)
    (pad_to_dims : list Z) (val : Q) (distr_pad : bool) :
  to_float_container arr = Ok a ->
  length pad_to_dims = ndim a ->
  (forall x factor, In (x, factor) (zip (shape a) pad_to_dims) ->
     factor <> (-1)%Z -> (factor <= 0 \/ x <= 0)%Z ->
     is_ok (pad_tensor_to_multiple_of arr pad_to_dims val distr_pad) = false)
  /\ (forall ret, pad_tensor_to_multiple_of arr pad_to_dims val distr_pad = Ok ret ->
        Forall2 target_size (shape ret) (zip (shape a) pad_to_dims)).
Proof.
  intros Ha Hlen. split.
  - intros x factor Hin Hf Hbad.
    unfold pad_tensor_to_multiple_of. rewrite Ha. cbn [mbind result_bind].
    destruct (py_assert _ _); [|reflexivity]. cbn [mbind result_bind].
    pose proof (result_mapM_fails
                  (fun x => roundup_to_integer_multiple (fst x) (snd x))
                  _ (x, factor) Hin (roundup_fails x factor Hf Hbad)) as Hm.
    destruct (result_mapM _ (zip (shape a) pad_to_dims)); [discriminate | reflexivity].
  - intros ret Hret. destruct (pad_shape _ _ _ _ _ _ Ha Hret) as [Hm _].
    apply result_mapM_ok in Hm.
    eapply Forall2_impl; [exact Hm|].
    intros t [x factor] H. now apply roundup_spec.
Qed.

(** *** The float container is kept *)

Lemma to_float_container_dtype (x : array_like) (a : ndarray) :
  to_float_container x = Ok a -> dtype a = container_dtype x.
Proof.
  destruct x as [b|l]; cbn [to_float_container container_dtype np_asarray_float32].
  - destruct (_ || _); intros H; injection H as <-; reflexivity.
  - intros H. apply bind_ok in H as ([s d] & _ & H). now injection H as <-.
Qed.

Lemma container_dtype_float (x : array_like) :
  container_dtype x = np_float32 \/ container_dtype x = np_float16.
Proof.
  destruct x as [b|l]; cbn [container_dtype]; [|now left].
  destruct (dtype b); cbn; auto.
Qed.

Lemma reshape_dtype (a b : ndarray) (s : list Z) :
  reshape a s = Ok b -> dtype b = dtype a.
Proof.
  unfold reshape. destruct (existsb _ _); [discriminate|].
  destruct (count_unknown s) as [|[|k]]; [| |discriminate].
  - destruct (_ =? _)%Z; [|discriminate]. now intros H; injection H as <-.
  - destruct (_ || _); [discriminate|]. now intros H; injection H as <-.
Qed.

Lemma transpose_102_dtype (a b : ndarray) :
  transpose_102 a = Ok b -> dtype b = dtype a.
Proof.
  unfold transpose_102. destruct (shape a) as [|d0 [|d1 [|d2 [|]]]]; try discriminate.
  now intros H; injection H as <-.
Qed.

Lemma interleave_dtype (x : array_like) (n_partitions : Z) (out : ndarray) :
  interleave_matrix_outer_dim_from_partitions x n_partitions = Ok out ->
  dtype out = container_dtype x.
Proof.
  unfold interleave_matrix_outer_dim_from_partitions. intros H.
  apply bind_ok in H as (m & Hm & H).
  apply bind_ok in H as (shp0 & _ & H).
  apply bind_ok in H as (r & _ & H).
  apply bind_ok in H as (u & _ & H).
  apply bind_ok in H as (u' & _ & H).
  apply bind_ok in H as (shp1 & _ & H).
  apply bind_ok in H as (m1 & H1 & H).
  apply bind_ok in H as (m2 & H2 & H).
  apply bind_ok in H as (m3 & H3 & H). injection H as <-.
  rewrite (reshape_dtype _ _ _ H3), (transpose_102_dtype _ _ H2),
    (reshape_dtype _ _ _ H1).
  now apply to_float_container_dtype.
Qed.

(** C10. Whatever the storage of the input, an array returned by either
    layout helper is stored as float32 or float16: an input that is not a
    float32 or float16 array gives a float32 result, and a float32 or
    float16 array keeps its storage type. *)
Theorem layout_helpers_keep_float_container :
  (forall (x : array_like) (n_partitions : Z) (out : ndarray),
     interleave_matrix_outer_dim_from_partitions x n_partitions = Ok out ->
     dtype out = container_dtype x
     /\ (dtype out = np_float32 \/ dtype out = np_float16))
  /\ (forall (x : array_like) (pad_to_dims : list Z) (val : Q) (distr_pad : bool)
        (ret : ndarray),
        pad_tensor_to_multiple_of x pad_to_dims val distr_pad = Ok ret ->
        dtype ret = container_dtype x
        /\ (dtype ret = np_float32 \/ dtype ret = np_float16)).
Proof.
  split.
  - intros x n out H. apply interleave_dtype in H. rewrite H.
    split; [reflexivity | apply container_dtype_float].
  - intros x dims val distr ret H.
    assert (Hc : exists a, to_float_container x = Ok a).
    { unfold pad_tensor_to_multiple_of in H. apply bind_ok in H as (a & Ha & _). eauto. }
    destruct Hc as (a & Ha).
    destruct (pad_shape _ _ _ _ _ _ Ha H) as [_ Hd].
    rewrite Hd, (to_float_container_dtype _ _ Ha).
    split; [reflexivity | apply container_dtype_float].
Qed.
End Padding.

(** ** The properties on concrete inputs *)

Ltac fits_number :=
  match goal with
  | |- fits _ ?q =>
      let v := eval vm_compute in (Qfloor q) in
      exists v, 0%Z;
      split; [vm_compute; reflexivity | split; [reflexivity | split; discriminate]]
  end.

Ltac within_range :=
  match goal with
  | |- finite_in _ _ => vm_compute; discriminate
  end.

Ltac no_overflow_2x2 :=
  intros j Hj; destruct j as [|[|j]]; [| |lia];
  (split;
   [intros i Hi; destruct i as [|[|i]]; [| |lia]; within_range
   |change (row_by_row 2) with (Added (Operand 0) (Operand 1));
    cbn [sums_finite]; repeat split; within_range]).

(** The arithmetic on the example matrix is exact in binary64. *)
Lemma example_matrix_exact :
  exact_arithmetic example_matrix INT8 2 2
    (np_result_type (dtype example_matrix) (example_bounds_dtype INT8))
    (row_by_row 2).
Proof.
  change (np_result_type (dtype example_matrix) (example_bounds_dtype INT8))
    with np_float64.
  change (row_by_row 2) with (Added (Operand 0) (Operand 1)).
  split; [fits_number|]. split; [fits_number|]. split.
  - intros i j Hi Hj.
    destruct i as [|[|i]]; [| |lia]; (destruct j as [|[|j]]; [| |lia]);
      (split; [fits_number | split; fits_number]).
  - intros j Hj.
    destruct j as [|[|j]]; [| |lia]; cbn [sums_fit exact_sum];
      repeat split; fits_number.
Qed.

Lemma matvec_accumulator_range_tight_witness :
  exists min_value max_value,
    @calculate_matvec_accumulator_range binary_rounding row_by_row
      example_bounds_dtype example_matrix INT8 = Ok (min_value, max_value)
    /\ is_max_of (map (column_upper example_matrix INT8 2 2) (seq 0 2)) max_value
    /\ is_min_of (map (column_lower example_matrix INT8 2 2) (seq 0 2)) min_value.
Proof.
  destruct (@matvec_accumulator_range_tight binary_rounding row_by_row
              example_bounds_dtype binary_rounding_laws example_matrix INT8 2 2)
    as (mn & mx & H1 & H2 & H3 & _).
  - reflexivity.
  - reflexivity.
  - lia.
  - vm_compute. discriminate.
  - unfold adds_each_once. reflexivity.
  - exact example_matrix_exact.
  - exists mn, mx. auto.
Defined.

(** In binary64 the sum of 127 * 2^60 and 127 is rounded to 127 * 2^60: the
    returned maximum is neither the exact column sum nor a bound on
    [x . A], which exceeds it for the vector of two 127s. *)
Lemma matvec_range_rounded_sum :
  shape large_and_small = [2; 1]%Z
  /\ DataType.min INT8 <= DataType.max INT8
  /\ adds_each_once (row_by_row 2) 2
  /\ @calculate_matvec_accumulator_range binary_rounding row_by_row
       example_bounds_dtype large_and_small INT8
     = Ok (inject_Z (- 128 * 2 ^ 60), inject_Z (127 * 2 ^ 60))
  /\ in_box INT8 2 [127; 127]
  /\ inject_Z (127 * 2 ^ 60) < vec_times_column large_and_small 2 1 [127; 127] 0
  /\ ~ is_max_of (map (column_upper large_and_small INT8 2 1) (seq 0 1))
         (inject_Z (127 * 2 ^ 60)).
Proof.
  split; [reflexivity|]. split; [vm_compute; discriminate|].
  split; [unfold adds_each_once; reflexivity|].
  split; [vm_compute; reflexivity|]. split; [|split].
  - split; [reflexivity|].
    repeat apply List.Forall_cons; try apply List.Forall_nil;
      split; vm_compute; discriminate.
  - vm_compute. reflexivity.
  - intros [HE _]. apply List.Exists_exists in HE as (x & Hin & Hx).
    cbn [map seq] in Hin. destruct Hin as [<-|[]].
    vm_compute in Hx. discriminate.
Qed.


Example signed_dot_prod_range_corners_INT8 :
  exists lo hi,
    calculate_signed_dot_prod_range INT8 INT8 4 = Ok (lo, hi)
    /\ is_min_of (scaled_corners INT8 INT8 4) lo
    /\ is_max_of (scaled_corners INT8 INT8 4) hi.
Proof.
  destruct (signed_dot_prod_range_corners INT8 INT8 4)
    as (lo & hi & H1 & H2 & H3 & _);
    try reflexivity; try lia.
  - apply List.Exists_cons_tl, List.Exists_cons_hd. vm_compute. discriminate.
  - apply List.Exists_cons_hd. vm_compute. discriminate.
  - exists lo, hi. auto.
Qed.

Lemma sanitize_rounding_error_iff_witness :
  fst (sanitize_tensor example_float_of_string ∅ example_model true "y" example_state)
  = Raise (RoundingErrorTooHigh
             (DataType.name (get_tensor_datatype example_model "y")) "y")
  <-> exists x, In x [3 # 2] /\ far_from_integers default_error_thresh x.
Proof.
  exact (proj1 (proj1 (sanitize_rounding_error_iff example_float_of_string ∅
                         example_model true "y" example_state
                         (vector np_float32 [3 # 2]) default_error_thresh
                         eq_refl eq_refl eq_refl eq_refl))).
Defined.

(** Without the strict check a rounded value outside the range is stored;
    the second pass does not find it allowed, rounds it again and warns
    again. *)
Lemma sanitize_second_pass_finds_disallowed :
  example_sanitize ["big"] false example_state
  = (Ok rounded_store, mk_state rounded_store [("big", "INT8")])
  /\ example_sanitize ["big"] false (mk_state rounded_store [("big", "INT8")])
     = (Ok rounded_store, mk_state rounded_store [("big", "INT8"); ("big", "INT8")])
  /\ rounded_store !! "big" = Some (vector np_float32 [300])
  /\ DataType.is_integer (get_tensor_datatype example_model "big") = true
  /\ all_allowed (get_tensor_datatype example_model "big") (vector np_float32 [300])
     = false.
Proof. repeat split. Qed.

Lemma sanitize_twice_witness :
  exists st2,
    example_sanitize ["big"; "x"; "scale"] false
      (snd (example_sanitize ["big"; "x"; "scale"] false example_state))
    = (fst (example_sanitize ["big"; "x"; "scale"] false example_state), st2).
Proof.
  destruct (sanitize_twice example_float_of_string ∅ example_model false
              ["big"; "x"; "scale"] example_state
              (snd (example_sanitize ["big"; "x"; "scale"] false example_state))
              (execution_context
                 (snd (example_sanitize ["big"; "x"; "scale"] false example_state))))
    as [(st2 & H & _) _].
  - reflexivity.
  - exists st2. exact H.
Defined.

(** With a negative tolerance a tensor with all values allowed fails the
    tolerance check. *)
Lemma sanitize_allowed_fails_negative_tolerance :
  DataType.is_integer (get_tensor_datatype example_model "w") = true
  /\ example_store !! "w" = Some (vector np_float32 [1; 2])
  /\ all_allowed (get_tensor_datatype example_model "w") (vector np_float32 [1; 2]) = true
  /\ get_execution_error_thresh example_float_of_string negative_tolerance = Ok (- 1)
  /\ sanitize_tensor example_float_of_string negative_tolerance example_model false
       "w" example_state
     = (Raise (RoundingErrorTooHigh "INT8" "w"), example_state).
Proof. repeat split. Qed.

(** An integer-typed tensor without elements has no largest rounding
    difference. *)
Example sanitize_empty_tensor_raises :
  all_allowed INT8 (vector np_float32 []) = true
  /\ fst (sanitize_tensor example_float_of_string ∅ example_model false "e"
            (mk_state {[ "e" := vector np_float32 [] ]} []))
     = Raise (ValueError "max() arg is an empty sequence").
Proof. split; reflexivity. Qed.

Lemma sanitize_leaves_allowed_untouched_witness :
  sanitize_tensor example_float_of_string ∅ example_model true "w" example_state
  = (Ok tt, example_state)
  /\ execution_context (snd (example_sanitize ["x"; "w"; "y"] true example_state)) !! "w"
     = example_store !! "w"
  /\ execution_context (snd (example_sanitize ["x"; "w"; "y"] true example_state)) !! "big"
     = example_store !! "big".
Proof.
  assert (Hw : needs_no_rounding example_model (execution_context example_state) "w").
  { right. exists (vector np_float32 [1; 2]).
    split; [reflexivity|]. split; [discriminate | reflexivity]. }
  split; [|split].
  - apply (proj1 (sanitize_leaves_allowed_untouched example_float_of_string ∅
                    example_model true [] example_state "w") default_error_thresh);
      [reflexivity | vm_compute; discriminate | exact Hw].
  - apply (proj2 (sanitize_leaves_allowed_untouched example_float_of_string ∅
                    example_model true ["x"; "w"; "y"] example_state "w")).
    left. exact Hw.
  - apply (proj2 (sanitize_leaves_allowed_untouched example_float_of_string ∅
                    example_model true ["x"; "w"; "y"] example_state "big")).
    right. intros [H|[H|[H|[]]]]; discriminate.
Defined.



(** Both values of the bipolar and of the binary type occur. *)
Example gen_bipolar_both_values :
  gen_example BIPOLAR [6]%Z None None 42%Z
  = Ok (mk_ndarray [6]%Z np_float32 [1; 1; 1; 1; - 1; 1])
  /\ gen_example BINARY [2; 3]%Z None None 42%Z
     = Ok (mk_ndarray [2; 3]%Z np_float32 [1; 1; 1; 1; 0; 1]).
Proof. split; reflexivity. Qed.

(** [random_string], by contrast, reads and advances the generator of the
    process. *)
Example random_string_uses_shared_state :
  fst (@random_string lcg_random lcg_py_random 6 example_process)
  <> fst (@random_string lcg_random lcg_py_random 6
            (snd (@random_string lcg_random lcg_py_random 6 example_process))).
Proof. vm_compute. discriminate. Qed.

Lemma interleave_round_robin_witness :
  exists out,
    @interleave_matrix_outer_dim_from_partitions exact_rounding
      (PyNdarray example_rows) 2%Z = Ok out
    /\ shape out = [2; 2; 2]%Z
    /\ forall i, (i < 4)%nat ->
         partition_row out 2 2 (i mod 2) (i / 2) = matrix_row example_rows 2 i.
Proof.
  apply (proj1 (@interleave_round_robin exact_rounding (PyNdarray example_rows)
                  example_rows 4 2 2 eq_refl eq_refl eq_refl
                  ltac:(lia) ltac:(lia) eq_refl)).
Defined.

(** A dimension of size 0 with factor -1 is left alone, and the call
    succeeds. *)
Lemma pad_zero_size_unconstrained :
  In (0, -1)%Z (zip (shape empty_rows) [-1; -1]%Z)
  /\ @pad_tensor_to_multiple_of exact_rounding (PyNdarray empty_rows) [-1; -1]%Z 0 false
     = Ok empty_rows.
Proof. split; [left; reflexivity | reflexivity]. Qed.

Lemma pad_to_multiple_targets_witness :
  is_ok (@pad_tensor_to_multiple_of exact_rounding (PyNdarray example_int_array)
           [0; -1]%Z 0 false) = false
  /\ Forall2 target_size [8; 3]%Z (zip (shape example_int_array) [4; -1]%Z).
Proof.
  split.
  - apply (proj1 (@pad_to_multiple_targets exact_rounding (PyNdarray example_int_array)
                    (astype_float32 example_int_array) [0; -1]%Z 0 false
                    eq_refl eq_refl) 5%Z 0%Z);
      [left; reflexivity | lia | lia].
  - apply (proj2 (@pad_to_multiple_targets exact_rounding (PyNdarray example_int_array)
                    (astype_float32 example_int_array) [4; -1]%Z 0 false
                    eq_refl eq_refl)
             (mk_ndarray [8; 3]%Z np_float32
                [1; 2; 3; 4; 5; 6; 7; 8; 9; 10; 11; 12; 13; 14; 15;
                 0; 0; 0; 0; 0; 0; 0; 0; 0])).
    reflexivity.
Defined.

Lemma layout_helpers_keep_float_container_witness :
  dtype (mk_ndarray [2; 1; 2]%Z np_float32 [1; 2; 3; 4]) = np_float32
  /\ dtype (mk_ndarray [8; 3]%Z np_float32
              [1; 2; 3; 4; 5; 6; 7; 8; 9; 10; 11; 12; 13; 14; 15;
               0; 0; 0; 0; 0; 0; 0; 0; 0]) = np_float32.
Proof.
  split.
  - apply (proj1 (proj1 (@layout_helpers_keep_float_container exact_rounding)
                    (PyList example_nested) 2%Z _ eq_refl)).
  - apply (proj1 (proj2 (@layout_helpers_keep_float_container exact_rounding)
                    (PyNdarray example_int_array) [4; -1]%Z 0 false _ eq_refl)).
Defined.

Local Open Scope Q_scope.

(** * Further properties *)

(** ** [get_by_name] and [remove_by_name] *)

Section ByNameProps.
Context {A : Type} {A_eq_dec : EqDecision A}.
Variable getattr : A -> string -> string.
Variables (name name_field : string).

Local Abbreviation matches := (fun x : A => String.eqb (getattr x name_field) name).

(** The indices collected by the comprehension, counted from [s]. *)
Lemma matching_from (s : nat) (container : list A) :
  map fst (List.filter (fun ie => String.eqb (snd ie) name)
             (combine (seq s (length container))
                (map (fun x => getattr x name_field) container)))
  = match List.filter matches container with
    | [] => []
    | _ :: _ =>
        map fst (List.filter (fun ie => String.eqb (snd ie) name)
                   (combine (seq s (length container))
                      (map (fun x => getattr x name_field) container)))
    end
  /\ length (List.filter (fun ie => String.eqb (snd ie) name)
               (combine (seq s (length container))
                  (map (fun x => getattr x name_field) container)))
     = length (List.filter matches container).
Proof.
  revert s. induction container as [|x l IH]; intros s; cbn; [split; reflexivity|].
  destruct (IH (S s)) as [IH1 IH2].
  destruct (String.eqb (getattr x name_field) name); cbn.
  - split; [reflexivity | now rewrite IH2].
  - split; [exact IH1 | exact IH2].
Qed.

Lemma length_matching_indices (container : list A) :
  length (matching_indices (map (fun x => getattr x name_field) container) name)
  = length (List.filter matches container).
Proof.
  unfold matching_indices. rewrite length_map, length_map.
  apply (matching_from 0 container).
Qed.

(** The first collected index is the position of the first match. *)
Lemma first_matching_index (s : nat) (container : list A) (x : A) (rest : list A) :
  List.filter matches container = x :: rest ->
  exists l1 l2,
    container = l1 ++ x :: l2
    /\ List.filter matches l1 = []
    /\ List.filter matches l2 = rest
    /\ nth 0 (map fst (List.filter (fun ie => String.eqb (snd ie) name)
                         (combine (seq s (length container))
                            (map (fun x => getattr x name_field) container)))) 0%nat
       = (s + length l1)%nat.
Proof.
  revert s. induction container as [|y l IH]; intros s H; [discriminate|].
  cbn in H. cbn [length seq map combine List.filter snd].
  destruct (String.eqb (getattr y name_field) name) eqn:E.
  - injection H as -> <-. exists [], l.
    cbn [app length seq map combine List.filter snd fst nth]. rewrite ?E.
    cbn [map fst nth]. repeat split. lia.
  - destruct (IH (S s) H) as (l1 & l2 & -> & H1 & H2 & H3).
    exists (y :: l1), l2.
    cbn [app length seq map combine List.filter snd fst nth]. rewrite ?E.
    repeat split; try assumption.
    rewrite H3. cbn [length]. lia.
Qed.

Lemma get_by_name_filter (container : list A) :
  get_by_name getattr container name name_field
  = match List.filter matches container with
    | [] => Returns None
    | [x] => Returns (Some x)
    | _ :: _ :: _ =>
        Exception "Found multiple get_by_name matches, undefined behavior"
    end.
Proof.
  unfold get_by_name. rewrite length_matching_indices.
  destruct (List.filter matches container) as [|x [|y rest]] eqn:E; cbn [length];
    [reflexivity| |reflexivity].
  cbn [Nat.ltb Nat.leb Nat.eqb]. unfold matching_indices. rewrite length_map.
  destruct (first_matching_index 0 container x [] E) as (l1 & l2 & -> & _ & _ & ->).
  f_equal. cbn [Nat.add]. now rewrite list_lookup_middle.
Qed.

(** X1. [get_by_name] returns the only message whose field equals the
    name, [None] when there is none, and raises when there are several; a
    message it returns is in the container and has the name. *)
Theorem get_by_name_unique_match (container : list A) :
  get_by_name getattr container name name_field
  = match List.filter matches container with
    | [] => Returns None
    | [x] => Returns (Some x)
    | _ :: _ :: _ =>
        Exception "Found multiple get_by_name matches, undefined behavior"
    end
  /\ forall x, get_by_name getattr container name name_field = Returns (Some x) ->
                In x container /\ getattr x name_field = name.
Proof.
  split; [apply get_by_name_filter|].
  intros x. rewrite get_by_name_filter.
  destruct (List.filter matches container) as [|y [|z rest]] eqn:E;
    [discriminate| |discriminate].
  intros H. injection H as ->.
  assert (Hin : In x (List.filter matches container)) by (rewrite E; now left).
  apply filter_In in Hin as [Hin Hx]. split; [exact Hin|].
  now apply String.eqb_eq.
Qed.

Lemma filter_nil_Forall (l : list A) :
  List.filter matches l = [] -> Forall (fun y => matches y = false) l.
Proof.
  induction l as [|y l IH]; cbn; intros H; [constructor|].
  destruct (String.eqb (getattr y name_field) name) eqn:E; [discriminate|].
  constructor; [exact E | auto].
Qed.

Lemma filter_negb_unmatched (l : list A) :
  List.filter matches l = [] -> List.filter (fun y => negb (matches y)) l = l.
Proof.
  induction l as [|y l IH]; cbn; intros H; [reflexivity|].
  destruct (String.eqb (getattr y name_field) name) eqn:E; [discriminate|].
  cbn. now rewrite IH.
Qed.

Lemma remove_first_unmatched (l1 l2 : list A) (x : A) :
  matches x = true -> List.filter matches l1 = [] ->
  list_remove_first x (l1 ++ x :: l2) = Some (l1 ++ l2).
Proof.
  intros Hx. induction l1 as [|y l IH]; cbn; intros H.
  - now rewrite decide_True.
  - destruct (String.eqb (getattr y name_field) name) eqn:E; [discriminate|].
    rewrite decide_False by (intros ->; cbn in Hx; congruence).
    now rewrite IH.
Qed.

(** X2. [remove_by_name] removes the only message whose field equals the
    name and keeps every other message in its place; without a match the
    container is unchanged, and with several matches the call raises and
    the container is unchanged.  After a call that returns, no message
    with that name is found. *)
Theorem remove_by_name_removes_match (container : list A) :
  remove_by_name getattr container name name_field
  = match List.filter matches container with
    | [] => (Returns tt, container)
    | [_] => (Returns tt, List.filter (fun y => negb (matches y)) container)
    | _ :: _ :: _ =>
        (Exception "Found multiple get_by_name matches, undefined behavior",
         container)
    end
  /\ (forall u, fst (remove_by_name getattr container name name_field) = Returns u ->
      get_by_name getattr (snd (remove_by_name getattr container name name_field))
        name name_field = Returns None).
Proof.
  assert (H : remove_by_name getattr container name name_field
              = match List.filter matches container with
                | [] => (Returns tt, container)
                | [_] => (Returns tt, List.filter (fun y => negb (matches y)) container)
                | _ :: _ :: _ =>
                    (Exception "Found multiple get_by_name matches, undefined behavior",
                     container)
                end).
  { unfold remove_by_name. rewrite get_by_name_filter.
    destruct (List.filter matches container) as [|x [|y rest]] eqn:E;
      [reflexivity| |reflexivity].
    destruct (first_matching_index 0 container x [] E) as (l1 & l2 & -> & H1 & H2 & _).
    assert (Hx : matches x = true).
    { assert (Hin : In x (List.filter matches (l1 ++ x :: l2)))
        by (rewrite E; now left).
      now apply filter_In in Hin. }
    rewrite (remove_first_unmatched l1 l2 x Hx H1).
    rewrite List.filter_app. cbn [List.filter]. rewrite Hx. cbn [negb].
    now rewrite !filter_negb_unmatched. }
  split; [exact H|].
  intros u Hu. rewrite H in *. rewrite get_by_name_filter.
  destruct (List.filter matches container) as [|x [|y rest]] eqn:E; cbn [snd fst] in *.
  - now rewrite E.
  - assert (E' : List.filter matches
                   (List.filter (fun y => negb (matches y)) container) = []).
    { clear. induction container as [|y l IH]; [reflexivity|]. cbn.
      destruct (String.eqb (getattr y name_field) name) eqn:Ey; cbn; [exact IH|].
      now rewrite Ey. }
    now rewrite E'.
  - discriminate.
Qed.
End ByNameProps.

Lemma remove_by_name_removes_match_witness :
  get_by_name node_getattr
    (snd (remove_by_name node_getattr example_nodes "relu0" "name")) "relu0" "name"
  = Returns None.
Proof.
  apply (proj2 (remove_by_name_removes_match node_getattr "relu0" "name" example_nodes) tt).
  reflexivity.
Defined.

(** ** [roundup_to_integer_multiple] *)

(** X3. [roundup_to_integer_multiple] returns exactly when the factor is
    -1 or both arguments are positive; with positive arguments the result
    is [factor * ceil(x / factor)], and rounding the result up again
    changes nothing. *)
Theorem roundup_closed_form (x factor : Z) :
  (is_ok (roundup_to_integer_multiple x factor) = true
   <-> factor = (-1)%Z \/ (0 < factor /\ 0 < x)%Z)
  /\ ((0 < factor)%Z -> (0 < x)%Z ->
      roundup_to_integer_multiple x factor
      = Ok (factor * ((x + factor - 1) / factor))%Z
      /\ roundup_to_integer_multiple (factor * ((x + factor - 1) / factor))%Z factor
         = Ok (factor * ((x + factor - 1) / factor))%Z).
Proof.
  assert (Hform : forall y, (0 < factor)%Z -> (0 < y)%Z ->
            roundup_to_integer_multiple y factor
            = Ok (factor * ((y + factor - 1) / factor))%Z).
  { intros y Hf Hy. unfold roundup_to_integer_multiple.
    rewrite (proj2 (Z.eqb_neq factor (-1))) by lia.
    rewrite (proj2 (Z.ltb_lt 0 factor)), (proj2 (Z.ltb_lt 0 y)) by lia.
    cbn [andb py_assert mbind result_bind].
    pose proof (Z.div_mod y factor ltac:(lia)) as Hdm.
    pose proof (Z.mod_pos_bound y factor Hf) as Hmod.
    destruct (y <? factor)%Z eqn:E1.
    - apply Z.ltb_lt in E1. f_equal.
      assert ((y + factor - 1) / factor = 1)%Z; [|lia].
      symmetry. apply (Z.div_unique _ factor 1 (y - 1)); lia.
    - apply Z.ltb_ge in E1. destruct (y mod factor =? 0)%Z eqn:E2.
      + apply Z.eqb_eq in E2. f_equal.
        assert ((y + factor - 1) / factor = y / factor)%Z; [|lia].
        symmetry. apply (Z.div_unique _ factor _ (factor - 1)); lia.
      + apply Z.eqb_neq in E2. f_equal.
        assert ((y + factor - 1) / factor = y / factor + 1)%Z; [|lia].
        symmetry. apply (Z.div_unique _ factor _ (y mod factor - 1)); lia. }
  split.
  - unfold roundup_to_integer_multiple.
    destruct (factor =? -1)%Z eqn:E1.
    + apply Z.eqb_eq in E1. split; [now left | reflexivity].
    + apply Z.eqb_neq in E1.
      destruct (0 <? factor)%Z eqn:E2, (0 <? x)%Z eqn:E3; cbn;
        try apply Z.ltb_lt in E2; try apply Z.ltb_lt in E3;
        try apply Z.ltb_ge in E2; try apply Z.ltb_ge in E3.
      * split; [now right|]. intros _.
        destruct (x <? factor)%Z; [reflexivity|].
        destruct (x mod factor =? 0)%Z; reflexivity.
      * split; [discriminate | intros [?|[? ?]]; lia].
      * split; [discriminate | intros [?|[? ?]]; lia].
      * split; [discriminate | intros [?|[? ?]]; lia].
  - intros Hf Hx. split; [now apply Hform|].
    assert (Hq : (0 < (x + factor - 1) / factor)%Z).
    { apply Z.div_str_pos. lia. }
    rewrite Hform by nia. f_equal.
    assert (E : ((factor * ((x + factor - 1) / factor) + factor - 1) / factor
                 = (x + factor - 1) / factor)%Z).
    { symmetry. apply (Z.div_unique _ factor _ (factor - 1)); lia. }
    now rewrite E.
Qed.

Lemma roundup_closed_form_witness :
  roundup_to_integer_multiple 5 4 = Ok 8%Z
  /\ roundup_to_integer_multiple 8 4 = Ok 8%Z.
Proof.
  exact (proj2 (roundup_closed_form 5 4) ltac:(lia) ltac:(lia)).
Defined.

(** ** [pad_tensor_to_multiple_of] *)

Lemma wrap_int32_id (z : Z) : (- 2 ^ 31 <= z < 2 ^ 31)%Z -> wrap_int32 z = z.
Proof.
  intros H. unfold wrap_int32. rewrite Z.mod_small by lia. lia.
Qed.

Lemma to_int32_in_range (z : Z) :
  (- 2 ^ 31 <= z < 2 ^ 31)%Z -> to_int32 z = Ok z.
Proof.
  intros H. unfold to_int32.
  rewrite (proj2 (Z.leb_le _ _)), (proj2 (Z.ltb_lt _ _)) by lia. reflexivity.
Qed.

Lemma mapM_to_int32_ok (l : list Z) :
  Forall (fun z => - 2 ^ 31 <= z < 2 ^ 31)%Z l -> result_mapM to_int32 l = Ok l.
Proof.
  induction 1 as [|z l Hz HF IH]; [reflexivity|].
  cbn [result_mapM]. rewrite (to_int32_in_range z Hz), IH. reflexivity.
Qed.

Lemma concat_chunks (size count : nat) (l : list Q) :
  length l = (count * size)%nat -> concat (chunks size count l) = l.
Proof.
  revert l. induction count as [|c IH]; intros l H.
  - destruct l; [reflexivity | discriminate].
  - cbn [chunks concat]. rewrite IH by (rewrite length_drop; lia).
    apply take_drop.
Qed.

Lemma Forall_length_chunks (size count : nat) (l : list Q) :
  length l = (count * size)%nat ->
  Forall (fun r => length r = size) (chunks size count l).
Proof.
  revert l. induction count as [|c IH]; intros l H; cbn [chunks]; constructor.
  - rewrite length_take. lia.
  - apply IH. rewrite length_drop. lia.
Qed.

Lemma length_chunks (size count : nat) (l : list Q) :
  length (chunks size count l) = count.
Proof.
  revert l. induction count as [|c IH]; intros l; cbn [chunks length];
    [reflexivity | now rewrite IH].
Qed.

Lemma flat_map_fixed (f : list Q -> list Q) (l : list (list Q)) :
  Forall (fun r => f r = r) l -> flat_map f l = concat l.
Proof.
  induction 1 as [|r l Hr HF IH]; [reflexivity|].
  cbn [flat_map concat]. now rewrite Hr, IH.
Qed.

Lemma length_flat_map_const (f : list Q -> list Q) (l : list (list Q)) (k : nat) :
  Forall (fun r => length (f r) = k) l ->
  length (flat_map f l) = (length l * k)%nat.
Proof.
  induction 1 as [|r l Hr HF IH]; [reflexivity|].
  cbn [flat_map length]. rewrite length_app, Hr, IH. lia.
Qed.

Lemma padded_shape_nonneg (shp : list Z) (pads : list (Z * Z)) :
  Forall (fun d => 0 <= d)%Z shp ->
  Forall (fun p => 0 <= fst p /\ 0 <= snd p)%Z pads ->
  Forall (fun d => 0 <= d)%Z (padded_shape shp pads).
Proof.
  intros Hs. revert pads. induction Hs as [|n shp Hn Hs IH]; intros pads Hp.
  - constructor.
  - destruct Hp as [|[b a] pads [Hb Ha] Hp]; [constructor|].
    cbn [padded_shape zip_with fst snd]. constructor; [cbn in *; lia|].
    now apply IH.
Qed.

Lemma to_nat_prod_cons (n : Z) (shp : list Z) :
  (0 <= n)%Z -> Forall (fun d => 0 <= d)%Z shp ->
  Z.to_nat (prod_list (n :: shp)) = (Z.to_nat n * Z.to_nat (prod_list shp))%nat.
Proof.
  intros Hn Hs. cbn [prod_list fold_right]. fold (prod_list shp).
  pose proof (prod_list_nonneg shp Hs). now rewrite Z2Nat.inj_mul.
Qed.

(** Padding keeps the elements in step with the shape. *)
Lemma length_np_pad_data (val : Q) (shp : list Z) (pads : list (Z * Z)) (d : list Q) :
  length pads = length shp ->
  Forall (fun d => 0 <= d)%Z shp ->
  Forall (fun p => 0 <= fst p /\ 0 <= snd p)%Z pads ->
  length d = Z.to_nat (prod_list shp) ->
  length (np_pad_data shp pads val d) = Z.to_nat (prod_list (padded_shape shp pads)).
Proof.
  revert pads d. induction shp as [|n shp IH]; intros pads d Hlen Hs Hp Hd.
  - destruct pads; [exact Hd | discriminate].
  - destruct pads as [|[b a] pads]; [discriminate|].
    inversion Hs as [|? ? Hn Hs']; subst. inversion Hp as [|? ? [Hb Ha] Hp']; subst.
    cbn [fst snd] in Hb, Ha. cbn [np_pad_data padded_shape zip_with fst snd].
    fold (padded_shape shp pads).
    rewrite to_nat_prod_cons in Hd by assumption.
    assert (Hch : Forall (fun r => length r = Z.to_nat (prod_list shp))
                    (chunks (Z.to_nat (prod_list shp)) (Z.to_nat n) d))
      by (apply Forall_length_chunks; exact Hd).
    assert (Hps : Forall (fun d => 0 <= d)%Z (padded_shape shp pads))
      by (apply padded_shape_nonneg; assumption).
    rewrite (to_nat_prod_cons (b + n + a) _ ltac:(lia) Hps).
    rewrite !length_app, !repeat_length.
    rewrite (length_flat_map_const _ _ (Z.to_nat (prod_list (padded_shape shp pads)))).
    + rewrite length_chunks, !Z2Nat.inj_add by lia. lia.
    + eapply Forall_impl; [exact Hch|].
      intros r Hr. simpl in Hr. apply IH; try assumption.
      cbn in Hlen. lia.
Qed.

(** Padding by nothing returns the elements as they are. *)
Lemma np_pad_data_zero (val : Q) (shp : list Z) (d : list Q) :
  Forall (fun d => 0 <= d)%Z shp ->
  length d = Z.to_nat (prod_list shp) ->
  np_pad_data shp (map (fun _ => (0, 0)%Z) shp) val d = d
  /\ padded_shape shp (map (fun _ => (0, 0)%Z) shp) = shp.
Proof.
  intros Hs. revert d. induction Hs as [|n shp Hn Hs IH]; intros d Hd.
  - split; reflexivity.
  - rewrite to_nat_prod_cons in Hd by assumption.
    cbn [map np_pad_data padded_shape zip_with fst snd].
    fold (padded_shape shp (map (fun _ => (0, 0)%Z) shp)).
    assert (Hsh : padded_shape shp (map (fun _ => (0, 0)%Z) shp) = shp).
    { destruct (IH (repeat 0%Q (Z.to_nat (prod_list shp)))) as [_ H];
        [now rewrite repeat_length | exact H]. }
    rewrite Hsh. split; [|f_equal; lia].
    cbn [Z.to_nat Nat.mul repeat app]. rewrite app_nil_r.
    assert (Hch : Forall (fun r => length r = Z.to_nat (prod_list shp))
                    (chunks (Z.to_nat (prod_list shp)) (Z.to_nat n) d))
      by (apply Forall_length_chunks; exact Hd).
    rewrite flat_map_fixed; [now apply concat_chunks|].
    eapply Forall_impl; [exact Hch|].
    intros r Hr. simpl in Hr. now apply IH.
Qed.

(** The targets computed for a well-formed shape lie between the sizes
    and the int32 bound they are checked against. *)
Lemma desired_bounds (shp dims desired : list Z) :
  length dims = length shp ->
  Forall (fun d => 0 <= d)%Z shp ->
  result_mapM (fun x => roundup_to_integer_multiple (fst x) (snd x)) (zip shp dims)
  = Ok desired ->
  Forall (fun t => t < 2 ^ 31)%Z desired ->
  Forall2 (fun t x => 0 <= x <= t /\ t < 2 ^ 31)%Z desired shp.
Proof.
  revert dims desired. induction shp as [|x shp IH]; intros dims desired Hlen Hs Hm Hb.
  - cbn in Hm. injection Hm as <-. constructor.
  - destruct dims as [|f dims]; [discriminate|].
    cbn [zip zip_with result_mapM fst snd] in Hm.
    apply bind_ok in Hm as (t & Ht & Hm). apply bind_ok in Hm as (ts & Hts & Hm).
    injection Hm as <-. inversion Hs; subst. inversion Hb; subst.
    constructor.
    + apply roundup_spec in Ht. cbn [target_size] in Ht.
      destruct Ht as [[_ ->]|(_ & _ & _ & Hle & _)]; lia.
    + apply (IH dims); try assumption. cbn in Hlen. lia.
Qed.

Lemma pad_pairs_props (distr_pad : bool) (desired shp : list Z) :
  Forall2 (fun t x => 0 <= x <= t /\ t < 2 ^ 31)%Z desired shp ->
  (if distr_pad
   then map (fun x => (x / 2, wrap_int32 (x - x / 2))%Z)
          (zip_with (fun d c => wrap_int32 (d - c)) desired shp)
   else map (fun x => (0, x)%Z) (zip_with (fun d c => wrap_int32 (d - c)) desired shp))
  = pad_pairs distr_pad (zip_with Z.sub desired shp)
  /\ Forall (fun p => 0 <= fst p /\ 0 <= snd p)%Z
       (pad_pairs distr_pad (zip_with Z.sub desired shp))
  /\ padded_shape shp (pad_pairs distr_pad (zip_with Z.sub desired shp)) = desired
  /\ length (pad_pairs distr_pad (zip_with Z.sub desired shp)) = length shp.
Proof.
  induction 1 as [|t x desired shp [[Hx Ht] Hb] HF (IH1 & IH2 & IH3 & IH4)].
  - destruct distr_pad; repeat split; constructor.
  - assert (Hd : (0 <= (t - x) / 2 <= t - x)%Z).
    { split; [apply Z.div_pos; lia | apply Z.div_le_upper_bound; lia]. }
    unfold pad_pairs in *. destruct distr_pad;
      cbn [zip_with map padded_shape fst snd length];
      rewrite ?(wrap_int32_id (t - x)) by lia;
      rewrite ?(wrap_int32_id (t - x - (t - x) / 2)) by lia.
    + rewrite IH1. fold (padded_shape shp
                           (map (fun x => (x / 2, x - x / 2)%Z) (zip_with Z.sub desired shp))).
      rewrite IH3, IH4. repeat split; [|f_equal; lia].
      constructor; [cbn; lia | exact IH2].
    + rewrite IH1. fold (padded_shape shp
                           (map (fun x => (0, x)%Z) (zip_with Z.sub desired shp))).
      rewrite IH3, IH4. repeat split; [|f_equal; lia].
      constructor; [cbn; lia | exact IH2].
Qed.

Lemma existsb_negative_pads (pads : list (Z * Z)) :
  Forall (fun p => 0 <= fst p /\ 0 <= snd p)%Z pads ->
  existsb (fun p => (fst p <? 0) || (snd p <? 0))%Z pads = false.
Proof.
  induction 1 as [|p pads [H1 H2] HF IH]; [reflexivity|].
  cbn [existsb]. rewrite IH, (proj2 (Z.ltb_ge _ _) H1), (proj2 (Z.ltb_ge _ _) H2).
  reflexivity.
Qed.

Section PadProps.
Context {FR : FloatRounding}.

Lemma np_pad_ok (a : ndarray) (pads : list (Z * Z)) (val : Q) :
  length pads <> 0%nat ->
  length pads = ndim a ->
  Forall (fun p => 0 <= fst p /\ 0 <= snd p)%Z pads ->
  np_pad a pads val
  = Ok (mk_ndarray (padded_shape (shape a) pads) (dtype a)
          (np_pad_data (shape a) pads (np_store (dtype a) val) (data a))).
Proof.
  intros Hne Hlen Hp. unfold np_pad.
  rewrite (existsb_negative_pads _ Hp), Hlen, Nat.eqb_refl.
  destruct pads; [contradiction | reflexivity].
Qed.

(** The result of the call, when every target is computed and fits. *)
Lemma pad_computed (arr : array_like) (a : ndarray) (pad_to_dims desired : list Z)
    (val : Q) (distr_pad : bool) :
  to_float_container arr = Ok a ->
  Forall (fun d => 0 <= d)%Z (shape a) ->
  shape a <> [] ->
  length pad_to_dims = ndim a ->
  result_mapM (fun x => roundup_to_integer_multiple (fst x) (snd x))
    (zip (shape a) pad_to_dims) = Ok desired ->
  Forall (fun t => t < 2 ^ 31)%Z desired ->
  pad_tensor_to_multiple_of arr pad_to_dims val distr_pad
  = Ok (mk_ndarray desired (dtype a)
          (np_pad_data (shape a)
             (pad_pairs distr_pad (zip_with Z.sub desired (shape a)))
             (np_store (dtype a) val) (data a))).
Proof.
  intros Ha Hs Hne Hlen Hm Hb.
  pose proof (desired_bounds _ _ _ Hlen Hs Hm Hb) as HR.
  destruct (pad_pairs_props distr_pad _ _ HR) as (P1 & P2 & P3 & P4).
  unfold pad_tensor_to_multiple_of. rewrite Ha. cbn [mbind result_bind].
  rewrite Hlen, Nat.eqb_refl. cbn [py_assert mbind result_bind].
  rewrite Hm. cbn [mbind result_bind].
  rewrite (mapM_to_int32_ok desired).
  2:{ eapply Forall2_Forall_l; [exact HR|]. apply Forall_true. intros t x H. lia. }
  cbn [mbind result_bind].
  rewrite (mapM_to_int32_ok (shape a)).
  2:{ eapply Forall2_Forall_r; [exact HR|]. apply Forall_true. intros t x H. lia. }
  cbn [mbind result_bind]. rewrite P1.
  rewrite (np_pad_ok a _ val); [| |exact P4|exact P2].
  2:{ rewrite P4. destruct (shape a); [congruence | discriminate]. }
  cbn [mbind result_bind shape].
  rewrite P3. unfold shape_eqb. rewrite bool_decide_eq_true_2 by reflexivity.
  reflexivity.
Qed.
End PadProps.

Lemma mapM_roundup_unconstrained (shp : list Z) :
  result_mapM (fun x => roundup_to_integer_multiple (fst x) (snd x))
    (zip shp (repeat (-1)%Z (length shp))) = Ok shp.
Proof.
  induction shp as [|x shp IH]; [reflexivity|].
  cbn [length repeat zip zip_with result_mapM fst snd].
  change (roundup_to_integer_multiple x (-1)) with (Ok x).
  cbn [mbind result_bind].
  change (zip_with pair shp (repeat (-1)%Z (length shp)))
    with (zip shp (repeat (-1)%Z (length shp))).
  rewrite IH. reflexivity.
Qed.

Lemma pad_pairs_zero (distr_pad : bool) (shp : list Z) :
  pad_pairs distr_pad (zip_with Z.sub shp shp) = map (fun _ => (0, 0)%Z) shp.
Proof.
  unfold pad_pairs. induction shp as [|x shp IH]; [now destruct distr_pad|].
  destruct distr_pad; cbn [zip_with map] in *; rewrite IH, Z.sub_diag; reflexivity.
Qed.

Section PadTheorems.
Context {FR : FloatRounding}.

(** X4. On a well-formed input of at least one dimension, whenever every
    dimension's target is computed and below 2^31, the call returns: no
    padding amount is negative and the closing check on the shape never
    fails; the result has the target shape, the storage type of the float
    container and as many elements as its shape asks for. *)
Theorem pad_returns_target_shape (arr : array_like) (a : ndarray)
    (pad_to_dims desired : list Z) (val : Q) (distr_pad : bool) :
  to_float_container arr = Ok a ->
  wf_array a ->
  shape a <> [] ->
  length pad_to_dims = ndim a ->
  result_mapM (fun x => roundup_to_integer_multiple (fst x) (snd x))
    (zip (shape a) pad_to_dims) = Ok desired ->
  Forall (fun t => t < 2 ^ 31)%Z desired ->
  exists ret,
    pad_tensor_to_multiple_of arr pad_to_dims val distr_pad = Ok ret
    /\ shape ret = desired
    /\ dtype ret = dtype a
    /\ wf_array ret.
Proof.
  intros Ha [Hs Hd] Hne Hlen Hm Hb.
  eexists. split; [apply (pad_computed arr a); eassumption|].
  split; [reflexivity|]. split; [reflexivity|].
  pose proof (desired_bounds _ _ _ Hlen Hs Hm Hb) as HR.
  destruct (pad_pairs_props distr_pad _ _ HR) as (P1 & P2 & P3 & P4).
  assert (Hdes : Forall (fun d => 0 <= d)%Z desired).
  { eapply Forall2_Forall_l; [exact HR|]. apply Forall_true. intros t x H. lia. }
  split; [exact Hdes|]. cbn [data shape].
  rewrite (length_np_pad_data _ (shape a)); try assumption.
  - rewrite P3. pose proof (prod_list_nonneg desired Hdes). lia.
  - lia.
Qed.

(** X5. For an input of at least one dimension, with factor -1 on every
    dimension the float container of the input comes back unchanged,
    whatever the fill value and the distribution flag. *)
Theorem pad_unconstrained_unchanged (arr : array_like) (a : ndarray)
    (val : Q) (distr_pad : bool) :
  to_float_container arr = Ok a ->
  wf_array a ->
  shape a <> [] ->
  Forall (fun d => d < 2 ^ 31)%Z (shape a) ->
  pad_tensor_to_multiple_of arr (repeat (-1)%Z (ndim a)) val distr_pad = Ok a.
Proof.
  intros Ha [Hs Hd] Hne Hb.
  rewrite (pad_computed arr a _ (shape a)); try assumption.
  - rewrite pad_pairs_zero.
    destruct (np_pad_data_zero (np_store (dtype a) val) (shape a) (data a) Hs
                ltac:(lia)) as [-> _].
    now destruct a.
  - apply repeat_length.
  - apply mapM_roundup_unconstrained.
Qed.

(** X6. When only the outermost dimension has a factor, the elements of
    the result are the elements of the input with whole rows of the fill
    value around them, the fill value being [val] rounded to the storage
    type of the float container ([val] within the finite range of that
    type): all after the input when [distr_pad] is off, and otherwise half
    of them (rounded down) before and the rest after. *)
Theorem pad_outermost_placement (arr : array_like) (a : ndarray)
    (n factor t : Z) (rest : list Z) (val : Q) (distr_pad : bool) :
  to_float_container arr = Ok a ->
  wf_array a ->
  shape a = n :: rest ->
  roundup_to_integer_multiple n factor = Ok t ->
  Forall (fun d => d < 2 ^ 31)%Z (t :: rest) ->
  finite_in (dtype a) val ->
  let inner := Z.to_nat (prod_list rest) in
  let before := if distr_pad then ((t - n) / 2)%Z else 0%Z in
  let after := (t - n - before)%Z in
  let fill := np_store (dtype a) val in
  pad_tensor_to_multiple_of arr (factor :: repeat (-1)%Z (length rest)) val distr_pad
  = Ok (mk_ndarray (t :: rest) (dtype a)
          (repeat fill (Z.to_nat before * inner) ++ data a
           ++ repeat fill (Z.to_nat after * inner)))
  /\ (0 <= before <= after)%Z
  /\ (distr_pad = true -> (after <= before + 1)%Z).
Proof.
  intros Ha [Hs Hd] Hshape Ht Hb _ inner before after fill.
  assert (Hne : shape a <> []) by (rewrite Hshape; discriminate).
  assert (Hm : result_mapM (fun x => roundup_to_integer_multiple (fst x) (snd x))
                 (zip (shape a) (factor :: repeat (-1)%Z (length rest)))
               = Ok (t :: rest)).
  { rewrite Hshape. cbn [zip zip_with result_mapM fst snd]. rewrite Ht.
    cbn [mbind result_bind].
    change (zip_with pair rest (repeat (-1)%Z (length rest)))
      with (zip rest (repeat (-1)%Z (length rest))).
    now rewrite mapM_roundup_unconstrained. }
  assert (Hlen : length (factor :: repeat (-1)%Z (length rest)) = ndim a).
  { unfold ndim. rewrite Hshape. cbn [length]. now rewrite repeat_length. }
  pose proof (desired_bounds _ _ _ Hlen Hs Hm Hb) as HR.
  rewrite Hshape in HR, Hs, Hd. inversion HR as [|? ? ? ? [[Hn0 Hnt] _] _]; subst.
  inversion Hs as [|? ? _ Hrest]; subst.
  assert (Hdiv : (0 <= (t - n) / 2 <= t - n)%Z).
  { split; [apply Z.div_pos; lia | apply Z.div_le_upper_bound; lia]. }
  assert (Hhalf : (t - n - (t - n) / 2 <= (t - n) / 2 + 1)%Z).
  { pose proof (Z.div_mod (t - n) 2 ltac:(lia)).
    pose proof (Z.mod_pos_bound (t - n) 2 ltac:(lia)). lia. }
  assert (Hhalf' : ((t - n) / 2 <= t - n - (t - n) / 2)%Z).
  { pose proof (Z.div_mod (t - n) 2 ltac:(lia)).
    pose proof (Z.mod_pos_bound (t - n) 2 ltac:(lia)). lia. }
  split.
  - rewrite (pad_computed arr a _ (t :: rest)); try assumption;
      [|now rewrite Hshape].
    rewrite Hshape. f_equal. f_equal.
    assert (Hpairs : pad_pairs distr_pad (zip_with Z.sub (t :: rest) (n :: rest))
                     = (before, after) :: map (fun _ => (0, 0)%Z) rest).
    { rewrite <- (pad_pairs_zero distr_pad rest). unfold pad_pairs, before, after.
      destruct distr_pad; cbn [zip_with map]; f_equal; f_equal; lia. }
    rewrite Hpairs. cbn [np_pad_data].
    destruct (np_pad_data_zero fill rest (repeat 0%Q inner) Hrest
                ltac:(now rewrite repeat_length)) as [_ ->].
    fold inner.
    assert (Hlen_d : length (data a) = (Z.to_nat n * inner)%nat).
    { unfold inner. rewrite <- to_nat_prod_cons by assumption. lia. }
    rewrite flat_map_fixed; [now rewrite concat_chunks|].
    eapply Forall_impl; [apply (Forall_length_chunks _ _ _ Hlen_d)|].
    intros r Hr. simpl in Hr. now apply np_pad_data_zero.
  - unfold before, after.
    destruct distr_pad; (split; [lia|]); [intros _; lia | discriminate].
Qed.
End PadTheorems.

(** ** [interleave_matrix_outer_dim_from_partitions], continued *)

(** The row indices in the order the partitions list them. *)
Lemma interleaved_indices_perm (q n : nat) :
  (0 < n)%nat ->
  Permutation (flat_map (fun j => map (fun i => (i * n + j)%nat) (seq 0 q)) (seq 0 n))
    (seq 0 (q * n)).
Proof.
  intros Hn. symmetry. apply NoDup_Permutation_bis.
  - apply seq_NoDup.
  - rewrite length_seq.
    assert (H : forall m, length (flat_map (fun j => map (fun i => (i * n + j)%nat)
                                              (seq 0 q)) (seq 0 m)) = (m * q)%nat).
    { induction m as [|m IH]; [reflexivity|].
      rewrite seq_S, flat_map_app, length_app, IH. cbn [flat_map Nat.add].
      rewrite app_nil_r, length_map, length_seq. lia. }
    rewrite H. lia.
  - intros x Hx. apply in_seq in Hx. apply in_flat_map.
    exists (x mod n)%nat. split.
    + apply in_seq. pose proof (Nat.mod_upper_bound x n). lia.
    + apply in_map_iff. exists (x / n)%nat. split.
      * pose proof (Nat.div_mod_eq x n). lia.
      * apply in_seq. split; [lia|]. cbn [Nat.add].
        apply Nat.Div0.div_lt_upper_bound. lia.
Qed.

Lemma flat_map_map {A B C} (f : A -> B) (g : B -> list C) (l : list A) :
  flat_map g (map f l) = flat_map (fun x => g (f x)) l.
Proof. induction l as [|x l IH]; [reflexivity|]. cbn. now rewrite IH. Qed.

Lemma flat_map_flat_map {A B C} (f : A -> list B) (g : B -> list C) (l : list A) :
  flat_map g (flat_map f l) = flat_map (fun x => flat_map g (f x)) l.
Proof.
  induction l as [|x l IH]; [reflexivity|]. cbn. now rewrite flat_map_app, IH.
Qed.

(** The elements of an array are its rows one after the other. *)
Lemma data_as_blocks (C R : nat) (d : list Q) :
  length d = (R * C)%nat -> flat_map (block C d) (seq 0 R) = d.
Proof.
  intros H. rewrite flat_map_concat_map, <- chunks_map_seq.
  now apply concat_chunks.
Qed.

Section InterleaveProps.
Context {FR : FloatRounding}.

(** X7. Interleaving only reorders: the result holds exactly the elements
    of the matrix, each as often as the matrix does; with a single
    partition the order is kept too. *)
Theorem interleave_permutes (x : array_like) (matrix : ndarray) (R C n : nat) :
  to_float_container x = Ok matrix ->
  shape matrix = [Z.of_nat R; Z.of_nat C] ->
  length (data matrix) = (R * C)%nat ->
  (0 < n)%nat -> (0 < C)%nat -> (R mod n = 0)%nat ->
  exists out,
    interleave_matrix_outer_dim_from_partitions x (Z.of_nat n) = Ok out
    /\ Permutation (data out) (data matrix)
    /\ (n = 1%nat -> data out = data matrix).
Proof.
  intros Hx Hshape Hsize Hn HC Hdiv.
  eexists. split; [apply (interleave_computed x matrix R C n); assumption|].
  cbn [data].
  assert (HR : R = (R / n * n)%nat).
  { pose proof (Nat.div_mod_eq R n). lia. }
  assert (E : flat_map (fun j =>
                flat_map (fun i => block C (data matrix) (i * n + j)) (seq 0 (R / n)))
                (seq 0 n)
              = flat_map (block C (data matrix))
                  (flat_map (fun j => map (fun i => (i * n + j)%nat) (seq 0 (R / n)))
                     (seq 0 n))).
  { rewrite flat_map_flat_map. apply flat_map_ext. intros j.
    now rewrite flat_map_map. }
  split.
  - rewrite E.
    apply (Permutation_trans (l' := flat_map (block C (data matrix)) (seq 0 R)));
      [|now rewrite (data_as_blocks C R (data matrix) Hsize)].
    apply Permutation_flat_map.
    replace (seq 0 R) with (seq 0 (R / n * n)) by now rewrite <- HR.
    now apply interleaved_indices_perm.
  - intros ->. rewrite Nat.div_1_r. cbn [seq flat_map]. rewrite app_nil_r.
    transitivity (flat_map (block C (data matrix)) (seq 0 R));
      [|apply (data_as_blocks C R (data matrix) Hsize)].
    apply flat_map_ext. intros i. f_equal. lia.
Qed.

(** X8. On a float matrix with R rows the call raises ZeroDivisionError
    for zero partitions, the divisibility assertion when the number of
    partitions does not divide R, and the dimension assertion for an array
    that is not two-dimensional but passes the divisibility check. *)
Theorem interleave_rejects (x : array_like) (a : ndarray) (n_partitions R : Z)
    (rest : list Z) :
  to_float_container x = Ok a ->
  shape a = R :: rest ->
  (n_partitions = 0%Z ->
   interleave_matrix_outer_dim_from_partitions x n_partitions = Raise ZeroDivisionError)
  /\ (n_partitions <> 0%Z -> (R mod n_partitions <> 0)%Z ->
      interleave_matrix_outer_dim_from_partitions x n_partitions
      = Raise (AssertionError
                 "The outermost dimension is not divisable by the number of partitions."))
  /\ (n_partitions <> 0%Z -> (R mod n_partitions = 0)%Z -> length rest <> 1%nat ->
      interleave_matrix_outer_dim_from_partitions x n_partitions
      = Raise (AssertionError "The dimension of the matrix is not 2.")).
Proof.
  intros Hx Hshape. unfold interleave_matrix_outer_dim_from_partitions.
  rewrite Hx. cbn [mbind result_bind]. unfold ndim. rewrite Hshape.
  cbn [py_index lookup list_lookup mbind result_bind]. unfold py_mod.
  split; [|split].
  - intros ->. reflexivity.
  - intros Hn Hm. rewrite (proj2 (Z.eqb_neq _ _) Hn). cbn [mbind result_bind].
    now rewrite (proj2 (Z.eqb_neq _ _) Hm).
  - intros Hn Hm Hl. rewrite (proj2 (Z.eqb_neq _ _) Hn). cbn [mbind result_bind].
    rewrite Hm. cbn [Z.eqb py_assert mbind result_bind length].
    destruct rest as [|c [|c' rest']]; [reflexivity | | reflexivity].
    exfalso. now apply Hl.
Qed.
End InterleaveProps.
(** ** [calculate_matvec_accumulator_range], continued *)

Lemma is_max_of_map_seq (f : nat -> Q) (n : nat) (m : Q) :
  is_max_of (map f (seq 0 n)) m ->
  (exists j, (j < n)%nat /\ f j == m) /\ (forall j, (j < n)%nat -> f j <= m).
Proof.
  intros [HE HA]. split; [now apply Exists_map_seq|].
  intros j Hj. rewrite List.Forall_forall in HA. apply HA, in_map, in_seq. lia.
Qed.

Lemma is_min_of_map_seq (f : nat -> Q) (n : nat) (m : Q) :
  is_min_of (map f (seq 0 n)) m ->
  (exists j, (j < n)%nat /\ f j == m) /\ (forall j, (j < n)%nat -> m <= f j).
Proof.
  intros [HE HA]. split; [now apply Exists_map_seq|].
  intros j Hj. rewrite List.Forall_forall in HA. apply HA, in_map, in_seq. lia.
Qed.

(** *** Sums in a floating-point type *)

Section RoundedSums.
Context {FR : FloatRounding} {FL : FloatRoundingLaws FR}.
Variable t : np_dtype.
Hypothesis Hfloat : is_float_dtype t = true.

Lemma sum_dtype_float : sum_dtype t = t.
Proof. destruct t; try discriminate; reflexivity. Qed.

Lemma np_store_monotone (x y : Q) : x <= y -> np_store t x <= np_store t y.
Proof.
  destruct t; try discriminate; cbn [np_store].
  - apply (rounds_monotone _ _ _ fl16_rounds).
  - apply (rounds_monotone _ _ _ fl32_rounds).
  - apply (rounds_monotone _ _ _ fl64_rounds).
Qed.

Lemma np_store_opp (x : Q) : np_store t (- x) == - np_store t x.
Proof.
  destruct t; try discriminate; cbn [np_store].
  - apply (rounds_opp _ _ _ fl16_rounds).
  - apply (rounds_opp _ _ _ fl32_rounds).
  - apply (rounds_opp _ _ _ fl64_rounds).
Qed.

Lemma np_store_comp (x y : Q) : x == y -> np_store t x == np_store t y.
Proof.
  intros E. apply Qle_antisym; apply np_store_monotone; lra.
Qed.

Lemma np_store_zero : np_store t 0 == 0.
Proof.
  assert (E : 0 == inject_Z 0 * 2 ^ 0) by reflexivity.
  destruct t; try discriminate; cbn [np_store].
  - apply (rounds_exact _ _ _ fl16_rounds 0 0 0 E); [reflexivity | lia].
  - apply (rounds_exact _ _ _ fl32_rounds 0 0 0 E); [reflexivity | lia].
  - apply (rounds_exact _ _ _ fl64_rounds 0 0 0 E); [reflexivity | lia].
Qed.

Lemma np_store_nonneg (x : Q) : 0 <= x -> 0 <= np_store t x.
Proof. intros H. rewrite <- np_store_zero. now apply np_store_monotone. Qed.

Lemma np_store_nonpos (x : Q) : x <= 0 -> np_store t x <= 0.
Proof. intros H. rewrite <- np_store_zero. now apply np_store_monotone. Qed.

Lemma added_in_order_le (f g : nat -> Q) (o : sum_order) :
  (forall i, In i (operands o) -> f i <= g i) ->
  added_in_order t f o <= added_in_order t g o.
Proof.
  induction o as [i|l IHl r IHr]; cbn [added_in_order operands]; intros H.
  - apply np_store_monotone, H. now left.
  - apply np_store_monotone.
    assert (added_in_order t f l <= added_in_order t g l)
      by (apply IHl; intros i Hi; apply H, in_or_app; auto).
    assert (added_in_order t f r <= added_in_order t g r)
      by (apply IHr; intros i Hi; apply H, in_or_app; auto).
    lra.
Qed.

Lemma added_in_order_nonneg (f : nat -> Q) (o : sum_order) :
  (forall i, In i (operands o) -> 0 <= f i) -> 0 <= added_in_order t f o.
Proof.
  induction o as [i|l IHl r IHr]; cbn [added_in_order operands]; intros H.
  - apply np_store_nonneg, H. now left.
  - apply np_store_nonneg.
    assert (0 <= added_in_order t f l)
      by (apply IHl; intros i Hi; apply H, in_or_app; auto).
    assert (0 <= added_in_order t f r)
      by (apply IHr; intros i Hi; apply H, in_or_app; auto).
    lra.
Qed.

Lemma added_in_order_nonpos (f : nat -> Q) (o : sum_order) :
  (forall i, In i (operands o) -> f i <= 0) -> added_in_order t f o <= 0.
Proof.
  induction o as [i|l IHl r IHr]; cbn [added_in_order operands]; intros H.
  - apply np_store_nonpos, H. now left.
  - apply np_store_nonpos.
    assert (added_in_order t f l <= 0)
      by (apply IHl; intros i Hi; apply H, in_or_app; auto).
    assert (added_in_order t f r <= 0)
      by (apply IHr; intros i Hi; apply H, in_or_app; auto).
    lra.
Qed.

Lemma added_in_order_opp (f g : nat -> Q) (o : sum_order) :
  (forall i, In i (operands o) -> f i == - g i) ->
  added_in_order t f o == - added_in_order t g o.
Proof.
  induction o as [i|l IHl r IHr]; cbn [added_in_order operands]; intros H.
  - rewrite <- np_store_opp. apply np_store_comp, H. now left.
  - rewrite <- np_store_opp. apply np_store_comp.
    rewrite IHl by (intros i Hi; apply H, in_or_app; auto).
    rewrite IHr by (intros i Hi; apply H, in_or_app; auto). ring.
Qed.

Variables (matrix : ndarray) (MW MH : nat) (o : sum_order).

Lemma computed_column_le (sel sel' : Q -> Q) (j : nat) :
  (forall i, computed_term matrix MH t sel i j <= computed_term matrix MH t sel' i j) ->
  computed_column matrix MW MH t sel o j <= computed_column matrix MW MH t sel' o j.
Proof.
  intros H. unfold computed_column. destruct MW; [lra|].
  rewrite sum_dtype_float. apply added_in_order_le. intros i _. apply H.
Qed.

Lemma computed_column_nonneg (sel : Q -> Q) (j : nat) :
  (forall i, 0 <= computed_term matrix MH t sel i j) ->
  0 <= computed_column matrix MW MH t sel o j.
Proof.
  intros H. unfold computed_column. destruct MW; [lra|].
  rewrite sum_dtype_float. apply added_in_order_nonneg. intros i _. apply H.
Qed.

Lemma computed_column_nonpos (sel : Q -> Q) (j : nat) :
  (forall i, computed_term matrix MH t sel i j <= 0) ->
  computed_column matrix MW MH t sel o j <= 0.
Proof.
  intros H. unfold computed_column. destruct MW; [lra|].
  rewrite sum_dtype_float. apply added_in_order_nonpos. intros i _. apply H.
Qed.

Lemma computed_column_opp (sel sel' : Q -> Q) (j : nat) :
  (forall i, computed_term matrix MH t sel i j
             == - computed_term matrix MH t sel' i j) ->
  computed_column matrix MW MH t sel o j == - computed_column matrix MW MH t sel' o j.
Proof.
  intros H. unfold computed_column. destruct MW; [lra|].
  rewrite sum_dtype_float. apply added_in_order_opp. intros i _. apply H.
Qed.

(** A product grows with the bound chosen for a positive entry and falls
    with the bound chosen for any other entry. *)
Lemma computed_term_le (sel sel' : Q -> Q) (i j : nat) :
  (forall a, 0 < a -> sel a <= sel' a) ->
  (forall a, a <= 0 -> sel' a <= sel a) ->
  computed_term matrix MH t sel i j <= computed_term matrix MH t sel' i j.
Proof.
  intros Hpos Hneg. unfold computed_term. set (a := entry matrix MH i j).
  apply np_store_monotone.
  destruct (Qlt_le_dec 0 a) as [Ha|Ha].
  - assert (0 <= np_store t a) by (apply np_store_nonneg; lra).
    assert (np_store t (sel a) <= np_store t (sel' a))
      by (apply np_store_monotone, Hpos, Ha).
    nra.
  - assert (np_store t a <= 0) by (apply np_store_nonpos; lra).
    assert (np_store t (sel' a) <= np_store t (sel a))
      by (apply np_store_monotone, Hneg, Ha).
    nra.
Qed.

Lemma computed_term_nonneg (sel : Q -> Q) (i j : nat) :
  (forall a, 0 < a -> 0 <= sel a) -> (forall a, a <= 0 -> sel a <= 0) ->
  0 <= computed_term matrix MH t sel i j.
Proof.
  intros Hpos Hneg. unfold computed_term. set (a := entry matrix MH i j).
  apply np_store_nonneg.
  destruct (Qlt_le_dec 0 a) as [Ha|Ha].
  - assert (0 <= np_store t a) by (apply np_store_nonneg; lra).
    assert (0 <= np_store t (sel a)) by (apply np_store_nonneg, Hpos, Ha).
    nra.
  - assert (np_store t a <= 0) by (apply np_store_nonpos; lra).
    assert (np_store t (sel a) <= 0) by (apply np_store_nonpos, Hneg, Ha).
    nra.
Qed.

Lemma computed_term_nonpos (sel : Q -> Q) (i j : nat) :
  (forall a, 0 < a -> sel a <= 0) -> (forall a, a <= 0 -> 0 <= sel a) ->
  computed_term matrix MH t sel i j <= 0.
Proof.
  intros Hpos Hneg. unfold computed_term. set (a := entry matrix MH i j).
  apply np_store_nonpos.
  destruct (Qlt_le_dec 0 a) as [Ha|Ha].
  - assert (0 <= np_store t a) by (apply np_store_nonneg; lra).
    assert (np_store t (sel a) <= 0) by (apply np_store_nonpos, Hpos, Ha).
    nra.
  - assert (np_store t a <= 0) by (apply np_store_nonpos; lra).
    assert (0 <= np_store t (sel a)) by (apply np_store_nonneg, Hneg, Ha).
    nra.
Qed.

Lemma computed_term_opp (sel sel' : Q -> Q) (i j : nat) :
  (forall a, sel a == - sel' a) ->
  computed_term matrix MH t sel i j == - computed_term matrix MH t sel' i j.
Proof.
  intros H. unfold computed_term. set (a := entry matrix MH i j).
  rewrite <- np_store_opp. apply np_store_comp.
  rewrite (np_store_comp (sel a) (- sel' a)) by apply H.
  rewrite np_store_opp. ring.
Qed.
End RoundedSums.

Section MatVecRounded.
Context {FR : FloatRounding} {FL : FloatRoundingLaws FR}.
Variable reduction_order : nat -> sum_order.
Variable bounds_dtype : DataType.t -> np_dtype.

(** X9. In floating-point arithmetic that stays within the finite range,
    for a datatype with [min <= max] the returned minimum is not above the
    returned maximum, and when the range of the datatype contains zero so
    does the returned range, whatever the rounding of the products and the
    sums. *)
Theorem matvec_range_ordered (matrix : ndarray) (vec_dt : DataType.t) (MW MH : nat) :
  shape matrix = [Z.of_nat MW; Z.of_nat MH] ->
  length (data matrix) = (MW * MH)%nat ->
  (0 < MH)%nat ->
  adds_each_once (reduction_order MW) MW ->
  DataType.min vec_dt <= DataType.max vec_dt ->
  finite_arithmetic matrix vec_dt MW MH
    (np_result_type (dtype matrix) (bounds_dtype vec_dt)) (reduction_order MW) ->
  exists min_value max_value,
    calculate_matvec_accumulator_range reduction_order bounds_dtype matrix vec_dt
    = Ok (min_value, max_value)
    /\ min_value <= max_value
    /\ (DataType.min vec_dt <= 0 -> 0 <= DataType.max vec_dt ->
        min_value <= 0 /\ 0 <= max_value).
Proof.
  intros Hshape Hsize HMH Horder Hrange (Hfloat & _ & _).
  destruct (matvec_computed reduction_order bounds_dtype matrix vec_dt MW MH Hshape Hsize HMH Horder)
    as (mn & mx & E & Hmax & Hmin).
  set (t := np_result_type (dtype matrix) (bounds_dtype vec_dt)) in *.
  exists mn, mx. split; [exact E|].
  apply is_max_of_map_seq in Hmax as [_ Hmax].
  apply is_min_of_map_seq in Hmin as [_ Hmin].
  specialize (Hmax 0%nat HMH). specialize (Hmin 0%nat HMH). split.
  - assert (H : computed_column matrix MW MH t (minimizer vec_dt) (reduction_order MW) 0
                <= computed_column matrix MW MH t (maximizer vec_dt) (reduction_order MW) 0).
    { apply (computed_column_le t Hfloat). intros i.
      apply (computed_term_le t Hfloat); intros a Ha; unfold minimizer, maximizer;
        destruct (Qlt_le_dec 0 a); lra. }
    lra.
  - intros H1 H2.
    assert (Hu : 0 <= computed_column matrix MW MH t (maximizer vec_dt) (reduction_order MW) 0).
    { apply (computed_column_nonneg t Hfloat). intros i.
      apply (computed_term_nonneg t Hfloat); intros a Ha; unfold maximizer;
        destruct (Qlt_le_dec 0 a); lra. }
    assert (Hl : computed_column matrix MW MH t (minimizer vec_dt) (reduction_order MW) 0 <= 0).
    { apply (computed_column_nonpos t Hfloat). intros i.
      apply (computed_term_nonpos t Hfloat); intros a Ha; unfold minimizer;
        destruct (Qlt_le_dec 0 a); lra. }
    split; lra.
Qed.

(** X10. In floating-point arithmetic that stays within the finite range,
    a datatype with a wider range, whose bounds are numbers of the same
    type, gives a wider accumulator range. *)
Theorem matvec_range_monotone (matrix : ndarray) (dt dt' : DataType.t) (MW MH : nat)
    (mn mx mn' mx' : Q) :
  shape matrix = [Z.of_nat MW; Z.of_nat MH] ->
  length (data matrix) = (MW * MH)%nat ->
  (0 < MH)%nat ->
  adds_each_once (reduction_order MW) MW ->
  DataType.min dt' <= DataType.min dt ->
  DataType.max dt <= DataType.max dt' ->
  bounds_dtype dt = bounds_dtype dt' ->
  finite_arithmetic matrix dt MW MH
    (np_result_type (dtype matrix) (bounds_dtype dt)) (reduction_order MW) ->
  finite_arithmetic matrix dt' MW MH
    (np_result_type (dtype matrix) (bounds_dtype dt')) (reduction_order MW) ->
  calculate_matvec_accumulator_range reduction_order bounds_dtype matrix dt = Ok (mn, mx) ->
  calculate_matvec_accumulator_range reduction_order bounds_dtype matrix dt' = Ok (mn', mx') ->
  mn' <= mn /\ mx <= mx'.
Proof.
  intros Hshape Hsize HMH Horder H1 H3 Hbt (Hfloat & _ & _) _ E E'.
  destruct (matvec_computed reduction_order bounds_dtype matrix dt MW MH Hshape Hsize HMH Horder)
    as (a & b & Ea & Hmax & Hmin).
  rewrite E in Ea. injection Ea as <- <-.
  destruct (matvec_computed reduction_order bounds_dtype matrix dt' MW MH Hshape Hsize HMH Horder)
    as (a' & b' & Ea' & Hmax' & Hmin').
  rewrite E' in Ea'. injection Ea' as <- <-.
  rewrite <- Hbt in Hmax', Hmin'.
  set (t := np_result_type (dtype matrix) (bounds_dtype dt)) in *.
  apply is_max_of_map_seq in Hmax as [(j & Hj & Ej) _].
  apply is_min_of_map_seq in Hmin as [(k & Hk & Ek) _].
  apply is_max_of_map_seq in Hmax' as [_ Hmax'].
  apply is_min_of_map_seq in Hmin' as [_ Hmin'].
  split.
  - assert (H : computed_column matrix MW MH t (minimizer dt') (reduction_order MW) k
                <= computed_column matrix MW MH t (minimizer dt) (reduction_order MW) k).
    { apply (computed_column_le t Hfloat). intros i.
      apply (computed_term_le t Hfloat); intros x Hx; unfold minimizer;
        destruct (Qlt_le_dec 0 x); lra. }
    specialize (Hmin' k Hk). lra.
  - assert (H : computed_column matrix MW MH t (maximizer dt) (reduction_order MW) j
                <= computed_column matrix MW MH t (maximizer dt') (reduction_order MW) j).
    { apply (computed_column_le t Hfloat). intros i.
      apply (computed_term_le t Hfloat); intros x Hx; unfold maximizer;
        destruct (Qlt_le_dec 0 x); lra. }
    specialize (Hmax' j Hj). lra.
Qed.

(** X11. In floating-point arithmetic that stays within the finite range,
    for a range that is symmetric about zero the returned range is
    symmetric too. *)
Theorem matvec_range_symmetric (matrix : ndarray) (vec_dt : DataType.t) (MW MH : nat)
    (mn mx : Q) :
  shape matrix = [Z.of_nat MW; Z.of_nat MH] ->
  length (data matrix) = (MW * MH)%nat ->
  (0 < MH)%nat ->
  adds_each_once (reduction_order MW) MW ->
  DataType.min vec_dt == - DataType.max vec_dt ->
  finite_arithmetic matrix vec_dt MW MH
    (np_result_type (dtype matrix) (bounds_dtype vec_dt)) (reduction_order MW) ->
  calculate_matvec_accumulator_range reduction_order bounds_dtype matrix vec_dt = Ok (mn, mx) ->
  mn == - mx.
Proof.
  intros Hshape Hsize HMH Horder Hsym (Hfloat & _ & _) E.
  destruct (matvec_computed reduction_order bounds_dtype matrix vec_dt MW MH Hshape Hsize HMH Horder)
    as (a & b & Ea & Hmax & Hmin).
  rewrite E in Ea. injection Ea as <- <-.
  set (t := np_result_type (dtype matrix) (bounds_dtype vec_dt)) in *.
  assert (Hcol : forall j, computed_column matrix MW MH t (minimizer vec_dt) (reduction_order MW) j
                           == - computed_column matrix MW MH t (maximizer vec_dt) (reduction_order MW) j).
  { intros j. apply (computed_column_opp t Hfloat). intros i.
    apply (computed_term_opp t Hfloat). intros x. unfold minimizer, maximizer.
    destruct (Qlt_le_dec 0 x); lra. }
  apply is_max_of_map_seq in Hmax as [(j & Hj & Ej) Hmax].
  apply is_min_of_map_seq in Hmin as [(k & Hk & Ek) Hmin].
  pose proof (Hmax k Hk). pose proof (Hmin j Hj).
  pose proof (Hcol j). pose proof (Hcol k). lra.
Qed.
End MatVecRounded.

(** ** [calculate_signed_dot_prod_range], continued *)

(** X12. The call fails with the assertion unless both datatypes are
    signed; for signed datatypes and any length it returns the least of
    2^30 and the four products as the minimum, and the greatest of -2^30
    and the four products as the maximum. *)
Theorem dot_prod_range_clamped (dt_a dt_b : DataType.t) (len : Z) :
  if DataType.signed dt_a && DataType.signed dt_b
  then exists lo hi,
      calculate_signed_dot_prod_range dt_a dt_b len = Ok (lo, hi)
      /\ is_min_of (inject_Z (2 ^ 30) :: visited_products dt_a dt_b len) lo
      /\ is_max_of (inject_Z (- 2 ^ 30) :: visited_products dt_a dt_b len) hi
  else calculate_signed_dot_prod_range dt_a dt_b len
       = Raise (AssertionError "The input values are not both signed vectors.").
Proof.
  unfold calculate_signed_dot_prod_range.
  destruct (DataType.signed dt_a && DataType.signed dt_b); [|reflexivity].
  simpl py_assert. cbn [mbind result_bind].
  rewrite dot_prod_loops_unfold, fold_minmax_step. cbn [fst snd].
  do 2 eexists. split; [reflexivity|].
  destruct (fold_Qmin_step (visited_products dt_a dt_b len) (inject_Z (2 ^ 30)))
    as (H1 & H2 & H3).
  destruct (fold_Qmax_step (visited_products dt_a dt_b len) (inject_Z (- 2 ^ 30)))
    as (G1 & G2 & G3).
  split; split.
  - destruct H3 as [H3|H3].
    + left. rewrite H3. reflexivity.
    + right. now apply In_Exists_Qeq.
  - constructor; assumption.
  - destruct G3 as [G3|G3].
    + left. rewrite G3. reflexivity.
    + right. now apply In_Exists_Qeq.
  - constructor; assumption.
Qed.

Lemma inject_Z_le (x y : Z) : (x <= y)%Z -> inject_Z x <= inject_Z y.
Proof. intros H. now rewrite <- Zle_Qle. Qed.

(** X13. For two two's-complement ranges [-A, A-1] and [-B, B-1] and a
    positive length the maximum is len*A*B, the product of the two minima,
    and the minimum is -len*(A*B - min(A,B)). *)
Theorem dot_prod_range_twos_complement (dt_a dt_b : DataType.t) (len A B : Z) :
  DataType.signed dt_a = true -> DataType.signed dt_b = true ->
  (1 <= A)%Z -> (1 <= B)%Z -> (0 < len)%Z ->
  DataType.min dt_a == inject_Z (- A) -> DataType.max dt_a == inject_Z (A - 1) ->
  DataType.min dt_b == inject_Z (- B) -> DataType.max dt_b == inject_Z (B - 1) ->
  exists lo hi,
    calculate_signed_dot_prod_range dt_a dt_b len = Ok (lo, hi)
    /\ lo == inject_Z (- (len * (A * B - Z.min A B)))
    /\ hi == inject_Z (len * A * B).
Proof.
  intros Sa Sb HA HB Hlen Ea1 Ea2 Eb1 Eb2.
  assert (Hmin_a : DataType.min dt_a <= 0).
  { rewrite Ea1. apply (inject_Z_le (- A) 0). lia. }
  assert (Hmin_b : DataType.min dt_b <= 0).
  { rewrite Eb1. apply (inject_Z_le (- B) 0). lia. }
  assert (Hmax_b : 0 <= DataType.max dt_b).
  { rewrite Eb2. apply (inject_Z_le 0 (B - 1)). lia. }
  destruct (visited_products_signs dt_a dt_b len Hlen Hmin_a Hmax_b Hmin_b) as [Hn Hp].
  destruct (dot_prod_range_exact dt_a dt_b len Sa Sb Hn Hp) as (lo & hi & E & Hlo & Hhi).
  exists lo, hi. split; [exact E|].
  set (l := [ inject_Z (A * B * len); inject_Z (- (A * (B - 1) * len));
              inject_Z (- ((A - 1) * B * len)); inject_Z ((A - 1) * (B - 1) * len) ]).
  assert (HF : Forall2 Qeq (visited_products dt_a dt_b len) l).
  { unfold visited_products, l.
    repeat constructor; rewrite ?Ea1, ?Ea2, ?Eb1, ?Eb2;
      rewrite <- !inject_Z_mult; apply inject_Z_injective; ring. }
  apply (is_min_of_Forall2 _ _ _ HF) in Hlo.
  apply (is_max_of_Forall2 _ _ _ HF) in Hhi.
  assert (Hlab : (0 <= len * (A * B))%Z) by nia.
  assert (Hla : (len <= len * A)%Z) by nia.
  assert (Hlb : (len <= len * B)%Z) by nia.
  assert (Hlab' : (0 <= len * ((A - 1) * (B - 1)))%Z) by nia.
  split.
  - eapply is_min_of_unique; [exact Hlo|]. unfold l.
    destruct (Z.min_spec A B) as [[Hlt ->]|[Hle ->]].
    + assert (Hd : (0 <= len * (B - A))%Z) by nia.
      split.
      * right. left. cbn beta. apply inject_Z_injective. ring.
      * repeat apply List.Forall_cons; try apply List.Forall_nil; apply inject_Z_le; lia.
    + assert (Hd : (0 <= len * (A - B))%Z) by nia.
      split.
      * right. right. left. cbn beta. apply inject_Z_injective. ring.
      * repeat apply List.Forall_cons; try apply List.Forall_nil; apply inject_Z_le; lia.
  - eapply is_max_of_unique; [exact Hhi|]. unfold l. split.
    + left. cbn beta. apply inject_Z_injective. ring.
    + repeat apply List.Forall_cons; try apply List.Forall_nil; apply inject_Z_le; lia.
Qed.

Lemma dot_prod_range_twos_complement_witness :
  exists lo hi,
    calculate_signed_dot_prod_range INT8 INT8 4 = Ok (lo, hi)
    /\ lo == inject_Z (- (4 * (128 * 128 - Z.min 128 128)))
    /\ hi == inject_Z (4 * 128 * 128).
Proof.
  apply (dot_prod_range_twos_complement INT8 INT8 4 128 128);
    try reflexivity; lia.
Defined.

(** ** [sanitize_quant_values], continued *)

Lemma Forall2_abs_same (l : list Q) (th : Q) :
  0 <= th -> Forall2 (fun x y => Qabs (x - y) <= th) l l.
Proof.
  intros Hth. induction l as [|x l IH]; constructor; [|exact IH].
  assert (E : x - x == 0) by ring. rewrite E. exact Hth.
Qed.

Lemma Forall2_abs_rounded (l : list Q) (th : Q) :
  Forall (fun x => Qabs (x - np_round x) <= th) l ->
  Forall2 (fun x y => Qabs (x - y) <= th) l (map np_round l).
Proof. induction 1; cbn [map]; constructor; assumption. Qed.

Lemma forallb_ext_in {A} (f g : A -> bool) (l : list A) :
  (forall x, In x l -> f x = g x) -> forallb f l = forallb g l.
Proof.
  induction l as [|x l IH]; intros H; [reflexivity|]. cbn [forallb].
  rewrite (H x) by now left. rewrite IH; [reflexivity|].
  intros y Hy. apply H. now right.
Qed.

Lemma forallb_Permutation {A} (f : A -> bool) (l l' : list A) :
  Permutation l l' -> forallb f l = forallb f l'.
Proof.
  induction 1; cbn [forallb]; try congruence.
  destruct (f x), (f y); reflexivity.
Qed.

Section SanitizeFurther.
Variable float_of_string : string -> result Q.
Variables (environ : gmap string string) (model : ModelWrapper) (check_values : bool).

Local Abbreviation thresh := (get_execution_error_thresh float_of_string environ).
Local Abbreviation step := (sanitize_tensor float_of_string environ model check_values).
Local Abbreviation loop := (sanitize_loop float_of_string environ model check_values).
Local Abbreviation dt_of := (get_tensor_datatype model).
Local Abbreviation sanitize l :=
  (sanitize_quant_values float_of_string environ model l check_values).

(** What one iteration does to the store and to the warnings: it stores
    nothing new, or it stores the rounding of a tensor that was not
    allowed, after the tolerance test, and has warned about it. *)
Lemma step_cases (t : string) (st : exec_state) :
  (execution_context (snd (step t st)) = execution_context st
   /\ (warnings (snd (step t st)) = warnings st
       \/ (warnings (snd (step t st)) = warnings st ++ [(t, DataType.name (dt_of t))]
           /\ DataType.is_integer (dt_of t) = true)))
  \/ (exists v th,
        DataType.is_integer (dt_of t) = true
        /\ execution_context st !! t = Some v
        /\ all_allowed (dt_of t) v = false
        /\ thresh = Ok th
        /\ Forall (fun x => Qabs (x - np_round x) <= th) (data v)
        /\ fst (step t st) = Ok tt
        /\ execution_context (snd (step t st))
           = <[t := np_map np_round v]> (execution_context st)
        /\ warnings (snd (step t st)) = warnings st ++ [(t, DataType.name (dt_of t))]).
Proof.
  unfold sanitize_tensor.
  destruct (DataType.is_integer (dt_of t)) eqn:Hint; cbn [negb];
    [|left; split; [reflexivity | now left]].
  destruct (execution_context st !! t) as [cur|] eqn:Hcur;
    [|left; split; [reflexivity | now left]].
  destruct (all_allowed (dt_of t) cur) eqn:Hal.
  - left.
    destruct (py_max _); [|split; [reflexivity | now left]].
    destruct thresh; [|split; [reflexivity | now left]].
    destruct (Qle_bool _ _); [|split; [reflexivity | now left]].
    rewrite Hal, andb_false_r. cbn [snd execution_context warnings].
    split; [now apply insert_id | now left].
  - destruct (py_max _) as [m|] eqn:Hm;
      [|left; split; [reflexivity | right; split; reflexivity]].
    destruct thresh as [th|] eqn:Hth;
      [|left; split; [reflexivity | right; split; reflexivity]].
    destruct (Qle_bool m th) eqn:Hle;
      [|left; split; [reflexivity | right; split; reflexivity]].
    destruct (check_values && _);
      [left; split; [reflexivity | right; split; reflexivity]|].
    right. exists cur, th. repeat split; try reflexivity; try assumption.
    now apply (max_error_within cur m th Hm).
Qed.

(** The outcome of an iteration, and the entry it leaves, depend on the
    store only through the entry of its tensor. *)
Lemma step_entry (t : string) (st s : exec_state) :
  execution_context st !! t = execution_context s !! t ->
  fst (step t st) = fst (step t s)
  /\ execution_context (snd (step t st)) !! t
     = execution_context (snd (step t s)) !! t.
Proof.
  intros E. unfold sanitize_tensor. rewrite E.
  destruct (negb _); [split; [reflexivity | exact E]|].
  destruct (execution_context s !! t) as [cur|] eqn:Hs;
    [|split; [reflexivity | cbn [snd fst execution_context]; congruence]].
  destruct (all_allowed (dt_of t) cur); cbn [snd fst execution_context];
    (destruct (py_max _); [|split; [reflexivity | cbn [snd fst execution_context]; congruence]]);
    (destruct thresh; [|split; [reflexivity | cbn [snd fst execution_context]; congruence]]);
    (destruct (Qle_bool _ _); [|split; [reflexivity | cbn [snd fst execution_context]; congruence]]);
    (destruct (check_values && _); cbn [snd fst execution_context];
     [split; [reflexivity | congruence]|]);
    (split; [reflexivity|]); now rewrite !lookup_insert_eq.
Qed.

(** What a successful iteration on an integer-typed tensor has checked. *)
Lemma step_ok_result (t : string) (st : exec_state) :
  fst (step t st) = Ok tt ->
  DataType.is_integer (dt_of t) = true ->
  exists v w th,
    execution_context st !! t = Some v
    /\ execution_context (snd (step t st)) !! t = Some w
    /\ thresh = Ok th
    /\ data v <> []
    /\ shape w = shape v /\ dtype w = dtype v
    /\ Forall2 (fun x y => Qabs (x - y) <= th) (data v) (data w)
    /\ (check_values = true -> all_allowed (dt_of t) w = true).
Proof.
  unfold sanitize_tensor. intros E Hint. rewrite Hint in *. cbn [negb] in *.
  destruct (execution_context st !! t) as [cur|] eqn:Hcur; [|discriminate].
  destruct (all_allowed (dt_of t) cur) eqn:Hal.
  - destruct (py_max _) as [m|] eqn:Hm; [|discriminate].
    destruct thresh as [th|] eqn:Hth; [|discriminate].
    destruct (Qle_bool m th) eqn:Hle; [|discriminate].
    rewrite Hal, andb_false_r in *. cbn [snd execution_context].
    destruct (py_max_ok_nonneg _ _ Hm (abs_differences_nonneg cur cur)) as [Hne Hm0].
    apply Qle_bool_iff in Hle.
    exists cur, cur, th. rewrite lookup_insert_eq. repeat split; try reflexivity.
    + now apply abs_differences_nonempty in Hne.
    + apply Forall2_abs_same. lra.
    + intros _. exact Hal.
  - destruct (py_max _) as [m|] eqn:Hm; [|discriminate].
    destruct thresh as [th|] eqn:Hth; [|discriminate].
    destruct (Qle_bool m th) eqn:Hle; [|discriminate].
    destruct (check_values && _) eqn:Hc; [discriminate|].
    cbn [snd execution_context].
    assert (Hne : abs_differences cur (np_map np_round cur) <> []).
    { intros Hnil. rewrite Hnil in Hm. discriminate. }
    exists cur, (np_map np_round cur), th. rewrite lookup_insert_eq.
    repeat split; try reflexivity.
    + now apply abs_differences_nonempty in Hne.
    + cbn [np_map data]. apply Forall2_abs_rounded.
      now apply (max_error_within cur m th Hm).
    + intros ->. cbn [andb] in Hc. now apply negb_false_iff in Hc.
Qed.

Lemma step_ok_again (t : string) (st s : exec_state) :
  step t st = (Ok tt, s) ->
  fst (step t s) = Ok tt
  /\ execution_context (snd (step t s)) = execution_context s.
Proof.
  intros Es.
  pose proof (step_ok_settles float_of_string environ model check_values
                t st s t Es (or_introl eq_refl)) as Hs.
  destruct (step_settled float_of_string environ model check_values t s Hs)
    as (s' & Es' & Ec).
  rewrite Es'. split; [reflexivity | exact Ec].
Qed.

(** The loop succeeds exactly when every iteration succeeds on the
    initial store. *)
Lemma loop_ok_iff (l : list string) (st : exec_state) :
  is_ok (fst (loop l st)) = forallb (fun t => is_ok (fst (step t st))) l.
Proof.
  revert st. induction l as [|t rest IH]; intros st; [reflexivity|].
  cbn [sanitize_loop forallb].
  destruct (step t st) as [[[]|e] s] eqn:Es; [|reflexivity].
  cbn [fst is_ok andb]. rewrite IH. apply forallb_ext_in. intros name _.
  destruct (decide (name = t)) as [->|Hne].
  - destruct (step_ok_again t st s Es) as [-> _]. now rewrite Es.
  - assert (Hs : execution_context s !! name = execution_context st !! name).
    { replace s with (snd (step t st)) by now rewrite Es.
      apply (step_other float_of_string environ model check_values t name st Hne). }
    now rewrite (proj1 (step_entry name s st Hs)).
Qed.

(** After a successful loop the entry of a listed tensor is the one its
    own iteration leaves from the initial store, and the others are as
    they were. *)
Lemma loop_ok_entries (l : list string) (st st' : exec_state) (name : string) :
  loop l st = (Ok tt, st') ->
  execution_context st' !! name
  = if in_dec string_dec name l
    then execution_context (snd (step name st)) !! name
    else execution_context st !! name.
Proof.
  revert st. induction l as [|t rest IH]; intros st E.
  - injection E as <-. reflexivity.
  - cbn [sanitize_loop] in E.
    destruct (step t st) as [[[]|e] s] eqn:Es; [|discriminate].
    rewrite (IH s E).
    assert (Hother : name <> t ->
                     execution_context s !! name = execution_context st !! name).
    { intros Hne. replace s with (snd (step t st)) by now rewrite Es.
      apply (step_other float_of_string environ model check_values t name st Hne). }
    destruct (in_dec string_dec name rest) as [Hin|Hnin];
      destruct (in_dec string_dec name (t :: rest)) as [Hin'|Hnin'].
    + destruct (decide (name = t)) as [->|Hne].
      * destruct (step_ok_again t st s Es) as [_ ->]. now rewrite Es.
      * symmetry. apply step_entry. symmetry. now apply Hother.
    + exfalso. apply Hnin'. now right.
    + destruct Hin' as [<-|Hin']; [|contradiction]. now rewrite Es.
    + apply Hother. intros ->. apply Hnin'. now left.
Qed.

Lemma loop_ok_unit (l : list string) (st : exec_state) :
  is_ok (fst (loop l st)) = true -> loop l st = (Ok tt, snd (loop l st)).
Proof. destruct (loop l st) as [[[]|e] s]; [reflexivity | discriminate]. Qed.

Lemma sanitize_loop_result (l : list string) (st : exec_state) :
  sanitize l st
  = match loop l st with
    | (Ok _, st') => (Ok (execution_context st'), st')
    | (Raise e, st') => (Raise e, st')
    end.
Proof. reflexivity. Qed.

(** Entry by entry, whatever the outcome. *)
Lemma loop_entries (l : list string) (st : exec_state) (name : string) :
  execution_context (snd (loop l st)) !! name = execution_context st !! name
  \/ exists v th,
       execution_context st !! name = Some v
       /\ execution_context (snd (loop l st)) !! name = Some (np_map np_round v)
       /\ In name l
       /\ DataType.is_integer (dt_of name) = true
       /\ all_allowed (dt_of name) v = false
       /\ thresh = Ok th
       /\ Forall (fun x => Qabs (x - np_round x) <= th) (data v).
Proof.
  revert st. induction l as [|t rest IH]; intros st; [now left|].
  cbn [sanitize_loop].
  destruct (step_cases t st) as [[Hc _]|(v & th & Hint & Hv & Hal & Hth & HF & Hok & Hc & _)].
  - destruct (step t st) as [[[]|e] s] eqn:Es; cbn [snd] in *;
      [|left; now rewrite Hc].
    destruct (IH s) as [H|(v & th & Hv & Hf & Hin & H)].
    + left. now rewrite H, Hc.
    + right. exists v, th. rewrite <- Hc. repeat split; try tauto. now right.
  - destruct (step t st) as [[[]|e] s] eqn:Es; cbn [snd fst] in *; [|discriminate].
    destruct (decide (name = t)) as [->|Hne].
    + right. exists v, th. repeat split; try assumption; [|now left].
      destruct (IH s) as [H|(v' & th' & Hv' & Hf & _)].
      * now rewrite H, Hc, lookup_insert_eq.
      * rewrite Hc, lookup_insert_eq in Hv'. injection Hv' as <-.
        now rewrite Hf, np_map_round_idempotent.
    + assert (Hs : execution_context s !! name = execution_context st !! name)
        by now rewrite Hc, lookup_insert_ne.
      destruct (IH s) as [H|(v' & th' & Hv' & Hf & Hin & H)].
      * left. now rewrite H.
      * right. exists v', th'. rewrite <- Hs. repeat split; try tauto. now right.
Qed.

(** X14. Whether the call returns or raises, every entry of the store is
    afterwards what it was or the rounding of what it was; an entry is
    only rounded for a listed tensor of integer datatype whose values were
    not all allowed and differ from their roundings by at most the
    tolerance.  A failing call can so leave tensors rounded. *)
Theorem sanitize_entries_kept_or_rounded (node_tensors : list string)
    (st : exec_state) (name : string) :
  let st' := snd (sanitize node_tensors st) in
  execution_context st' !! name = execution_context st !! name
  \/ exists v th,
       execution_context st !! name = Some v
       /\ execution_context st' !! name = Some (np_map np_round v)
       /\ In name node_tensors
       /\ DataType.is_integer (dt_of name) = true
       /\ all_allowed (dt_of name) v = false
       /\ thresh = Ok th
       /\ Forall (fun x => Qabs (x - np_round x) <= th) (data v).
Proof.
  cbn zeta. rewrite sanitize_loop_result.
  pose proof (loop_entries node_tensors st name) as H.
  destruct (loop node_tensors st) as [[[]|e] s]; exact H.
Qed.

(** X15. A call that returns has found every listed tensor of integer
    datatype in the store, non-empty; the returned store is the final
    store, and in it such a tensor has the shape and container type it
    had, each value within the tolerance of the value it had, and with
    the strict check all values allowed. *)
Theorem sanitize_success_within_tolerance (node_tensors : list string)
    (st : exec_state) (ctx' : gmap string ndarray) (name : string) :
  fst (sanitize node_tensors st) = Ok ctx' ->
  In name node_tensors ->
  DataType.is_integer (dt_of name) = true ->
  ctx' = execution_context (snd (sanitize node_tensors st))
  /\ exists v w th,
       execution_context st !! name = Some v
       /\ ctx' !! name = Some w
       /\ thresh = Ok th
       /\ data v <> []
       /\ shape w = shape v /\ dtype w = dtype v
       /\ Forall2 (fun x y => Qabs (x - y) <= th) (data v) (data w)
       /\ (check_values = true -> all_allowed (dt_of name) w = true).
Proof.
  rewrite sanitize_loop_result. intros E Hin Hint.
  assert (Hok : is_ok (fst (loop node_tensors st)) = true).
  { destruct (loop node_tensors st) as [[[]|e] s]; [reflexivity | discriminate]. }
  pose proof (loop_ok_unit _ _ Hok) as El.
  rewrite El in E |- *. cbn [fst snd] in *. injection E as <-.
  split; [reflexivity|].
  rewrite loop_ok_iff, forallb_forall in Hok. specialize (Hok name Hin).
  assert (Hstep : fst (step name st) = Ok tt).
  { destruct (fst (step name st)) as [[]|]; [reflexivity | discriminate]. }
  rewrite (loop_ok_entries _ _ _ name El).
  destruct (in_dec string_dec name node_tensors) as [_|Hn]; [|contradiction].
  destruct (step_ok_result name st Hstep Hint) as (v & w & th & H).
  exists v, w, th. exact H.
Qed.

(** X16. The call on a list returns exactly when the call on each of its
    tensors alone returns from the same store; it then gives each listed
    tensor the entry the call on that tensor alone gives it and leaves
    the other entries as they were. *)
Theorem sanitize_succeeds_iff_each (node_tensors : list string) (st : exec_state) :
  is_ok (fst (sanitize node_tensors st))
  = forallb (fun t => is_ok (fst (sanitize [t] st))) node_tensors
  /\ forall ctx' name,
       fst (sanitize node_tensors st) = Ok ctx' ->
       ctx' !! name
       = if in_dec string_dec name node_tensors
         then execution_context (snd (sanitize [name] st)) !! name
         else execution_context st !! name.
Proof.
  assert (Hsingle : forall t,
             is_ok (fst (sanitize [t] st)) = is_ok (fst (step t st))
             /\ execution_context (snd (sanitize [t] st))
                = execution_context (snd (step t st))).
  { intros t. rewrite sanitize_loop_result. cbn [sanitize_loop].
    destruct (step t st) as [[[]|e] s]; split; reflexivity. }
  split.
  - rewrite sanitize_loop_result.
    transitivity (is_ok (fst (loop node_tensors st))).
    { destruct (loop node_tensors st) as [[[]|e] s]; reflexivity. }
    rewrite loop_ok_iff. apply forallb_ext_in. intros t _.
    symmetry. apply Hsingle.
  - intros ctx' name. rewrite sanitize_loop_result. intros E.
    destruct (loop node_tensors st) as [[[]|e] s] eqn:El; [|discriminate].
    cbn [fst] in E. injection E as <-.
    rewrite (loop_ok_entries _ _ _ name El).
    destruct (in_dec string_dec name node_tensors); [|reflexivity].
    now rewrite (proj2 (Hsingle name)).
Qed.

(** X17. The order of the listed tensors, and listing one twice, does not
    matter for whether the call returns nor for the store it returns. *)
Theorem sanitize_order_independent (l l' : list string) (st : exec_state) :
  (forall name, In name l <-> In name l') ->
  match fst (sanitize l st), fst (sanitize l' st) with
  | Ok ctx, Ok ctx' => ctx = ctx'
  | Raise _, Raise _ => True
  | _, _ => False
  end.
Proof.
  intros Hsame. rewrite !sanitize_loop_result.
  assert (Hok : is_ok (fst (loop l st)) = is_ok (fst (loop l' st))).
  { rewrite !loop_ok_iff. apply eq_true_iff_eq.
    rewrite !forallb_forall. split; intros H x Hx; apply H, Hsame, Hx. }
  destruct (loop l st) as [[[]|e] s] eqn:El;
    destruct (loop l' st) as [[[]|e'] s'] eqn:El'; cbn [fst is_ok] in *;
    try discriminate; [|exact I].
  apply map_eq. intros name.
  rewrite (loop_ok_entries _ _ _ name El), (loop_ok_entries _ _ _ name El').
  destruct (in_dec string_dec name l) as [Hi|Hi];
    destruct (in_dec string_dec name l') as [Hi'|Hi']; try reflexivity;
    exfalso; apply Hsame in Hi || apply Hi, Hsame, Hi'; contradiction.
Qed.

Lemma loop_warnings (l : list string) (st : exec_state) :
  exists ws,
    warnings (snd (loop l st)) = warnings st ++ ws
    /\ (length ws <= length l)%nat
    /\ Forall (fun w => In (fst w) l
                        /\ snd w = DataType.name (dt_of (fst w))
                        /\ DataType.is_integer (dt_of (fst w)) = true) ws
    /\ forall name,
         execution_context (snd (loop l st)) !! name <> execution_context st !! name ->
         In (name, DataType.name (dt_of name)) ws.
Proof.
  revert st. induction l as [|t rest IH]; intros st.
  { exists []. cbn [sanitize_loop snd length]. rewrite app_nil_r.
    split; [reflexivity|]. split; [lia|]. split; [apply List.Forall_nil | congruence]. }
  cbn [sanitize_loop].
  assert (Hweak : forall ws : list (string * string),
             Forall (fun w => In (fst w) rest
                              /\ snd w = DataType.name (dt_of (fst w))
                              /\ DataType.is_integer (dt_of (fst w)) = true) ws ->
             Forall (fun w => In (fst w) (t :: rest)
                              /\ snd w = DataType.name (dt_of (fst w))
                              /\ DataType.is_integer (dt_of (fst w)) = true) ws).
  { intros ws HF. eapply Forall_impl; [exact HF|].
    intros w (H1 & H2 & H3). repeat split; try assumption. now right. }
  destruct (step_cases t st)
    as [[Hc Hw]|(v & th & Hint & Hv & Hal & Hth & HF & Hok & Hc & Hw)].
  - assert (Hw1 : exists ws1,
               warnings (snd (step t st)) = warnings st ++ ws1
               /\ (length ws1 <= 1)%nat
               /\ Forall (fun w => In (fst w) (t :: rest)
                                   /\ snd w = DataType.name (dt_of (fst w))
                                   /\ DataType.is_integer (dt_of (fst w)) = true) ws1).
    { destruct Hw as [Hw|[Hw Hint]].
      - exists []. rewrite app_nil_r.
        split; [exact Hw|]. split; [cbn; lia | apply List.Forall_nil].
      - exists [(t, DataType.name (dt_of t))].
        split; [exact Hw|]. split; [cbn; lia|].
        apply List.Forall_cons; [|apply List.Forall_nil]. cbn [fst snd].
        repeat split; [now left | exact Hint]. }
    destruct Hw1 as (ws1 & Hw1 & Hl1 & HF1).
    destruct (step t st) as [[[]|e] s] eqn:Es; cbn [snd] in *.
    + destruct (IH s) as (ws & Hws & Hl & HFs & Hch).
      exists (ws1 ++ ws). rewrite Hws, Hw1, <- app_assoc, length_app.
      split; [reflexivity|]. split; [cbn [length]; lia|].
      split; [apply Forall_app; split; [exact HF1 | now apply Hweak]|].
      intros name Hd. apply in_or_app. right. apply Hch. now rewrite Hc.
    + exists ws1. split; [exact Hw1|]. split; [cbn [length]; lia|].
      split; [exact HF1|]. congruence.
  - destruct (step t st) as [[[]|e] s] eqn:Es; cbn [snd fst] in *; [|discriminate].
    destruct (IH s) as (ws & Hws & Hl & HFs & Hch).
    exists ((t, DataType.name (dt_of t)) :: ws).
    rewrite Hws, Hw, <- app_assoc. cbn [app length].
    split; [reflexivity|]. split; [lia|].
    split; [apply List.Forall_cons; [|now apply Hweak]|].
    + cbn [fst snd]. repeat split; [now left | exact Hint].
    + intros name Hd. destruct (decide (name = t)) as [->|Hne]; [now left|].
      right. apply Hch. now rewrite Hc, lookup_insert_ne.
Qed.

(** X18. The call only appends warnings, at most one for each listed
    tensor; each names a listed tensor of integer datatype together with
    the name of that datatype, and every tensor whose entry has changed
    has been warned about, whether the call returns or raises. *)
Theorem sanitize_warns_about_every_change (node_tensors : list string)
    (st : exec_state) :
  let st' := snd (sanitize node_tensors st) in
  exists ws,
    warnings st' = warnings st ++ ws
    /\ (length ws <= length node_tensors)%nat
    /\ Forall (fun w => In (fst w) node_tensors
                        /\ snd w = DataType.name (dt_of (fst w))
                        /\ DataType.is_integer (dt_of (fst w)) = true) ws
    /\ forall name,
         execution_context st' !! name <> execution_context st !! name ->
         In (name, DataType.name (dt_of name)) ws.
Proof.
  cbn zeta. rewrite sanitize_loop_result.
  pose proof (loop_warnings node_tensors st) as H.
  destruct (loop node_tensors st) as [[[]|e] s]; exact H.
Qed.
End SanitizeFurther.

(** ** [gen_finn_dt_tensor], continued *)

Section GeneratorFurther.
Context {FR : FloatRounding} {NR : NumpyRandom} {PR : PyRandom}.
Variable DataType_getitem : string -> result DataType.t.

Local Abbreviation gen := (gen_finn_dt_tensor DataType_getitem).
Local Abbreviation draw := (draw_tensor_values DataType_getitem).

Ltac bind_cases H :=
  repeat match type of H with
         | mbind _ ?e = Ok _ =>
             let E := fresh "E" in
             destruct e eqn:E; cbn [mbind result_bind] in H; [|discriminate H]
         end.

Lemma draw_shape (finn_dt : DataType.t) (tensor_shape : list Z)
    (rmin rmax : option Q) (rng : RandomState) (tv : ndarray) :
  draw finn_dt tensor_shape rmin rmax rng = Ok tv -> shape tv = tensor_shape.
Proof.
  unfold draw_tensor_values. intros H.
  destruct (dt_is finn_dt "BIPOLAR"); [bind_cases H; now injection H as <-|].
  destruct (dt_is finn_dt "BINARY"); [bind_cases H; now injection H as <-|].
  destruct (str_in "INT" _ || dt_is finn_dt "TERNARY");
    [bind_cases H; now injection H as <-|].
  destruct (str_in "FIXED" _); [bind_cases H; now injection H as <-|].
  destruct (dt_is finn_dt "FLOAT32" || dt_is finn_dt "FLOAT16"); [|discriminate].
  destruct rmin, rmax; bind_cases H; now injection H as <-.
Qed.

(** X19. Whatever the datatype, a returned tensor has the asked shape and
    a floating-point container: float16 for FLOAT16 and float32 for every
    other datatype. *)
Theorem gen_shape_and_container (finn_dt : DataType.t) (tensor_shape : list Z)
    (rmin rmax : option Q) (seed : Z) (w : process_state) (t : ndarray) :
  fst (gen finn_dt tensor_shape rmin rmax seed w) = Ok t ->
  shape t = tensor_shape
  /\ dtype t = (if dt_is finn_dt "FLOAT16" then np_float16 else np_float32)
  /\ is_float_dtype (dtype t) = true.
Proof.
  intros Hgen.
  apply (gen_unfold DataType_getitem) in Hgen as (rng & tv & Hrng & Hdraw & ->).
  apply draw_shape in Hdraw.
  destruct (dt_is finn_dt "FLOAT16"); cbn [astype_float16 astype_float32 shape dtype];
    repeat split; assumption.
Qed.

(** X21. For BIPOLAR and BINARY the bounds are not used: the call gives
    what it gives without them. *)
Theorem gen_two_valued_ignores_bounds (finn_dt : DataType.t) (tensor_shape : list Z)
    (rmin rmax : option Q) (seed : Z) (w : process_state) :
  dt_is finn_dt "BIPOLAR" || dt_is finn_dt "BINARY" = true ->
  gen finn_dt tensor_shape rmin rmax seed w
  = gen finn_dt tensor_shape None None seed w.
Proof.
  intros H. unfold gen_finn_dt_tensor, draw_tensor_values.
  destruct (dt_is finn_dt "BIPOLAR"); [reflexivity|].
  destruct (dt_is finn_dt "BINARY"); [reflexivity | discriminate].
Qed.

Lemma fixed_not_float16 (finn_dt : DataType.t) :
  str_in "FIXED" (DataType.name finn_dt) = true -> dt_is finn_dt "FLOAT16" = false.
Proof.
  unfold dt_is. intros H.
  destruct (String.eqb (DataType.name finn_dt) "FLOAT16") eqn:E; [|reflexivity].
  apply String.eqb_eq in E. rewrite E in H. discriminate.
Qed.

Context {NL : NumpyRandomLaws NR}.

(** X20. Without bounds, the elements generated for a datatype of the
    integer branch whose minimum and maximum are integers of magnitude at
    most 2^24 are, unchanged, the samples of [randint] called with the
    minimum of the datatype as the lower bound and the maximum plus one as
    the excluded upper bound: every element is an integer between the
    minimum and the maximum, the maximum included. *)
Theorem gen_default_bounds (finn_dt : DataType.t) (tensor_shape : list Z)
    (seed : Z) (w : process_state) (t : ndarray) (lo hi : Z) :
  fst (gen finn_dt tensor_shape None None seed w) = Ok t ->
  integer_branch finn_dt = true ->
  DataType.min finn_dt == inject_Z lo ->
  DataType.max finn_dt == inject_Z hi ->
  (- 2 ^ 24 <= lo)%Z -> (hi <= 2 ^ 24)%Z ->
  exists rng np_dt vs rng',
    RandomState_seed seed = Ok rng
    /\ DataType.to_numpy_dt finn_dt = Ok np_dt
    /\ randint (DataType.min finn_dt) (DataType.max finn_dt + 1)
         tensor_shape np_dt rng = (Ok vs, rng')
    /\ data t = map inject_Z vs
    /\ Forall (fun v => lo <= v < hi + 1)%Z vs
    /\ Forall (fun x => DataType.min finn_dt <= x /\ x <= DataType.max finn_dt) (data t).
Proof.
  intros Hgen Hb Hlo Hhi Hl Hh.
  apply (gen_unfold DataType_getitem) in Hgen as (rng & tv & Hrng & Hdraw & ->).
  rewrite (integer_branch_not_float16 _ Hb).
  unfold integer_branch in Hb.
  apply andb_prop in Hb as [Hb Hint]. apply andb_prop in Hb as [Hbi Hbin].
  apply negb_true_iff in Hbi, Hbin.
  unfold draw_tensor_values in Hdraw. rewrite Hbi, Hbin, Hint in Hdraw.
  cbn [from_option] in Hdraw.
  destruct (DataType.to_numpy_dt finn_dt) as [np_dt|]; [|discriminate].
  cbn [mbind result_bind] in Hdraw.
  destruct (randint (DataType.min finn_dt) (DataType.max finn_dt + 1)
              tensor_shape np_dt rng) as [[vs|] s'] eqn:Er; [|discriminate].
  cbn [fst mbind result_bind] in Hdraw. injection Hdraw as <-.
  assert (Hhi' : DataType.max finn_dt + 1 == inject_Z (hi + 1)).
  { rewrite inject_Z_plus, Hhi. reflexivity. }
  pose proof (randint_range _ _ _ _ _ _ _ lo (hi + 1)%Z Er Hlo Hhi') as Hvs.
  assert (Hdata : data (astype_float32 (int_array tensor_shape np_dt vs))
                  = map inject_Z vs).
  { rewrite astype_float32_int_array
      by (eapply randint_integer_dtype; eassumption).
    apply map_ext_in. intros v Hv. rewrite List.Forall_forall in Hvs.
    specialize (Hvs v Hv). cbn beta in Hvs.
    rewrite float32_of_Z_exact by lia. reflexivity. }
  exists rng, np_dt, vs, s'.
  split; [exact Hrng|]. split; [reflexivity|]. split; [exact Er|].
  split; [exact Hdata|]. split; [exact Hvs|].
  rewrite Hdata. apply Forall_map. eapply Forall_impl; [exact Hvs|].
  intros v Hv. cbn beta in Hv |- *. rewrite Hlo, Hhi.
  split; rewrite <- Zle_Qle; lia.
Qed.

(** X22. Without bounds, every element generated for a fixed-point
    datatype is an integer of the range of the signed integer type of the
    same bit width, times the scale factor of the datatype, rounded to
    binary64 and then to binary32. *)
Theorem gen_fixed_scaled_integers (finn_dt int_dt : DataType.t)
    (tensor_shape : list Z) (seed : Z) (w : process_state) (t : ndarray) (lo hi : Z) :
  fst (gen finn_dt tensor_shape None None seed w) = Ok t ->
  dt_is finn_dt "BIPOLAR" = false -> dt_is finn_dt "BINARY" = false ->
  str_in "INT" (DataType.name finn_dt) || dt_is finn_dt "TERNARY" = false ->
  str_in "FIXED" (DataType.name finn_dt) = true ->
  DataType_getitem ("INT" +:+ pretty (DataType.bitwidth finn_dt)) = Ok int_dt ->
  DataType.min int_dt == inject_Z lo ->
  DataType.max int_dt == inject_Z hi ->
  Forall (fun x => exists v, (lo <= v <= hi)%Z
                     /\ x = fl32 (fl64 (inject_Z v * DataType.scale_factor finn_dt)))
    (data t).
Proof.
  intros Hgen Hbi Hbin Hint Hfix Hget Hlo Hhi.
  apply (gen_unfold DataType_getitem) in Hgen as (rng & tv & Hrng & Hdraw & ->).
  rewrite (fixed_not_float16 _ Hfix).
  unfold draw_tensor_values in Hdraw. rewrite Hbi, Hbin, Hint, Hfix, Hget in Hdraw.
  cbn [mbind result_bind from_option] in Hdraw.
  destruct (DataType.to_numpy_dt int_dt) as [np_dt|]; [|discriminate].
  cbn [mbind result_bind] in Hdraw.
  destruct (randint (DataType.min int_dt) (DataType.max int_dt + 1)
              tensor_shape np_dt rng) as [[vs|] s'] eqn:Er; [|discriminate].
  cbn [fst mbind result_bind] in Hdraw. injection Hdraw as <-.
  assert (Hhi' : DataType.max int_dt + 1 == inject_Z (hi + 1)).
  { rewrite inject_Z_plus, Hhi. reflexivity. }
  pose proof (randint_range _ _ _ _ _ _ _ lo (hi + 1)%Z Er Hlo Hhi') as Hvs.
  unfold astype_float32. cbn [data dtype is_float_dtype].
  rewrite map_map. apply Forall_map. eapply Forall_impl; [exact Hvs|].
  intros v Hv. cbn beta in Hv |- *. exists v. split; [lia | reflexivity].
Qed.
End GeneratorFurther.

(** ** [random_string] *)

Section RandomStringProps.
Context {NR : NumpyRandom} {PR : PyRandom}.

Lemma nth_letters_digits (i : nat) :
  In (nth i ascii_letters_digits "a"%char) ascii_letters_digits.
Proof.
  destruct (Nat.lt_ge_cases i (length ascii_letters_digits)) as [H|H].
  - now apply nth_In.
  - rewrite nth_overflow by exact H. now left.
Qed.

Lemma random_chars_spec (n : nat) (g : py_random_state) :
  length (fst (random_chars n g)) = n
  /\ Forall (fun c => In c ascii_letters_digits) (fst (random_chars n g)).
Proof.
  revert g. induction n as [|n IH]; intros g; cbn [random_chars].
  - split; [reflexivity | constructor].
  - destruct (py_random_choice (length ascii_letters_digits) g) as [i g1].
    specialize (IH g1). destruct (random_chars n g1) as [cs g2].
    cbn [fst] in *. destruct IH as [Hl HF]. split.
    + cbn [length]. now rewrite Hl.
    + apply List.Forall_cons; [apply nth_letters_digits | exact HF].
Qed.

(** X23. The string has the asked length, consists of ASCII letters and
    digits only, and drawing it leaves NumPy's generator as it was. *)
Theorem random_string_length_and_alphabet (stringLength : nat) (w : process_state) :
  String.length (fst (random_string stringLength w)) = stringLength
  /\ Forall (fun c => In c ascii_letters_digits)
       (list_ascii_of_string (fst (random_string stringLength w)))
  /\ np_random_global (snd (random_string stringLength w)) = np_random_global w.
Proof.
  unfold random_string.
  destruct (random_chars_spec stringLength (random_global w)) as [Hl HF].
  destruct (random_chars stringLength (random_global w)) as [cs g].
  cbn [fst snd np_random_global] in *.
  rewrite list_ascii_of_string_of_list_ascii.
  repeat split; [|exact HF].
  rewrite <- Hl. clear. induction cs as [|c cs IH]; [reflexivity|].
  cbn [string_of_list_ascii String.length length]. now rewrite IH.
Qed.
End RandomStringProps.

(** ** [auto_pad_to_explicit_padding] *)

Lemma int_of_half_small (z : Z) :
  (Z.abs z < 2 ^ 53)%Z -> int_of_half z = Returns (Z.quot z 2).
Proof.
  intros H. unfold int_of_half, float64_of_Z.
  rewrite (proj2 (Z.ltb_lt _ _) H).
  assert (Hp : (2 ^ 53 < 2 ^ 1025)%Z) by (apply Z.pow_lt_mono_r; lia).
  rewrite (proj2 (Z.leb_gt _ _)) by lia. reflexivity.
Qed.

Lemma quot2_split (t : Z) :
  (Z.quot t 2 + (t - Z.quot t 2) = t
   /\ Z.abs (Z.quot t 2) <= Z.abs (t - Z.quot t 2) <= Z.abs (Z.quot t 2) + 1
   /\ (0 <= t -> 0 <= Z.quot t 2 <= t - Z.quot t 2)
   /\ (t <= 0 -> t - Z.quot t 2 <= Z.quot t 2 <= 0))%Z.
Proof.
  pose proof (Z.quot_rem' t 2) as E.
  destruct (Z.le_gt_cases 0 t) as [Hs|Hs].
  - pose proof (Z.rem_bound_pos t 2 Hs ltac:(lia)).
    pose proof (Z.quot_pos t 2 Hs ltac:(lia)). lia.
  - assert (Et : t = (- (- t))%Z) by lia.
    pose proof (Z.quot_opp_l (- t) 2 ltac:(lia)) as Hq. rewrite <- Et in Hq.
    pose proof (Z.quot_rem' (- t) 2).
    pose proof (Z.rem_bound_pos (- t) 2 ltac:(lia) ltac:(lia)).
    pose proof (Z.quot_pos (- t) 2 ltac:(lia) ltac:(lia)). lia.
Qed.

(** X24. For integer arguments whose total paddings are below 2^53 in
    magnitude, SAME_UPPER returns the truncated half of each total as the
    begin pad and the rest as the end pad, and SAME_LOWER the same with
    begin and end exchanged; begin and end add up to the total
    (stride - 1) * idim - stride + k and differ by at most one in
    magnitude, and no pad of a total that is not negative is negative. *)
Theorem auto_pad_same_split (idim_h idim_w k_h k_w stride_h stride_w n_dims : Z) :
  let pad_total_h := ((stride_h - 1) * idim_h - stride_h + k_h)%Z in
  let pad_total_w := ((stride_w - 1) * idim_w - stride_w + k_w)%Z in
  let bh := Z.quot pad_total_h 2 in
  let bw := Z.quot pad_total_w 2 in
  let eh := (pad_total_h - bh)%Z in
  let ew := (pad_total_w - bw)%Z in
  (Z.abs pad_total_h < 2 ^ 53)%Z -> (Z.abs pad_total_w < 2 ^ 53)%Z ->
  auto_pad_to_explicit_padding "SAME_UPPER" idim_h idim_w k_h k_w stride_h stride_w n_dims
  = Returns [bh; bw; eh; ew]
  /\ auto_pad_to_explicit_padding "SAME_LOWER" idim_h idim_w k_h k_w stride_h stride_w n_dims
     = Returns [eh; ew; bh; bw]
  /\ (bh + eh = pad_total_h /\ bw + ew = pad_total_w)%Z
  /\ (Z.abs bh <= Z.abs eh <= Z.abs bh + 1)%Z
  /\ (Z.abs bw <= Z.abs ew <= Z.abs bw + 1)%Z
  /\ (0 <= pad_total_h -> 0 <= bh <= eh)%Z
  /\ (0 <= pad_total_w -> 0 <= bw <= ew)%Z.
Proof.
  intros th tw bh bw eh ew Hh Hw.
  unfold auto_pad_to_explicit_padding. fold th tw.
  rewrite (int_of_half_small th Hh), (int_of_half_small tw Hw).
  fold bh bw. fold eh ew.
  destruct (quot2_split th) as (H1 & H2 & H3 & _).
  destruct (quot2_split tw) as (G1 & G2 & G3 & _).
  fold bh in H1, H2, H3. fold bw in G1, G2, G3.
  split; [reflexivity|]. split; [reflexivity|].
  unfold eh, ew. clearbody bh bw. lia.
Qed.

(** X25. With unit strides and odd kernel sizes 2*p + 1 both SAME modes
    pad by p on every side, whatever the input size. *)
Theorem auto_pad_unit_stride_odd_kernel (mode : string)
    (idim_h idim_w p_h p_w n_dims : Z) :
  mode = "SAME_UPPER" \/ mode = "SAME_LOWER" ->
  (0 <= p_h < 2 ^ 52)%Z -> (0 <= p_w < 2 ^ 52)%Z ->
  auto_pad_to_explicit_padding mode idim_h idim_w (2 * p_h + 1) (2 * p_w + 1) 1 1 n_dims
  = Returns [p_h; p_w; p_h; p_w].
Proof.
  intros Hmode Hh Hw. unfold auto_pad_to_explicit_padding.
  replace ((1 - 1) * idim_h - 1 + (2 * p_h + 1))%Z with (2 * p_h)%Z by ring.
  replace ((1 - 1) * idim_w - 1 + (2 * p_w + 1))%Z with (2 * p_w)%Z by ring.
  assert (H53 : (2 ^ 53 = 2 * 2 ^ 52)%Z) by reflexivity.
  rewrite !int_of_half_small by lia.
  assert (Eh : Z.quot (2 * p_h) 2 = p_h) by (rewrite Z.mul_comm; apply Z.quot_mul; lia).
  assert (Ew : Z.quot (2 * p_w) 2 = p_w) by (rewrite Z.mul_comm; apply Z.quot_mul; lia).
  rewrite Eh, Ew.
  replace (2 * p_h - p_h)%Z with p_h by ring.
  replace (2 * p_w - p_w)%Z with p_w by ring.
  destruct Hmode as [-> | ->]; reflexivity.
Qed.

(** ** [is_finn_op] *)

Lemma startswith_app (s p : string) :
  startswith s p = true <-> exists rest, s = p +:+ rest.
Proof.
  unfold startswith. revert s. induction p as [|a p IH]; intros s.
  - split; [intros _; now exists s | intros _; destruct s; reflexivity].
  - destruct s as [|b s]; cbn [String.prefix].
    + split; [discriminate | intros [rest H]; discriminate].
    + destruct (ascii_dec a b) as [->|Hne].
      * rewrite IH. split; intros [rest H]; exists rest.
        -- cbn. now rewrite H.
        -- cbn in H. now injection H.
      * split; [discriminate|]. intros [rest H]. cbn in H. injection H as H _.
        congruence.
Qed.

(** X26. An operator type is a custom operator type exactly when it is
    one of the three domain prefixes followed by any text; so every
    extension of a custom operator type is one too. *)
Theorem is_finn_op_iff_prefix (op_type : string) :
  (is_finn_op op_type = true
   <-> exists rest, op_type = "finn" +:+ rest
                    \/ op_type = "qonnx.custom_op" +:+ rest
                    \/ op_type = "onnx.brevitas" +:+ rest)
  /\ forall suffix, is_finn_op op_type = true ->
                    is_finn_op (op_type +:+ suffix) = true.
Proof.
  assert (Hiff : forall s, is_finn_op s = true
             <-> exists rest, s = "finn" +:+ rest
                              \/ s = "qonnx.custom_op" +:+ rest
                              \/ s = "onnx.brevitas" +:+ rest).
  { intros s. unfold is_finn_op. rewrite !orb_true_iff, !startswith_app. split.
    - intros [[[r H]|[r H]]|[r H]]; exists r; tauto.
    - intros [r [H|[H|H]]]; [left; left | left; right | right]; now exists r. }
  split; [apply Hiff|].
  intros suffix H. apply Hiff in H as [r H]. apply Hiff. exists (r +:+ suffix).
  destruct H as [-> | [-> | ->]]; [left | right; left | right; right]; reflexivity.
Qed.

(** ** The further properties on the examples *)

Lemma wf_example_rows : wf_array example_rows.
Proof.
  split; [|reflexivity].
  repeat apply List.Forall_cons; try apply List.Forall_nil; discriminate.
Qed.

Lemma pad_returns_target_shape_witness :
  exists ret,
    @pad_tensor_to_multiple_of exact_rounding (PyNdarray example_rows) [3; 4]%Z 0 true
    = Ok ret
    /\ shape ret = [6; 4]%Z
    /\ dtype ret = np_float32
    /\ wf_array ret.
Proof.
  apply (@pad_returns_target_shape exact_rounding (PyNdarray example_rows) example_rows
           [3; 4]%Z [6; 4]%Z 0 true).
  - reflexivity.
  - split; [|reflexivity].
    repeat apply List.Forall_cons; try apply List.Forall_nil; discriminate.
  - discriminate.
  - reflexivity.
  - reflexivity.
  - repeat apply List.Forall_cons; try apply List.Forall_nil; reflexivity.
Defined.

Lemma pad_unconstrained_unchanged_witness :
  @pad_tensor_to_multiple_of exact_rounding (PyNdarray example_rows) [-1; -1]%Z 7 true
  = Ok example_rows.
Proof.
  apply (@pad_unconstrained_unchanged exact_rounding (PyNdarray example_rows)
           example_rows 7 true).
  - reflexivity.
  - split; [|reflexivity].
    repeat apply List.Forall_cons; try apply List.Forall_nil; discriminate.
  - discriminate.
  - repeat apply List.Forall_cons; try apply List.Forall_nil; reflexivity.
Defined.

Lemma pad_outermost_placement_witness :
  @pad_tensor_to_multiple_of binary_rounding (PyNdarray example_rows) [3; -1]%Z
    (1 # 10) true
  = Ok (mk_ndarray [6; 2]%Z np_float32
          (repeat (13421773 # 134217728) 2 ++ data example_rows
           ++ repeat (13421773 # 134217728) 2)).
Proof.
  assert (H : Forall (fun d => d < 2 ^ 31)%Z [6; 2]%Z)
    by (repeat apply List.Forall_cons; try apply List.Forall_nil; reflexivity).
  assert (Hval : finite_in (dtype example_rows) (1 # 10))
    by (vm_compute; discriminate).
  exact (proj1 (@pad_outermost_placement binary_rounding (PyNdarray example_rows)
                  example_rows 4 3 6 [2]%Z (1 # 10) true
                  eq_refl wf_example_rows eq_refl eq_refl H Hval)).
Defined.

Lemma interleave_permutes_witness :
  exists out,
    @interleave_matrix_outer_dim_from_partitions exact_rounding
      (PyNdarray example_rows) 2%Z = Ok out
    /\ Permutation (data out) (data example_rows).
Proof.
  destruct (@interleave_permutes exact_rounding (PyNdarray example_rows) example_rows
              4 2 2) as (out & H1 & H2 & _).
  - reflexivity.
  - reflexivity.
  - reflexivity.
  - lia.
  - lia.
  - reflexivity.
  - exists out. split; assumption.
Defined.

Lemma interleave_rejects_witness :
  @interleave_matrix_outer_dim_from_partitions exact_rounding
    (PyNdarray example_rows) 3%Z
  = Raise (AssertionError
             "The outermost dimension is not divisable by the number of partitions.").
Proof.
  apply (proj1 (proj2 (@interleave_rejects exact_rounding (PyNdarray example_rows)
                         example_rows 3 4 [2]%Z eq_refl eq_refl))).
  - discriminate.
  - vm_compute. discriminate.
Defined.

(** The arithmetic on the example matrix is done in binary64 and stays
    within its finite range. *)
Lemma example_matrix_finite_INT8 :
  @finite_arithmetic binary_rounding example_matrix INT8 2 2
    (np_result_type (dtype example_matrix) (example_bounds_dtype INT8))
    (row_by_row 2).
Proof.
  split; [reflexivity|]. split; no_overflow_2x2.
Qed.

Lemma example_matrix_finite_BIPOLAR :
  @finite_arithmetic binary_rounding example_matrix BIPOLAR 2 2
    (np_result_type (dtype example_matrix) (example_bounds_dtype BIPOLAR))
    (row_by_row 2).
Proof.
  split; [reflexivity|]. split; no_overflow_2x2.
Qed.

Lemma matvec_range_ordered_witness :
  exists min_value max_value,
    @calculate_matvec_accumulator_range binary_rounding row_by_row example_bounds_dtype
      example_matrix INT8 = Ok (min_value, max_value)
    /\ min_value <= max_value.
Proof.
  destruct (@matvec_range_ordered binary_rounding binary_rounding_laws row_by_row
              example_bounds_dtype example_matrix INT8 2 2)
    as (mn & mx & H1 & H2 & _).
  - reflexivity.
  - reflexivity.
  - lia.
  - unfold adds_each_once. reflexivity.
  - vm_compute. discriminate.
  - exact example_matrix_finite_INT8.
  - exists mn, mx. split; assumption.
Defined.

Lemma matvec_range_monotone_witness :
  @calculate_matvec_accumulator_range binary_rounding row_by_row example_bounds_dtype
    example_matrix BIPOLAR = Ok (- 6, 6)
  /\ @calculate_matvec_accumulator_range binary_rounding row_by_row example_bounds_dtype
       example_matrix INT8 = Ok (- 766, 764)
  /\ - 766 <= - 6 /\ 6 <= 764.
Proof.
  split; [vm_compute; reflexivity|]. split; [vm_compute; reflexivity|].
  apply (@matvec_range_monotone binary_rounding binary_rounding_laws row_by_row
           example_bounds_dtype example_matrix BIPOLAR INT8 2 2).
  - reflexivity.
  - reflexivity.
  - lia.
  - unfold adds_each_once. reflexivity.
  - vm_compute. discriminate.
  - vm_compute. discriminate.
  - reflexivity.
  - exact example_matrix_finite_BIPOLAR.
  - exact example_matrix_finite_INT8.
  - vm_compute. reflexivity.
  - vm_compute. reflexivity.
Defined.

Lemma matvec_range_symmetric_witness :
  @calculate_matvec_accumulator_range binary_rounding row_by_row example_bounds_dtype
    example_matrix BIPOLAR = Ok (- 6, 6)
  /\ - 6 == - (6).
Proof.
  split; [vm_compute; reflexivity|].
  apply (@matvec_range_symmetric binary_rounding binary_rounding_laws row_by_row
           example_bounds_dtype example_matrix BIPOLAR 2 2).
  - reflexivity.
  - reflexivity.
  - lia.
  - unfold adds_each_once. reflexivity.
  - reflexivity.
  - exact example_matrix_finite_BIPOLAR.
  - vm_compute. reflexivity.
Defined.

Lemma sanitize_success_within_tolerance_witness :
  exists ctx' v w th,
    fst (example_sanitize ["x"; "w"] true example_state) = Ok ctx'
    /\ example_store !! "x" = Some v
    /\ ctx' !! "x" = Some w
    /\ get_execution_error_thresh example_float_of_string ∅ = Ok th
    /\ Forall2 (fun x y => Qabs (x - y) <= th) (data v) (data w)
    /\ all_allowed INT8 w = true.
Proof.
  assert (E : exists ctx', fst (example_sanitize ["x"; "w"] true example_state) = Ok ctx').
  { vm_compute. eexists. reflexivity. }
  destruct E as [ctx' E].
  destruct (proj2 (sanitize_success_within_tolerance example_float_of_string ∅
                     example_model true ["x"; "w"] example_state ctx' "x"
                     E (or_introl eq_refl) eq_refl))
    as (v & w & th & H1 & H2 & H3 & _ & _ & _ & H4 & H5).
  exists ctx', v, w, th. repeat split; try assumption. now apply H5.
Defined.

Lemma sanitize_order_independent_witness :
  match fst (example_sanitize ["x"; "w"] true example_state),
        fst (example_sanitize ["w"; "x"; "x"] true example_state) with
  | Ok ctx, Ok ctx' => ctx = ctx'
  | Raise _, Raise _ => True
  | _, _ => False
  end.
Proof.
  apply (sanitize_order_independent example_float_of_string ∅ example_model true
           ["x"; "w"] ["w"; "x"; "x"] example_state).
  intros name. simpl. tauto.
Defined.

Lemma gen_shape_and_container_witness :
  shape (mk_ndarray [5]%Z np_float32 [9; 9; 37; - 11; - 96]) = [5]%Z
  /\ dtype (mk_ndarray [5]%Z np_float32 [9; 9; 37; - 11; - 96])
     = (if dt_is INT8 "FLOAT16" then np_float16 else np_float32)
  /\ is_float_dtype (dtype (mk_ndarray [5]%Z np_float32 [9; 9; 37; - 11; - 96])) = true.
Proof.
  apply (@gen_shape_and_container exact_rounding lcg_random lcg_py_random
           example_getitem INT8 [5]%Z None None 42%Z example_process).
  reflexivity.
Defined.

Lemma gen_default_bounds_witness :
  exists rng np_dt vs rng',
    @RandomState_seed lcg_random 42%Z = Ok rng
    /\ DataType.to_numpy_dt INT8 = Ok np_dt
    /\ @randint lcg_random (DataType.min INT8) (DataType.max INT8 + 1) [5]%Z np_dt rng
       = (Ok vs, rng')
    /\ [9; 9; 37; - 11; - 96] = map inject_Z vs
    /\ Forall (fun v => - 128 <= v < 127 + 1)%Z vs
    /\ Forall (fun x => DataType.min INT8 <= x /\ x <= DataType.max INT8)
         [9; 9; 37; - 11; - 96].
Proof.
  apply (@gen_default_bounds exact_rounding lcg_random lcg_py_random example_getitem
           lcg_random_laws INT8 [5]%Z 42%Z example_process
           (mk_ndarray [5]%Z np_float32 [9; 9; 37; - 11; - 96]) (- 128)%Z 127%Z);
    try reflexivity; lia.
Defined.

Lemma gen_two_valued_ignores_bounds_witness :
  @gen_finn_dt_tensor exact_rounding lcg_random lcg_py_random example_getitem
    BIPOLAR [3]%Z (Some 5) (Some 9) 42%Z example_process
  = @gen_finn_dt_tensor exact_rounding lcg_random lcg_py_random example_getitem
      BIPOLAR [3]%Z None None 42%Z example_process.
Proof.
  apply (@gen_two_valued_ignores_bounds exact_rounding lcg_random lcg_py_random
           example_getitem BIPOLAR [3]%Z (Some 5) (Some 9) 42%Z example_process).
  reflexivity.
Defined.

Lemma gen_fixed_scaled_integers_witness :
  Forall (fun x => exists v, (- 128 <= v <= 127)%Z
                     /\ x = @fl32 exact_rounding
                              (@fl64 exact_rounding
                                 (inject_Z v * DataType.scale_factor FIXED8_4)))
    [9 # 16; 9 # 16; 37 # 16].
Proof.
  apply (@gen_fixed_scaled_integers exact_rounding lcg_random lcg_py_random
           example_getitem lcg_random_laws FIXED8_4 INT8 [3]%Z 42%Z example_process
           (mk_ndarray [3]%Z np_float32 [9 # 16; 9 # 16; 37 # 16]) (- 128)%Z 127%Z);
    reflexivity.
Defined.

Lemma auto_pad_same_split_witness :
  auto_pad_to_explicit_padding "SAME_UPPER" 32 32 3 3 2 2 2
  = Returns [16; 16; 17; 17]%Z
  /\ auto_pad_to_explicit_padding "SAME_LOWER" 32 32 3 3 2 2 2
     = Returns [17; 17; 16; 16]%Z.
Proof.
  destruct (auto_pad_same_split 32 32 3 3 2 2 2) as (H1 & H2 & _).
  - reflexivity.
  - reflexivity.
  - split; assumption.
Defined.

Lemma auto_pad_unit_stride_odd_kernel_witness :
  auto_pad_to_explicit_padding "SAME_LOWER" 28 28 (2 * 1 + 1) (2 * 2 + 1) 1 1 2
  = Returns [1; 2; 1; 2]%Z.
Proof.
  apply (auto_pad_unit_stride_odd_kernel "SAME_LOWER" 28 28 1 2 2).
  - now right.
  - split; [discriminate | reflexivity].
  - split; [discriminate | reflexivity].
Defined.

Lemma get_by_name_unique_match_witness :
  In ("relu0", "Relu") example_nodes
  /\ node_getattr ("relu0", "Relu") "name" = "relu0".
Proof.
  apply (proj2 (get_by_name_unique_match node_getattr "relu0" "name" example_nodes)).
  reflexivity.
Defined.
